(** * Swept AABB-2D: the collision test, the per-tick update and the
      fixed-timestep scheduler of Main.cpp

    The program computes on IEEE-754 numbers: [float] (binary32) in
    [SweptAABB] and [update], [double] (binary64) in [checkTime].  Both are
    modelled by the Standard Library's [spec_float], whose operations are
    the correctly rounded (round-to-nearest-even) ones, at precision 24 and
    53.  Expressions are evaluated in the precision of their C++ type. *)

From Stdlib Require Import ZArith Bool List Lia.
From Stdlib Require Import Floats.SpecFloat.
Import ListNotations.

Local Open Scope Z_scope.

(** ** IEEE-754 binary32: the C++ type [float] *)

Module F32.

Definition prec : Z := 24.
Definition emax : Z := 128.

Definition float : Type := spec_float.

Definition add : float -> float -> float := SFadd prec emax.
Definition sub : float -> float -> float := SFsub prec emax.
Definition mul : float -> float -> float := SFmul prec emax.
Definition div : float -> float -> float := SFdiv prec emax.

(** The comparison operators of C++; each is false when an operand is
    NaN. *)
Definition lt (a b : float) : bool := SFltb a b.
Definition gt (a b : float) : bool := SFltb b a.
Definition ge (a b : float) : bool := SFleb b a.
Definition le (a b : float) : bool := SFleb a b.
Definition eq (a b : float) : bool := SFeqb a b.

(** [fabsf], and [abs] on a [float] argument (the floating overload that
    <cmath> declares). *)
Definition fabsf (a : float) : float := SFabs a.

(** [std::max(a, b)] is [(a < b) ? b : a]; [std::min(a, b)] is
    [(b < a) ? b : a]. *)
Definition max (a b : float) : float := if lt a b then b else a.
Definition min (a b : float) : float := if lt b a then b else a.

(** Conversion of an integer literal or an [int] value. *)
Definition of_Z (n : Z) : float := binary_normalize prec emax n 0 false.

(** A decimal literal [n / 10^k] with the suffix f, correctly rounded. *)
Definition literal (n : Z) (k : positive) : float :=
  div (of_Z n) (of_Z (Z.pow_pos 10 k)).

Definition zero : float := S754_zero false.                    (* 0.0f *)
Definition one : float := S754_finite false 8388608 (-23).     (* 1.0f *)
Definition two : float := S754_finite false 8388608 (-22).     (* 2.0f *)
Definition minus_one : float := S754_finite true 8388608 (-23).
Definition infinity : float := S754_infinity false.
Definition neg_infinity : float := S754_infinity true.

(** A value that is a number and not an infinity. *)
Definition is_finite (a : float) : bool :=
  match a with
  | S754_zero _ | S754_finite _ _ _ => true
  | _ => false
  end.

Definition is_nan (a : float) : bool :=
  match a with S754_nan => true | _ => false end.

(** A value of the binary32 format: the mantissa is normalised. *)
Definition valid (a : float) : bool := valid_binary prec emax a.

End F32.

(** ** IEEE-754 binary64: the C++ type [double] *)

Module F64.

Definition prec : Z := 53.
Definition emax : Z := 1024.

Definition double : Type := spec_float.

Definition add : double -> double -> double := SFadd prec emax.
Definition sub : double -> double -> double := SFsub prec emax.
Definition div : double -> double -> double := SFdiv prec emax.

Definition lt (a b : double) : bool := SFltb a b.
Definition gt (a b : double) : bool := SFltb b a.
Definition ge (a b : double) : bool := SFleb b a.

Definition of_Z (n : Z) : double := binary_normalize prec emax n 0 false.

Definition literal (n : Z) (k : positive) : double :=
  div (of_Z n) (of_Z (Z.pow_pos 10 k)).

Definition zero : double := S754_zero false.
Definition one : double := S754_finite false 4503599627370496 (-52).

(** The implicit conversion [double] to [float] at a call such as
    [update(physicsStep)]: rounding to the nearest binary32 value. *)
Definition to_float (a : double) : F32.float :=
  match a with
  | S754_finite s m e => binary_round F32.prec F32.emax s m e
  | _ => a
  end.

(** The conversion [double] to [int]: truncation toward zero. *)
Definition to_int (a : double) : Z :=
  match a with
  | S754_finite s m e =>
      let q := match e with
               | Zneg p => Z.shiftr (Zpos m) (Zpos p)
               | _ => Z.shiftl (Zpos m) e
               end in
      if s then Z.opp q else q
  | _ => 0
  end.

End F64.

(** ** Vectors and boxes *)

Import F32.

(** [glm::vec3]. *)
Module vec3.
Record t : Type := make { x : float; y : float; z : float }.

(** [v * s], component by component. *)
Definition scale (v : t) (s : float) : t :=
  make (mul (x v) s) (mul (y v) s) (mul (z v) s).

(** [u + v]. *)
Definition plus (u v : t) : t :=
  make (add (x u) (x v)) (add (y u) (y v)) (add (z u) (z v)).
End vec3.

(** Modelled from the spec: the two-component vector of the AABB corners
    (GameObject.h is not part of the sources). *)
Module vec2.
Record t : Type := make { x : float; y : float }.
End vec2.

(** Modelled from the spec: struct AABB of GameObject.h, "axis-aligned box:
    min: Vector2, max: Vector2". *)
Record AABB : Type := Build_AABB { min : vec2.t; max : vec2.t }.

(** ** TestAABB (Main.cpp, lines 93-103) *)

(** The static test: [false] as soon as the boxes are separated on x or on
    y.  The demo does not call it. *)
Definition TestAABB (a b : AABB) : bool :=
  if lt (vec2.x (max a)) (vec2.x (min b))
     || gt (vec2.x (min a)) (vec2.x (max b))
  then false
  else if lt (vec2.y (max a)) (vec2.y (min b))
          || gt (vec2.y (min a)) (vec2.y (max b))
  then false
  else true.

(** ** SweptAABB (Main.cpp, lines 106-246) *)

Section SweptAABB.

Variables box1 box2 : AABB.
Variable vel1 : vec3.t.

(** Lines 116-125. *)
Definition xDistanceEntry : float :=
  if gt (vec3.x vel1) zero
  then sub (vec2.x (min box2)) (vec2.x (max box1))
  else sub (vec2.x (max box2)) (vec2.x (min box1)).

Definition xDistanceExit : float :=
  if gt (vec3.x vel1) zero
  then sub (vec2.x (max box2)) (vec2.x (min box1))
  else sub (vec2.x (min box2)) (vec2.x (max box1)).

(** Lines 127-136. *)
Definition yDistanceEntry : float :=
  if gt (vec3.y vel1) zero
  then sub (vec2.y (min box2)) (vec2.y (max box1))
  else sub (vec2.y (max box2)) (vec2.y (min box1)).

Definition yDistanceExit : float :=
  if gt (vec3.y vel1) zero
  then sub (vec2.y (max box2)) (vec2.y (min box1))
  else sub (vec2.y (min box2)) (vec2.y (max box1)).

(** The right-hand sides of the comparisons at lines 146 and 169: the sum
    of the widths of the two boxes on the axis. *)
Definition xExtents : float :=
  add (sub (vec2.x (max box1)) (vec2.x (min box1)))
      (sub (vec2.x (max box2)) (vec2.x (min box2))).

Definition yExtents : float :=
  add (sub (vec2.y (max box1)) (vec2.y (min box1)))
      (sub (vec2.y (max box2)) (vec2.y (min box2))).

(** Lines 143-165. *)
Definition xEntryTime : float :=
  if eq (vec3.x vel1) zero then
    if gt (F32.max (fabsf xDistanceEntry) (fabsf xDistanceExit)) xExtents
    then two
    else neg_infinity
  else div xDistanceEntry (vec3.x vel1).

Definition xExitTime : float :=
  if eq (vec3.x vel1) zero then infinity
  else div xDistanceExit (vec3.x vel1).

(** Lines 167-184. *)
Definition yEntryTime : float :=
  if eq (vec3.y vel1) zero then
    if gt (F32.max (fabsf yDistanceEntry) (fabsf yDistanceExit)) yExtents
    then two
    else neg_infinity
  else div yDistanceEntry (vec3.y vel1).

Definition yExitTime : float :=
  if eq (vec3.y vel1) zero then infinity
  else div yDistanceExit (vec3.y vel1).

(** Lines 188 and 191. *)
Definition entryTime : float := F32.max xEntryTime yEntryTime.
Definition exitTime : float := F32.min xExitTime yExitTime.

(** The condition of the [if] at line 197; [&&] binds tighter than [||]. *)
Definition noCollision : bool :=
  gt entryTime exitTime
  || (lt xEntryTime zero && lt yEntryTime zero)
  || gt xEntryTime one
  || gt yEntryTime one.

(** Lines 186-245, on the distances and times computed above.  The result
    is the returned [float] together with the final contents of the two
    reference parameters; [normalx] and [normaly] are their contents at the
    call. *)
Definition outcome (xDistanceEntry yDistanceEntry : float)
    (xEntryTime xExitTime yEntryTime yExitTime : float)
    (normalx normaly : float) : float * float * float :=
  let entryTime := F32.max xEntryTime yEntryTime in
  let exitTime := F32.min xExitTime yExitTime in
  if gt entryTime exitTime
     || (lt xEntryTime zero && lt yEntryTime zero)
     || gt xEntryTime one
     || gt yEntryTime one
  then
    (two, zero, zero)
  else if gt xEntryTime yEntryTime then
    if lt xDistanceEntry zero
    then (entryTime, one, zero)
    else (entryTime, minus_one, zero)
  else if gt yEntryTime xEntryTime then
    if lt yDistanceEntry zero
    then (entryTime, zero, one)
    else (entryTime, zero, minus_one)
  else
    (entryTime, normalx, normaly).

Definition SweptAABB (normalx normaly : float) : float * float * float :=
  outcome xDistanceEntry yDistanceEntry
          xEntryTime xExitTime yEntryTime yExitTime normalx normaly.

End SweptAABB.

(** ** GameObject *)

(** Modelled from the spec: class GameObject (GameObject.h and
    GameObject.cpp are not part of the sources).  "Body - a simulated
    entity: position, velocity, scale, aabb"; the accessors read and write
    one field. *)
Record GameObject : Type := Build_GameObject {
  position : vec3.t;
  velocity : vec3.t;
  scale : vec3.t;
  aabb : AABB
}.

Definition GetPosition (o : GameObject) : vec3.t := position o.
Definition GetVelocity (o : GameObject) : vec3.t := velocity o.
Definition GetAABB (o : GameObject) : AABB := aabb o.

Definition SetPosition (p : vec3.t) (o : GameObject) : GameObject :=
  Build_GameObject p (velocity o) (scale o) (aabb o).
Definition SetVelocity (v : vec3.t) (o : GameObject) : GameObject :=
  Build_GameObject (position o) v (scale o) (aabb o).
Definition SetScale (s : vec3.t) (o : GameObject) : GameObject :=
  Build_GameObject (position o) (velocity o) s (aabb o).

(** Modelled from the spec: GameObject::CalculateAABB.  The box is
    "recomputed every tick from the owning body's world transform (scale and
    translation; rotation is ignored)"; the shared shape is the square with
    corners (-1,-1) and (1,1), so the scale is the half-extent. *)
Definition CalculateAABB (o : GameObject) : GameObject :=
  let p := position o in
  let s := scale o in
  Build_GameObject (position o) (velocity o) (scale o)
    (Build_AABB
       (vec2.make (sub (vec3.x p) (vec3.x s)) (sub (vec3.y p) (vec3.y s)))
       (vec2.make (add (vec3.x p) (vec3.x s)) (add (vec3.y p) (vec3.y s)))).

(** Modelled from the spec: GameObject::Update(dt), "advance the body by dt
    using its velocity": position += velocity * dt. *)
Definition Update (dt : float) (o : GameObject) : GameObject :=
  SetPosition (vec3.plus (position o) (vec3.scale (velocity o) dt)) o.

(** The two bodies that the globals [obj1] and [obj2] point to.  The
    matrices MVP and MVP2, which [update] recomputes for the renderer at
    lines 327-328, are not part of the model. *)
Record World : Type := Build_World { obj1 : GameObject; obj2 : GameObject }.

(** ** update (Main.cpp, lines 249-329) *)

Definition bound_x : float := S754_finite false 15099494 (-24).   (* 0.9f *)
Definition bound_y : float := S754_finite false 13421773 (-24).   (* 0.8f *)
Definition epsilon : float := S754_finite false 13743895 (-37).   (* 0.0001f *)

(** Lines 252-265: the boundary check, on the moving body. *)
Definition update_boundary (o2 : GameObject) : GameObject :=
  let tempPos := GetPosition o2 in
  let o2 :=
    if gt (fabsf (vec3.x tempPos)) bound_x then
      let tempVel := GetVelocity o2 in
      SetVelocity (vec3.make (mul minus_one (vec3.x tempVel))
                             (vec3.y tempVel) (vec3.z tempVel)) o2
    else o2 in
  if gt (fabsf (vec3.y tempPos)) bound_y then
    let tempVel := GetVelocity o2 in
    SetVelocity (vec3.make (vec3.x tempVel)
                           (mul minus_one (vec3.y tempVel)) (vec3.z tempVel)) o2
  else o2.

(** Lines 295-306: the local [velocity], bounced on the axes of the
    normal. *)
Definition bounce (v : vec3.t) (normalx normaly : float) : vec3.t :=
  let v :=
    if gt (fabsf normalx) epsilon
    then vec3.make (mul (vec3.x v) minus_one) (vec3.y v) (vec3.z v) else v in
  if gt (fabsf normaly) epsilon
  then vec3.make (vec3.x v) (mul (vec3.y v) minus_one) (vec3.z v) else v.

(** Lines 276-324.  [normals] holds what the uninitialised locals [normalx]
    and [normaly] of line 280 contain when [SweptAABB] is called. *)
Definition update_collide (normals : float * float) (dt : float) (w : World)
  : World :=
  let o1 := CalculateAABB (obj1 w) in
  let o2 := CalculateAABB (obj2 w) in
  let '(collisionTime, normalx, normaly) :=
    SweptAABB (GetAABB o2) (GetAABB o1) (vec3.scale (GetVelocity o2) dt)
              (fst normals) (snd normals) in
  let remainingTime := sub one collisionTime in
  if ge remainingTime zero then
    let velocity := bounce (GetVelocity o2) normalx normaly in
    let o1 := Update (mul collisionTime dt) o1 in
    let o2 := Update (mul collisionTime dt) o2 in
    let o2 := SetVelocity velocity o2 in
    let o1 := Update (mul remainingTime dt) o1 in
    let o2 := Update (mul remainingTime dt) o2 in
    Build_World o1 o2
  else
    Build_World (Update dt o1) (Update dt o2).

Definition update (normals : float * float) (dt : float) (w : World) : World :=
  update_collide normals dt
    (Build_World (obj1 w) (update_boundary (obj2 w))).

(** ** init (Main.cpp, lines 513-522 and 563-564) *)

Definition speed : float := S754_finite false 15099494 (-24).     (* 0.90f *)

(** [fresh] is the object that the constructor of GameObject returns. *)
Definition init (fresh : GameObject) : World :=
  let o1 := fresh in
  let o2 := fresh in
  let o1 := SetVelocity (vec3.make (of_Z 0) zero zero) o1 in
  let o2 := SetVelocity (vec3.make (SFopp speed) (SFopp speed) zero) o2 in
  let o1 := SetPosition (vec3.make zero zero zero) o1 in
  let o2 := SetPosition (vec3.make (literal 7 1) (literal 7 1) zero) o2 in
  let o1 := SetScale (vec3.make (literal 25 2) (literal 25 2) (literal 25 2)) o1 in
  let o2 := SetScale (vec3.make (literal 5 2) (literal 5 2) (literal 5 2)) o2 in
  Build_World (CalculateAABB o1) (CalculateAABB o2).

(** ** checkTime (Main.cpp, lines 332-379) *)

Definition physicsStep : F64.double :=
  S754_finite false 6917529027641082 (-59).                       (* 0.012 *)

(** The bound 0.25 of line 362. *)
Definition quarter : F64.double := S754_finite false 4503599627370496 (-54).

(** The globals of lines 70-76 and the two bodies.  The window title that
    line 355 sets is not part of the model. *)
Record Globals : Type := Build_Globals {
  frame : Z;
  time : F64.double;
  timebase : F64.double;
  accumulator : F64.double;
  fps : Z;
  FPSTime : F64.double;
  world : World
}.

(** Lines 372-377.  [fuel] bounds the number of iterations; [stale n] is
    what the uninitialised locals of the n-th call of [update] hold.  The
    result carries the number of calls of [update] made. *)
Fixpoint physics_loop (fuel : nat) (stale : nat -> float * float)
    (acc : F64.double) (w : World) : option (nat * F64.double * World) :=
  if F64.ge acc physicsStep then
    match fuel with
    | O => None
    | S fuel' =>
        match physics_loop fuel' (fun n => stale (S n))
                (F64.sub acc physicsStep)
                (update (stale O) (F64.to_float physicsStep) w) with
        | Some (n, acc', w') => Some (S n, acc', w')
        | None => None
        end
    end
  else Some (O, acc, w).

(** [now] is the value that [glfwGetTime()] returns at line 335. *)
Definition checkTime (fuel : nat) (stale : nat -> float * float)
    (now : F64.double) (g : Globals) : option (nat * Globals) :=
  let time := now in
  let dt := F64.sub time (timebase g) in
  if F64.gt dt physicsStep then
    let '(frame', fps', FPSTime') :=
      if F64.gt (F64.sub time (FPSTime g)) F64.one then
        (0, F64.to_int (F64.div (F64.of_Z (frame g)) (F64.sub time (FPSTime g))),
         time)
      else (frame g, fps g, FPSTime g) in
    let timebase' := time in
    let dt := if F64.gt dt quarter then quarter else dt in
    let accumulator' := F64.add (accumulator g) dt in
    match physics_loop fuel stale accumulator' (world g) with
    | Some (n, acc, w) =>
        Some (n, Build_Globals frame' time timebase' acc fps' FPSTime' w)
    | None => None
    end
  else
    Some (O, Build_Globals (frame g) time (timebase g) (accumulator g)
                (fps g) (FPSTime g) (world g)).

(** ** main (Main.cpp, lines 583-637) *)

(** The largest value of the type [int]. *)
Definition INT_MAX : Z := 2147483647.

(** What a frame brings in: the value that [glfwGetTime()] returns in its
    call of [checkTime], and the contents of the uninitialised locals of the
    calls of [update] that it makes. *)
Definition frame_input : Type := F64.double * (nat -> float * float).

(** Lines 603-619: the loop, with one iteration for each frame that is shown
    before the window is closed.  [renderScene], [glfwSwapBuffers] and
    [glfwPollEvents] change none of the globals of the model.  [frame++] on
    the largest [int] is undefined: [None].  The result carries the number
    of calls of [update] made. *)
Fixpoint main_loop (fuel : nat) (frames : list frame_input) (g : Globals)
  : option (nat * Globals) :=
  match frames with
  | [] => Some (O, g)
  | (now, stale) :: rest =>
      match checkTime fuel stale now g with
      | None => None
      | Some (n, g) =>
          if frame g <? INT_MAX then
            match main_loop fuel rest
                    (Build_Globals (frame g + 1) (time g) (timebase g)
                       (accumulator g) (fps g) (FPSTime g) (world g)) with
            | Some (k, g') => Some ((n + k)%nat, g')
            | None => None
            end
          else None
      end
  end.

(** ** Divisions by the displacement *)

(** The same computation with the division made partial: [None] stands for
    a division whose divisor is zero.  The two axes are computed first, in
    the order of the source, and the rest of the function (lines 186-245)
    follows as in [SweptAABB]. *)
Module Trapping.

Definition div (a b : float) : option float :=
  if eq b zero then None else Some (F32.div a b).

Section Axes.

Variables box1 box2 : AABB.
Variable vel1 : vec3.t.

(** Lines 143-165: the pair of [xEntryTime] and [xExitTime]. *)
Definition xTimes : option (float * float) :=
  if eq (vec3.x vel1) zero then
    Some (if gt (F32.max (fabsf (xDistanceEntry box1 box2 vel1))
                         (fabsf (xDistanceExit box1 box2 vel1)))
                (xExtents box1 box2)
          then two else neg_infinity,
          infinity)
  else
    match div (xDistanceEntry box1 box2 vel1) (vec3.x vel1) with
    | None => None
    | Some xEntryTime =>
        match div (xDistanceExit box1 box2 vel1) (vec3.x vel1) with
        | None => None
        | Some xExitTime => Some (xEntryTime, xExitTime)
        end
    end.

(** Lines 167-184. *)
Definition yTimes : option (float * float) :=
  if eq (vec3.y vel1) zero then
    Some (if gt (F32.max (fabsf (yDistanceEntry box1 box2 vel1))
                         (fabsf (yDistanceExit box1 box2 vel1)))
                (yExtents box1 box2)
          then two else neg_infinity,
          infinity)
  else
    match div (yDistanceEntry box1 box2 vel1) (vec3.y vel1) with
    | None => None
    | Some yEntryTime =>
        match div (yDistanceExit box1 box2 vel1) (vec3.y vel1) with
        | None => None
        | Some yExitTime => Some (yEntryTime, yExitTime)
        end
    end.

Definition SweptAABB (normalx normaly : float)
  : option (float * float * float) :=
  match xTimes with
  | None => None
  | Some (xEntryTime, xExitTime) =>
      match yTimes with
      | None => None
      | Some (yEntryTime, yExitTime) =>
          Some (outcome (xDistanceEntry box1 box2 vel1)
                        (yDistanceEntry box1 box2 vel1)
                        xEntryTime xExitTime yEntryTime yExitTime
                        normalx normaly)
      end
  end.

End Axes.

End Trapping.

(** * The vocabulary of the properties *)

Definition finite_AABB (b : AABB) : Prop :=
  is_finite (vec2.x (min b)) = true /\ is_finite (vec2.y (min b)) = true /\
  is_finite (vec2.x (max b)) = true /\ is_finite (vec2.y (max b)) = true.

(** The displacement, of which [SweptAABB] reads the x and y components. *)
Definition finite_displacement (v : vec3.t) : Prop :=
  is_finite (vec3.x v) = true /\ is_finite (vec3.y v) = true.

(** A tick is a call [update(dt)] together with what its uninitialised
    locals hold. *)
Definition tick : Type := (float * float) * float.

Definition run (ticks : list tick) (w : World) : World :=
  fold_left (fun w t => update (fst t) (snd t) w) ticks w.

(** A velocity whose x and y components are the speed or its opposite. *)
Definition moving (v : vec3.t) : Prop :=
  (vec3.x v = speed \/ vec3.x v = SFopp speed) /\
  (vec3.y v = speed \/ vec3.y v = SFopp speed).

(** The accumulator after [n] subtractions of the step. *)
Fixpoint drain (n : nat) (acc : F64.double) : F64.double :=
  match n with
  | O => acc
  | S n' => drain n' (F64.sub acc physicsStep)
  end.

(** The world after [n] calls [update(physicsStep)]. *)
Fixpoint updates (n : nat) (stale : nat -> float * float) (w : World) : World :=
  match n with
  | O => w
  | S n' => updates n' (fun k => stale (S k))
              (update (stale O) (F64.to_float physicsStep) w)
  end.

(** The scheduler as the specification words it: on every frame the
    elapsed time, clamped to 0.25, goes into the accumulator, and the loop
    follows. *)
Definition checkTime_every_frame (fuel : nat) (stale : nat -> float * float)
    (now : F64.double) (g : Globals) : option (nat * F64.double * World) :=
  let dt := F64.sub now (timebase g) in
  let dt := if F64.gt dt quarter then quarter else dt in
  physics_loop fuel stale (F64.add (accumulator g) dt) (world g).

(** A finite value of the binary64 format. *)
Definition binary64 (a : F64.double) : Prop :=
  valid_binary F64.prec F64.emax a = true /\ is_finite a = true.

(** The accumulator between two frames: a finite value, not negative and
    below the step. *)
Definition between_frames (acc : F64.double) : Prop :=
  binary64 acc /\ F64.ge acc F64.zero = true /\ F64.lt acc physicsStep = true.

(** The largest content of the accumulator at the start of the loop: one
    step less a bit, and the clamp. *)
Definition full : F64.double := F64.add physicsStep quarter.

Definition binary64b (a : F64.double) : bool :=
  valid_binary F64.prec F64.emax a && is_finite a.

(** The frame delta 0.05 of the scenario and the remainder 0.002. *)
Definition delta_0_05 : F64.double := S754_finite false 7205759403792794 (-57).
Definition remainder_0_002 : F64.double :=
  S754_finite false 4611686018427388 (-61).

Inductive axis : Type := X | Y.

Definition other (ax : axis) : axis := match ax with X => Y | Y => X end.

(** The faces of a box on an axis, and a component of the displacement. *)
Definition lo (ax : axis) (b : AABB) : float :=
  match ax with X => vec2.x (min b) | Y => vec2.y (min b) end.
Definition hi (ax : axis) (b : AABB) : float :=
  match ax with X => vec2.x (max b) | Y => vec2.y (max b) end.
Definition component (ax : axis) (v : vec3.t) : float :=
  match ax with X => vec3.x v | Y => vec3.y v end.

(** The component of the returned normal on an axis. *)
Definition normal_on (ax : axis) (r : float * float * float) : float :=
  match ax with X => snd (fst r) | Y => snd r end.

Definition DistanceEntry (ax : axis) :=
  match ax with X => xDistanceEntry | Y => yDistanceEntry end.
Definition DistanceExit (ax : axis) :=
  match ax with X => xDistanceExit | Y => yDistanceExit end.
Definition Extents (ax : axis) :=
  match ax with X => xExtents | Y => yExtents end.
Definition EntryTime (ax : axis) :=
  match ax with X => xEntryTime | Y => yEntryTime end.
Definition ExitTime (ax : axis) :=
  match ax with X => xExitTime | Y => yExitTime end.



(** A finite value of the binary32 format. *)
Definition binary32 (a : float) : Prop :=
  valid a = true /\ is_finite a = true.

(** A well-formed box, as far as an axis goes: its two faces are finite
    values, the lower one not above the upper one. *)
Definition well_formed_on (ax : axis) (b : AABB) : Prop :=
  binary32 (lo ax b) /\ binary32 (hi ax b) /\ le (lo ax b) (hi ax b) = true.


Definition box (x0 y0 x1 y1 : float) : AABB :=
  Build_AABB (vec2.make x0 y0) (vec2.make x1 y1).

(** The computation of one axis (lines 116-125 and 143-165 for x,
    lines 127-136 and 167-184 for y), on the component [c] of the
    displacement and the faces of the two boxes. *)
Definition axis_distance_entry (c lo1 hi1 lo2 hi2 : float) : float :=
  if gt c zero then sub lo2 hi1 else sub hi2 lo1.
Definition axis_distance_exit (c lo1 hi1 lo2 hi2 : float) : float :=
  if gt c zero then sub hi2 lo1 else sub lo2 hi1.
Definition axis_entry_time (c lo1 hi1 lo2 hi2 : float) : float :=
  if eq c zero then
    if gt (F32.max (fabsf (axis_distance_entry c lo1 hi1 lo2 hi2))
                   (fabsf (axis_distance_exit c lo1 hi1 lo2 hi2)))
          (add (sub hi1 lo1) (sub hi2 lo2))
    then two else neg_infinity
  else div (axis_distance_entry c lo1 hi1 lo2 hi2) c.
Definition axis_exit_time (c lo1 hi1 lo2 hi2 : float) : float :=
  if eq c zero then infinity
  else div (axis_distance_exit c lo1 hi1 lo2 hi2) c.

(** A box with the corners (x0, y0) and (x1, y1), in integers. *)
Definition box_Z (x0 y0 x1 y1 : Z) : AABB :=
  box (of_Z x0) (of_Z y0) (of_Z x1) (of_Z y1).

Definition vel_Z (a b : Z) : vec3.t := vec3.make (of_Z a) (of_Z b) zero.

(** A box of height 2^-23 moves by (2, 0) toward a box of height 6 that it
    overlaps in y over a length of 2^-24: the sum of the widths is rounded
    below the distance between the far sides, and no collision is
    reported. *)
Definition thin_box : AABB :=
  box (of_Z 0) (S754_finite false 8388608 (-45))
      (of_Z 1) (S754_finite false 12582912 (-45)).
Definition tall_box : AABB :=
  box (of_Z 2) (S754_finite false 10485760 (-45)) (of_Z 3) (of_Z 6).

(** The object that the constructor is taken to return in the runs below,
    and the globals as lines 70-75 initialise them. *)
Definition blank : GameObject :=
  Build_GameObject (vec3.make zero zero zero) (vec3.make zero zero zero)
    (vec3.make one one one) (box zero zero zero zero).

Definition startup : Globals :=
  Build_Globals 0 F64.zero F64.zero F64.zero 0 F64.zero (init blank).

Definition no_stale : nat -> float * float := fun _ => (zero, zero).

(** The [float] with the bits 0xCCCCCCCC, with which a debug build fills
    uninitialised locals. *)
Definition debug_fill : float := S754_finite true 13421772 3.

(** The demo after 37 ticks of physicsStep. *)
Definition before_impact : World := updates 37 no_stale (init blank).

(** C8 as the specification states it: what [checkTime] does on a frame is
    what the scheduler that adds the elapsed time on every frame does. *)
Definition adds_on_every_frame (fuel : nat) (stale : nat -> float * float)
    (now : F64.double) (g : Globals) : Prop :=
  forall n g', checkTime fuel stale now g = Some (n, g') ->
    checkTime_every_frame fuel stale now g =
    Some (n, accumulator g', world g').

(** A box whose lower corner is not above its upper corner. *)
Definition well_formed (b : AABB) : Prop :=
  le (lo X b) (hi X b) = true /\ le (lo Y b) (hi Y b) = true.

(** The point (px, py) lies in the box, faces included. *)
Definition inside (px py : float) (b : AABB) : Prop :=
  le (lo X b) px = true /\ le px (hi X b) = true
  /\ le (lo Y b) py = true /\ le py (hi Y b) = true.

Definition nan_box : AABB := box S754_nan S754_nan S754_nan S754_nan.

(** A box whose four coordinates are finite values of the binary32
    format. *)
Definition binary32_AABB (b : AABB) : Prop :=
  binary32 (lo X b) /\ binary32 (hi X b)
  /\ binary32 (lo Y b) /\ binary32 (hi Y b).

(** The globals between two frames: the accumulator holds less than a step,
    the time of the last step is a finite number and the frame counter is
    not negative. *)
Definition frame_invariant (g : Globals) : Prop :=
  between_frames (accumulator g) /\ binary64 (timebase g) /\ 0 <= frame g.

(** An accumulator of 0.011 and a frame that comes one second later. *)
Definition nearly_full : Globals :=
  Build_Globals 0 F64.zero F64.zero (F64.literal 11 3) 0 F64.zero (init blank).

(** A component of a velocity after a tick: what it was, or its opposite. *)
Definition same_or_opposite (a a' : float) : Prop := a' = a \/ a' = SFopp a.

(** A coordinate after a tick of a body that does not move: what it was,
    but for a negative zero, which an addition of +0 turns into +0. *)
Definition still (a a' : float) : Prop :=
  a' = a \/ (a = S754_zero true /\ a' = zero).

(** A content of an uninitialised local on which the test
    [abs(n) > 0.0001f] of lines 298 and 303 has one outcome, whichever
    [abs] the call resolves to: the one of [float] compares the magnitude,
    the one of [int] the magnitude of the integer part, which is defined
    below 2^31.  At a magnitude of 0.0001 at most the test fails with
    both; from 1 and below 2^31 it succeeds with both. *)
Definition settled (n : float) : Prop :=
  le (fabsf n) epsilon = true
  \/ (le one (fabsf n) = true /\ lt (fabsf n) (of_Z 2147483648) = true).

(** What a run of the loop leaves of the simulation: the number of calls
    of [update], the two clocks and the accumulator of the scheduler, and
    the bodies.  The counter of frames, the rate computed from it and
    [time], which is written and never read, are left out. *)
Definition simulation (r : option (nat * Globals))
  : option (nat * F64.double * F64.double * F64.double * World) :=
  option_map (fun r => (fst r, timebase (snd r), accumulator (snd r),
                        FPSTime (snd r), world (snd r))) r.

(** Two states of the globals that differ in the counter of frames, the
    rate and [time] at most. *)
Definition same_simulation (g ga : Globals) : Prop :=
  timebase g = timebase ga /\ accumulator g = accumulator ga
  /\ FPSTime g = FPSTime ga /\ world g = world ga.

(** * Properties *)

(** ** Comparisons of [spec_float] *)

Section Compare.

Lemma SFcompare_antisym (a b : spec_float) :
  SFcompare b a = option_map CompOpp (SFcompare a b).
Proof.
  destruct a as [sa|sa| |sa ma ea], b as [sb|sb| |sb mb eb]; simpl;
    try reflexivity;
    try (destruct sa; reflexivity);
    try (destruct sb; reflexivity);
    try (destruct sa, sb; reflexivity).
  destruct sa, sb; simpl; try reflexivity;
    rewrite (Z.compare_antisym ea eb);
    destruct (ea ?= eb); simpl; try reflexivity;
    change (Pos.compare_cont Eq mb ma) with (Pos.compare mb ma);
    change (Pos.compare_cont Eq ma mb) with (Pos.compare ma mb);
    rewrite (Pos.compare_antisym ma mb);
    destruct (ma ?= mb)%positive; reflexivity.
Qed.

Lemma SFeqb_sym (a b : spec_float) : SFeqb a b = true -> SFeqb b a = true.
Proof.
  unfold SFeqb. rewrite (SFcompare_antisym a b).
  destruct (SFcompare a b) as [[ | | ]|]; simpl; congruence.
Qed.

Lemma SFeqb_not_ltb (a b : spec_float) :
  SFeqb a b = true -> SFltb a b = false /\ SFltb b a = false.
Proof.
  unfold SFeqb, SFltb. rewrite (SFcompare_antisym a b).
  destruct (SFcompare a b) as [[ | | ]|]; simpl; intuition congruence.
Qed.

Lemma SFltb_not_leb (a b : spec_float) :
  SFltb a b = true -> SFleb b a = false.
Proof.
  unfold SFleb, SFltb. rewrite (SFcompare_antisym a b).
  destruct (SFcompare a b) as [[ | | ]|]; simpl; congruence.
Qed.

(** On numbers the order is total. *)
Lemma SFltb_false_leb (a b : spec_float) :
  is_nan a = false -> is_nan b = false ->
  SFltb a b = false -> SFleb b a = true.
Proof.
  unfold SFleb, SFltb. rewrite (SFcompare_antisym a b).
  destruct a, b; try discriminate; intros _ _;
    destruct (SFcompare _ _) as [[ | | ]|] eqn:E; simpl;
    try congruence; simpl in E; discriminate.
Qed.

Lemma SFcompare_finite_Eq (s s' : bool) (m m' : positive) (e e' : Z) :
  SFcompare (S754_finite s m e) (S754_finite s' m' e') = Some Eq ->
  S754_finite s m e = S754_finite s' m' e'.
Proof.
  cbn [SFcompare]. intros H.
  pose proof (Pos.compare_eq m m') as Hm. unfold Pos.compare in Hm.
  destruct s, s'; try discriminate H;
    destruct (Z.compare_spec e e'); try discriminate H; subst e';
    destruct (Pos.compare_cont Eq m m'); try discriminate H;
    rewrite (Hm eq_refl); reflexivity.
Qed.

(** Only the canonical 2.0f compares equal to 2.0f. *)
Lemma SFeqb_two (t : float) : eq t two = true -> t = two.
Proof.
  unfold eq, SFeqb, two. intros H.
  destruct t as [s|s| |s m e].
  - destruct s; discriminate H.
  - destruct s; discriminate H.
  - discriminate H.
  - apply SFcompare_finite_Eq.
    destruct (SFcompare _ _) as [[ | | ]|]; congruence.
Qed.

End Compare.

(** ** The outcome of SweptAABB *)

Section Outcome.

Variables box1 box2 : AABB.
Variable vel1 : vec3.t.

Local Abbreviation xEntry := (xEntryTime box1 box2 vel1).
Local Abbreviation yEntry := (yEntryTime box1 box2 vel1).
Local Abbreviation entry := (entryTime box1 box2 vel1).
Local Abbreviation exit := (exitTime box1 box2 vel1).

Lemma SweptAABB_unfold (normalx normaly : float) :
  SweptAABB box1 box2 vel1 normalx normaly =
  if noCollision box1 box2 vel1 then (two, zero, zero)
  else if gt xEntry yEntry then
    if lt (xDistanceEntry box1 box2 vel1) zero
    then (entry, one, zero) else (entry, minus_one, zero)
  else if gt yEntry xEntry then
    if lt (yDistanceEntry box1 box2 vel1) zero
    then (entry, zero, one) else (entry, zero, minus_one)
  else (entry, normalx, normaly).
Proof. reflexivity. Qed.

(** In the collision branch neither axis entry time exceeds 1, so the
    result, which is one of them, is not the sentinel. *)
Lemma collision_not_sentinel :
  noCollision box1 box2 vel1 = false -> eq entry two = false.
Proof.
  unfold noCollision. intros H.
  apply orb_false_elim in H as [H Hy].
  apply orb_false_elim in H as [_ Hx].
  destruct (eq entry two) eqn:E; [|reflexivity].
  apply SFeqb_two in E. revert E.
  unfold entryTime, F32.max.
  destruct (lt xEntry yEntry); intros E; rewrite E in *; discriminate.
Qed.

Lemma SweptAABB_collision_time (normalx normaly : float) :
  noCollision box1 box2 vel1 = false ->
  fst (fst (SweptAABB box1 box2 vel1 normalx normaly)) = entry.
Proof.
  intros H. rewrite SweptAABB_unfold, H.
  destruct (gt xEntry yEntry); [destruct (lt _ zero); reflexivity|].
  destruct (gt yEntry xEntry); [destruct (lt _ zero); reflexivity|].
  reflexivity.
Qed.

End Outcome.

(** C1: SweptAABB reports no collision, returning 2.0 with the normal set
    to (0,0), if and only if
    (entryTime > exitTime) or (xEntryTime < 0 and yEntryTime < 0) or
    (xEntryTime > 1) or (yEntryTime > 1). *)
Theorem SweptAABB_no_collision_iff (box1 box2 : AABB) (vel1 : vec3.t)
    (normalx normaly : float) :
  SweptAABB box1 box2 vel1 normalx normaly = (two, zero, zero) <->
  (gt (entryTime box1 box2 vel1) (exitTime box1 box2 vel1) = true
   \/ (lt (xEntryTime box1 box2 vel1) zero = true
       /\ lt (yEntryTime box1 box2 vel1) zero = true)
   \/ gt (xEntryTime box1 box2 vel1) one = true
   \/ gt (yEntryTime box1 box2 vel1) one = true).
Proof.
  assert (Hcond :
    noCollision box1 box2 vel1 = true <->
    (gt (entryTime box1 box2 vel1) (exitTime box1 box2 vel1) = true
     \/ (lt (xEntryTime box1 box2 vel1) zero = true
         /\ lt (yEntryTime box1 box2 vel1) zero = true)
     \/ gt (xEntryTime box1 box2 vel1) one = true
     \/ gt (yEntryTime box1 box2 vel1) one = true)).
  { unfold noCollision.
    rewrite !orb_true_iff, andb_true_iff. tauto. }
  rewrite <- Hcond. split.
  - intros H. destruct (noCollision box1 box2 vel1) eqn:E; [reflexivity|].
    pose proof (collision_not_sentinel _ _ _ E) as Hs.
    pose proof (SweptAABB_collision_time _ _ _ normalx normaly E) as Ht.
    rewrite H in Ht. cbn [fst] in Ht. rewrite <- Ht in Hs. discriminate Hs.
  - intros H. rewrite SweptAABB_unfold, H. reflexivity.
Qed.

(** ** Results of the arithmetic that are numbers *)

Section NotNaN.

Variables prec emax : Z.

Lemma shr_1_nonneg (mrs : shr_record) :
  0 <= shr_m mrs -> 0 <= shr_m (shr_1 mrs).
Proof.
  destruct mrs as [m r s]. cbn [shr_m shr_1].
  destruct m as [|[p|p|]|[p|p|]]; cbn [shr_m]; lia.
Qed.

Lemma iter_shr_1_nonneg (p : positive) (mrs : shr_record) :
  0 <= shr_m mrs -> 0 <= shr_m (iter_pos shr_1 p mrs).
Proof.
  revert mrs. induction p as [p IH|p IH|]; intros mrs H; cbn [iter_pos].
  - apply IH, IH, shr_1_nonneg, H.
  - apply IH, IH, H.
  - apply shr_1_nonneg, H.
Qed.

Lemma shr_fexp_nonneg (m e : Z) (l : location) :
  0 <= m -> 0 <= shr_m (fst (shr_fexp prec emax m e l)).
Proof.
  intros H. unfold shr_fexp, shr.
  assert (H0 : 0 <= shr_m (shr_record_of_loc m l)).
  { destruct l as [|[ | | ]]; exact H. }
  destruct (fexp prec emax (Zdigits2 m + e) - e); cbn [fst]; auto.
  apply iter_shr_1_nonneg, H0.
Qed.

Lemma round_nearest_even_nonneg (m : Z) (l : location) :
  0 <= m -> 0 <= round_nearest_even m l.
Proof.
  intros H. unfold round_nearest_even.
  destruct l as [|[ | | ]]; try destruct (Z.even m); lia.
Qed.

Lemma binary_round_aux_not_nan (s : bool) (m e : Z) (l : location) :
  0 <= m -> is_nan (binary_round_aux prec emax s m e l) = false.
Proof.
  intros H. unfold binary_round_aux.
  pose proof (shr_fexp_nonneg m e l H) as H1.
  destruct (shr_fexp prec emax m e l) as [mrs' e']. cbn [fst] in H1.
  pose proof (shr_fexp_nonneg _ e' loc_Exact
                (round_nearest_even_nonneg _ (loc_of_shr_record mrs') H1))
    as H2.
  destruct (shr_fexp prec emax _ e' loc_Exact) as [mrs'' e''].
  cbn [fst] in H2.
  destruct (shr_m mrs'') as [|p|p]; [reflexivity| |lia].
  destruct (e'' <=? emax - prec); reflexivity.
Qed.

Lemma binary_normalize_not_nan (m e : Z) (sz : bool) :
  is_nan (binary_normalize prec emax m e sz) = false.
Proof.
  unfold binary_normalize, binary_round.
  destruct m as [|p|p]; [reflexivity| |];
    destruct (shl_align _ _ _) as [mz ez];
    apply binary_round_aux_not_nan; lia.
Qed.

Lemma SFsub_not_nan (a b : spec_float) :
  is_finite a = true -> is_finite b = true ->
  is_nan (SFsub prec emax a b) = false.
Proof.
  destruct a as [sa|sa| |sa ma ea], b as [sb|sb| |sb mb eb];
    try discriminate; intros _ _; cbn [SFsub].
  - destruct sa, sb; reflexivity.
  - reflexivity.
  - reflexivity.
  - apply binary_normalize_not_nan.
Qed.

Lemma SFdiv_not_nan (a v : spec_float) :
  is_nan a = false -> is_finite v = true -> SFeqb v (S754_zero false) = false ->
  is_nan (SFdiv prec emax a v) = false.
Proof.
  destruct a as [sa|sa| |sa ma ea], v as [sv|sv| |sv mv ev];
    try discriminate; intros _ _ _; cbn [SFdiv]; try reflexivity.
  unfold SFdiv_core_binary.
  set (m' := match _ - _ - _ with Z0 => _ | Zpos _ => _ | Zneg _ => _ end).
  assert (Hm : 0 <= m').
  { subst m'. destruct (_ - _ - _); try lia.
    apply Z.shiftl_nonneg. lia. }
  pose proof (Z_div_mod m' (Zpos mv) eq_refl) as Hd.
  destruct (Z.div_eucl m' (Zpos mv)) as [q r].
  apply binary_round_aux_not_nan. nia.
Qed.

End NotNaN.

(** ** Inputs that are numbers *)

Section Numbers.

Lemma is_finite_not_nan (a : float) : is_finite a = true -> is_nan a = false.
Proof. destruct a; try discriminate; reflexivity. Qed.

(** What lies below a negative number is negative. *)
Lemma SFleb_ltb_zero (a b : float) :
  SFleb a b = true -> SFltb b zero = true -> SFltb a zero = true.
Proof.
  unfold SFleb, SFltb, zero.
  destruct a as [sa|sa| |sa ma ea], b as [sb|sb| |sb mb eb];
    cbn [SFcompare]; try discriminate;
    try (destruct sa; discriminate);
    try (destruct sb; discriminate);
    try (destruct sa, sb; discriminate);
    try (destruct sa, sb; trivial; discriminate).
Qed.

Lemma SFltb_leb (a b : float) : SFltb a b = true -> SFleb a b = true.
Proof.
  unfold SFleb, SFltb. destruct (SFcompare a b) as [[ | | ]|]; congruence.
Qed.

Variables box1 box2 : AABB.
Variable vel1 : vec3.t.
Hypothesis Hbox1 : finite_AABB box1.
Hypothesis Hbox2 : finite_AABB box2.
Hypothesis Hvel : finite_displacement vel1.

Lemma xEntryTime_not_nan : is_nan (xEntryTime box1 box2 vel1) = false.
Proof.
  destruct Hbox1 as (? & ? & ? & ?), Hbox2 as (? & ? & ? & ?),
    Hvel as (? & ?).
  unfold xEntryTime.
  destruct (eq (vec3.x vel1) zero) eqn:E.
  - destruct (gt _ _); reflexivity.
  - apply SFdiv_not_nan; auto.
    unfold xDistanceEntry.
    destruct (gt _ _); apply SFsub_not_nan; auto.
Qed.

Lemma yEntryTime_not_nan : is_nan (yEntryTime box1 box2 vel1) = false.
Proof.
  destruct Hbox1 as (? & ? & ? & ?), Hbox2 as (? & ? & ? & ?),
    Hvel as (? & ?).
  unfold yEntryTime.
  destruct (eq (vec3.y vel1) zero) eqn:E.
  - destruct (gt _ _); reflexivity.
  - apply SFdiv_not_nan; auto.
    unfold yDistanceEntry.
    destruct (gt _ _); apply SFsub_not_nan; auto.
Qed.

Lemma collision_time_bounds :
  noCollision box1 box2 vel1 = false ->
  le zero (entryTime box1 box2 vel1) = true /\
  le (entryTime box1 box2 vel1) one = true.
Proof.
  pose proof xEntryTime_not_nan as Nx.
  pose proof yEntryTime_not_nan as Ny.
  unfold noCollision, entryTime, F32.max, le, lt, gt.
  set (tx := xEntryTime box1 box2 vel1) in *.
  set (ty := yEntryTime box1 box2 vel1) in *.
  intros H.
  apply orb_false_elim in H as [H Hy].
  apply orb_false_elim in H as [H Hx].
  apply orb_false_elim in H as [_ Hneg].
  apply SFltb_false_leb in Hx; [|reflexivity|exact Nx].
  apply SFltb_false_leb in Hy; [|reflexivity|exact Ny].
  assert (Hz : forall t, is_nan t = false ->
                 SFltb t zero = false -> SFleb zero t = true).
  { intros t Nt Ht. apply SFltb_false_leb; auto. }
  destruct (SFltb tx ty) eqn:Hlt; split; auto.
  - apply Hz; [exact Ny|].
    destruct (SFltb ty zero) eqn:Hty; [|reflexivity].
    rewrite (SFleb_ltb_zero tx ty (SFltb_leb _ _ Hlt) Hty) in Hneg.
    discriminate Hneg.
  - apply Hz; [exact Nx|].
    destruct (SFltb tx zero) eqn:Htx; [|reflexivity].
    assert (Hle : SFleb ty tx = true) by (apply SFltb_false_leb; auto).
    rewrite (SFleb_ltb_zero ty tx Hle Htx), andb_true_r in Hneg.
    discriminate Hneg.
Qed.

End Numbers.

(** C2: when SweptAABB reports a collision between boxes and a displacement
    whose coordinates are finite numbers, the value it returns is
    max(xEntryTime, yEntryTime), lies in [0,1], and is not the sentinel
    2.0. *)
Theorem SweptAABB_collision_time_unit (box1 box2 : AABB) (vel1 : vec3.t)
    (normalx normaly : float) :
  finite_AABB box1 -> finite_AABB box2 -> finite_displacement vel1 ->
  noCollision box1 box2 vel1 = false ->
  let t := fst (fst (SweptAABB box1 box2 vel1 normalx normaly)) in
  t = F32.max (xEntryTime box1 box2 vel1) (yEntryTime box1 box2 vel1)
  /\ le zero t = true /\ le t one = true
  /\ eq t two = false.
Proof.
  intros H1 H2 Hv Hc. cbv zeta.
  rewrite (SweptAABB_collision_time _ _ _ normalx normaly Hc).
  destruct (collision_time_bounds _ _ _ H1 H2 Hv Hc) as [Hlo Hhi].
  repeat split; auto.
  apply collision_not_sentinel, Hc.
Qed.

(** ** A displacement that is zero on an axis *)

Section ZeroDisplacement.

Variables box1 box2 : AABB.
Variable vel1 : vec3.t.

Lemma xTimes_defined :
  Trapping.xTimes box1 box2 vel1 =
  Some (xEntryTime box1 box2 vel1, xExitTime box1 box2 vel1).
Proof.
  unfold Trapping.xTimes, Trapping.div, xEntryTime, xExitTime.
  destruct (eq (vec3.x vel1) zero); reflexivity.
Qed.

Lemma yTimes_defined :
  Trapping.yTimes box1 box2 vel1 =
  Some (yEntryTime box1 box2 vel1, yExitTime box1 box2 vel1).
Proof.
  unfold Trapping.yTimes, Trapping.div, yEntryTime, yExitTime.
  destruct (eq (vec3.y vel1) zero); reflexivity.
Qed.

Lemma xEntryTime_zero_cases :
  eq (vec3.x vel1) zero = true ->
  (xEntryTime box1 box2 vel1 = two \/ xEntryTime box1 box2 vel1 = neg_infinity)
  /\ xExitTime box1 box2 vel1 = infinity.
Proof.
  intros H. unfold xEntryTime, xExitTime. rewrite H.
  destruct (gt _ _); auto.
Qed.

Lemma yEntryTime_zero_cases :
  eq (vec3.y vel1) zero = true ->
  (yEntryTime box1 box2 vel1 = two \/ yEntryTime box1 box2 vel1 = neg_infinity)
  /\ yExitTime box1 box2 vel1 = infinity.
Proof.
  intros H. unfold yEntryTime, yExitTime. rewrite H.
  destruct (gt _ _); auto.
Qed.

End ZeroDisplacement.

(** C4: on an axis whose displacement component is zero no division is
    made: the entry time is 2.0 when max(|entryDistance|, |exitDistance|)
    exceeds the sum of the two widths and minus infinity otherwise, and the
    exit time is plus infinity.  A division is made only by a nonzero
    component, so the computation with trapping division always returns,
    and returns what SweptAABB returns. *)
Theorem SweptAABB_zero_axis_no_division (box1 box2 : AABB) (vel1 : vec3.t)
    (normalx normaly : float) :
  (eq (vec3.x vel1) zero = true ->
   xEntryTime box1 box2 vel1 =
     (if gt (F32.max (fabsf (xDistanceEntry box1 box2 vel1))
                     (fabsf (xDistanceExit box1 box2 vel1)))
            (add (sub (vec2.x (max box1)) (vec2.x (min box1)))
                 (sub (vec2.x (max box2)) (vec2.x (min box2))))
      then two else neg_infinity)
   /\ xExitTime box1 box2 vel1 = infinity)
  /\ (eq (vec3.y vel1) zero = true ->
      yEntryTime box1 box2 vel1 =
        (if gt (F32.max (fabsf (yDistanceEntry box1 box2 vel1))
                        (fabsf (yDistanceExit box1 box2 vel1)))
               (add (sub (vec2.y (max box1)) (vec2.y (min box1)))
                    (sub (vec2.y (max box2)) (vec2.y (min box2))))
         then two else neg_infinity)
      /\ yExitTime box1 box2 vel1 = infinity)
  /\ Trapping.SweptAABB box1 box2 vel1 normalx normaly =
     Some (SweptAABB box1 box2 vel1 normalx normaly).
Proof.
  split; [|split].
  - intros H. unfold xEntryTime, xExitTime. rewrite H. split; reflexivity.
  - intros H. unfold yEntryTime, yExitTime. rewrite H. split; reflexivity.
  - unfold Trapping.SweptAABB. rewrite xTimes_defined, yTimes_defined.
    reflexivity.
Qed.

(** C6: with a displacement whose two components are zero SweptAABB
    returns the sentinel 2.0 (and the normal (0,0)), whatever the boxes. *)
Theorem SweptAABB_zero_displacement (box1 box2 : AABB) (vel1 : vec3.t)
    (normalx normaly : float) :
  eq (vec3.x vel1) zero = true -> eq (vec3.y vel1) zero = true ->
  SweptAABB box1 box2 vel1 normalx normaly = (two, zero, zero).
Proof.
  intros Hx Hy. rewrite SweptAABB_unfold.
  destruct (xEntryTime_zero_cases box1 box2 vel1 Hx) as [Ex Xx].
  destruct (yEntryTime_zero_cases box1 box2 vel1 Hy) as [Ey Xy].
  assert (H : noCollision box1 box2 vel1 = true).
  { unfold noCollision, entryTime, exitTime. rewrite Xx, Xy.
    destruct Ex as [-> | ->], Ey as [-> | ->]; reflexivity. }
  rewrite H. reflexivity.
Qed.

(** C7: in the collision branch with xEntryTime equal to yEntryTime neither
    reference parameter is assigned: the two normals come back as they were
    at the call, and the entry time is returned. *)
Theorem SweptAABB_tie_keeps_normals (box1 box2 : AABB) (vel1 : vec3.t)
    (normalx normaly : float) :
  noCollision box1 box2 vel1 = false ->
  eq (xEntryTime box1 box2 vel1) (yEntryTime box1 box2 vel1) = true ->
  SweptAABB box1 box2 vel1 normalx normaly =
  (entryTime box1 box2 vel1, normalx, normaly).
Proof.
  intros Hc Ht. rewrite SweptAABB_unfold, Hc.
  destruct (SFeqb_not_ltb _ _ Ht) as [Hlt Hgt].
  unfold gt. rewrite Hgt, Hlt. reflexivity.
Qed.

(** ** Multiplying by -1.0f *)

Section Negation.

Lemma shr_fexp_keep (m : positive) (e : Z) :
  fexp prec emax (Zpos (digits2_pos m) + e) = e ->
  shr_fexp prec emax (Zpos m) e loc_Exact =
  (Build_shr_record (Zpos m) false false, e).
Proof.
  intros H. unfold shr_fexp, Zdigits2. rewrite H, Z.sub_diag. reflexivity.
Qed.

Lemma round_finite_times_2p23 (s : bool) (m : positive) (e : Z) :
  bounded prec emax m e = true ->
  binary_round_aux prec emax s (Zpos (8388608 * m)) (e + -23) loc_Exact =
  S754_finite s m e.
Proof.
  unfold bounded, canonical_mantissa. intros H.
  apply andb_prop in H as [Hc He]. apply Z.eqb_eq in Hc.
  unfold binary_round_aux.
  assert (Hs : shr_fexp prec emax (Zpos (8388608 * m)) (e + -23) loc_Exact =
               (Build_shr_record (Zpos m) false false, e)).
  { unfold shr_fexp, Zdigits2. cbn [Pos.mul digits2_pos].
    replace (fexp prec emax (Zpos _ + (e + -23)) - (e + -23)) with 23.
    - unfold shr. cbn [shr_record_of_loc iter_pos shr_1].
      f_equal. lia.
    - rewrite <- Hc at 2. unfold fexp. lia. }
  rewrite Hs. cbn [shr_m loc_of_shr_record round_nearest_even].
  rewrite (shr_fexp_keep m e Hc). cbn [shr_m]. rewrite He. reflexivity.
Qed.

Lemma mul_minus_one_l (a : float) :
  valid a = true -> mul minus_one a = SFopp a.
Proof.
  destruct a as [s|s| |s m e]; intros H; try reflexivity.
  unfold mul, minus_one. cbn [SFmul SFopp xorb].
  rewrite (Z.add_comm (-23) e). apply round_finite_times_2p23, H.
Qed.

Lemma mul_minus_one_r (a : float) :
  valid a = true -> mul a minus_one = SFopp a.
Proof.
  destruct a as [s|s| |s m e]; intros H; try (destruct s; reflexivity).
  - reflexivity.
  - unfold mul, minus_one. cbn [SFmul SFopp].
    rewrite xorb_true_r, (Pos.mul_comm m).
    apply round_finite_times_2p23, H.
Qed.

End Negation.

(** ** The physics tick *)

Section Tick.

Lemma velocity_Update (dt : float) (o : GameObject) :
  velocity (Update dt o) = velocity o.
Proof. reflexivity. Qed.

Lemma velocity_CalculateAABB (o : GameObject) :
  velocity (CalculateAABB o) = velocity o.
Proof. reflexivity. Qed.

Lemma position_update_boundary (o2 : GameObject) :
  position (update_boundary o2) = position o2.
Proof.
  unfold update_boundary.
  destruct (gt (fabsf (vec3.x _)) bound_x), (gt (fabsf (vec3.y _)) bound_y);
    reflexivity.
Qed.

Lemma velocity_update_boundary (o2 : GameObject) :
  velocity (update_boundary o2) =
  vec3.make
    (if gt (fabsf (vec3.x (position o2))) bound_x
     then mul minus_one (vec3.x (velocity o2)) else vec3.x (velocity o2))
    (if gt (fabsf (vec3.y (position o2))) bound_y
     then mul minus_one (vec3.y (velocity o2)) else vec3.y (velocity o2))
    (vec3.z (velocity o2)).
Proof.
  unfold update_boundary, GetPosition, GetVelocity.
  destruct (gt (fabsf (vec3.x _)) bound_x), (gt (fabsf (vec3.y _)) bound_y);
    destruct o2 as [p [vx vy vz] s b]; reflexivity.
Qed.

(** The first body goes through [update] with its velocity untouched. *)
Lemma update_collide_obj1_velocity (normals : float * float) (dt : float)
    (w : World) :
  velocity (obj1 (update_collide normals dt w)) = velocity (obj1 w).
Proof.
  unfold update_collide.
  destruct (SweptAABB _ _ _ _ _) as [[collisionTime normalx] normaly].
  destruct (ge _ zero); reflexivity.
Qed.

Lemma update_obj1_velocity (normals : float * float) (dt : float) (w : World) :
  velocity (obj1 (update normals dt w)) = velocity (obj1 w).
Proof. unfold update. rewrite update_collide_obj1_velocity. reflexivity. Qed.

End Tick.

(** C9: the boundary check comes first in [update], before the boxes are
    recomputed and the swept test runs.  It multiplies the x velocity of the
    moving body by -1.0f, once, if |x| > 0.9f, and independently the y
    velocity if |y| > 0.8f; it changes nothing else, so with neither bound
    exceeded the velocity is as before.  On a binary32 value the
    multiplication by -1.0f is the change of sign. *)
Theorem update_boundary_bounce (normals : float * float) (dt : float)
    (w : World) :
  let p := position (obj2 w) in
  let v := velocity (obj2 w) in
  let o2' := update_boundary (obj2 w) in
  update normals dt w = update_collide normals dt (Build_World (obj1 w) o2')
  /\ vec3.x (velocity o2') =
     (if gt (fabsf (vec3.x p)) bound_x then mul minus_one (vec3.x v)
      else vec3.x v)
  /\ vec3.y (velocity o2') =
     (if gt (fabsf (vec3.y p)) bound_y then mul minus_one (vec3.y v)
      else vec3.y v)
  /\ vec3.z (velocity o2') = vec3.z v
  /\ position o2' = p /\ scale o2' = scale (obj2 w)
  /\ (gt (fabsf (vec3.x p)) bound_x = false ->
      gt (fabsf (vec3.y p)) bound_y = false -> o2' = obj2 w)
  /\ (forall a : float, valid a = true -> mul minus_one a = SFopp a).
Proof.
  cbv zeta. rewrite velocity_update_boundary, position_update_boundary.
  repeat split.
  - unfold update_boundary.
    destruct (gt (fabsf (vec3.x _)) bound_x), (gt (fabsf (vec3.y _)) bound_y);
      reflexivity.
  - intros Hx Hy. unfold update_boundary, GetPosition. rewrite Hx, Hy.
    reflexivity.
  - apply mul_minus_one_l.
Qed.

(** ** Sequences of ticks *)

Section Invariant.

Lemma flip_speed_l (a : float) :
  a = speed \/ a = SFopp speed ->
  mul minus_one a = speed \/ mul minus_one a = SFopp speed.
Proof. intros [-> | ->]; [right | left]; vm_compute; reflexivity. Qed.

Lemma flip_speed_r (a : float) :
  a = speed \/ a = SFopp speed ->
  mul a minus_one = speed \/ mul a minus_one = SFopp speed.
Proof. intros [-> | ->]; [right | left]; vm_compute; reflexivity. Qed.

Lemma moving_update_boundary (o2 : GameObject) :
  moving (velocity o2) -> moving (velocity (update_boundary o2)).
Proof.
  intros [Hx Hy]. rewrite velocity_update_boundary. unfold moving.
  cbn [vec3.x vec3.y]. split.
  - destruct (gt _ bound_x); auto using flip_speed_l.
  - destruct (gt _ bound_y); auto using flip_speed_l.
Qed.

Lemma moving_bounce (v : vec3.t) (normalx normaly : float) :
  moving v -> moving (bounce v normalx normaly).
Proof.
  intros [Hx Hy]. unfold bounce, moving.
  destruct (gt (fabsf normalx) epsilon), (gt (fabsf normaly) epsilon);
    cbn [vec3.x vec3.y]; auto using flip_speed_r.
Qed.

Lemma moving_update_collide (normals : float * float) (dt : float) (w : World) :
  moving (velocity (obj2 w)) ->
  moving (velocity (obj2 (update_collide normals dt w))).
Proof.
  intros H. unfold update_collide.
  destruct (SweptAABB _ _ _ _ _) as [[collisionTime normalx] normaly].
  destruct (ge _ zero); cbn [obj2]; [|exact H].
  rewrite velocity_Update. unfold SetVelocity. cbn [velocity].
  apply moving_bounce, H.
Qed.

Lemma run_invariant (ticks : list tick) (w : World) :
  velocity (obj1 w) = vec3.make zero zero zero ->
  moving (velocity (obj2 w)) ->
  velocity (obj1 (run ticks w)) = vec3.make zero zero zero
  /\ moving (velocity (obj2 (run ticks w))).
Proof.
  revert w. induction ticks as [|t ticks IH]; intros w H1 H2.
  - split; assumption.
  - cbn [run fold_left]. apply IH.
    + rewrite update_obj1_velocity. exact H1.
    + unfold update. apply moving_update_collide. cbn [obj2].
      apply moving_update_boundary, H2.
Qed.

End Invariant.

(** C10: [update] leaves the velocity of obj1 as it finds it, so after
    [init], which sets it to zero, and any sequence of ticks the velocity of
    obj1 is the zero vector, while the x and y velocities of obj2 stay at
    plus or minus the speed: one body is stationary and one is moving. *)
Theorem obj1_stays_stationary (fresh : GameObject) (ticks : list tick) :
  (forall (normals : float * float) (dt : float) (w : World),
      velocity (obj1 (update normals dt w)) = velocity (obj1 w))
  /\ velocity (obj1 (run ticks (init fresh))) = vec3.make zero zero zero
  /\ moving (velocity (obj2 (run ticks (init fresh)))).
Proof.
  split; [exact update_obj1_velocity|].
  apply run_invariant.
  - reflexivity.
  - split; right; reflexivity.
Qed.

(** C3: with collisionTime and the normal as SweptAABB returns them and
    remainingTime = 1.0f - collisionTime: if remainingTime >= 0, [update]
    multiplies by -1 the velocity component of the moving body on each axis
    whose normal exceeds 0.0001f in absolute value, advances both bodies by
    collisionTime * dt with the velocity of before, gives the moving body
    the new velocity and advances both bodies by remainingTime * dt; if
    remainingTime < 0, both bodies advance by dt with their velocities
    unchanged. *)
Theorem update_split_step (normals : float * float) (dt : float) (w : World) :
  let o1 := CalculateAABB (obj1 w) in
  let o2 := CalculateAABB (update_boundary (obj2 w)) in
  let r := SweptAABB (aabb o2) (aabb o1) (vec3.scale (velocity o2) dt)
                     (fst normals) (snd normals) in
  let collisionTime := fst (fst r) in
  let normalx := snd (fst r) in
  let normaly := snd r in
  let remainingTime := sub one collisionTime in
  let v := velocity o2 in
  let v' := vec3.make
              (if gt (fabsf normalx) epsilon
               then mul (vec3.x v) minus_one else vec3.x v)
              (if gt (fabsf normaly) epsilon
               then mul (vec3.y v) minus_one else vec3.y v)
              (vec3.z v) in
  let advance p u s := vec3.plus p (vec3.scale u s) in
  let w' := update normals dt w in
  (ge remainingTime zero = true ->
   velocity (obj2 w') = v'
   /\ position (obj2 w') =
      advance (advance (position o2) v (mul collisionTime dt))
              v' (mul remainingTime dt)
   /\ velocity (obj1 w') = velocity o1
   /\ position (obj1 w') =
      advance (advance (position o1) (velocity o1) (mul collisionTime dt))
              (velocity o1) (mul remainingTime dt))
  /\ (lt remainingTime zero = true ->
      velocity (obj2 w') = v
      /\ position (obj2 w') = advance (position o2) v dt
      /\ velocity (obj1 w') = velocity o1
      /\ position (obj1 w') = advance (position o1) (velocity o1) dt).
Proof.
  cbv zeta. unfold update, update_collide. cbn [obj1 obj2].
  unfold GetAABB, GetVelocity.
  destruct (update_boundary (obj2 w)) as [p [vx vy vz] s b].
  destruct (SweptAABB _ _ _ _ _) as [[collisionTime normalx] normaly].
  cbn [fst snd]. split.
  - intros H. rewrite H. cbn [obj1 obj2]. unfold bounce.
    destruct (gt (fabsf normalx) epsilon), (gt (fabsf normaly) epsilon);
      repeat split.
  - intros H. unfold lt in H. apply SFltb_not_leb in H.
    unfold ge. rewrite H. repeat split.
Qed.

(** ** The scheduler *)

Section Scheduler.

Lemma physics_loop_spec (fuel : nat) :
  forall (stale : nat -> float * float) (acc : F64.double) (w : World)
         (n : nat) (acc' : F64.double) (w' : World),
  physics_loop fuel stale acc w = Some (n, acc', w') <->
  ((n <= fuel)%nat /\ acc' = drain n acc /\ w' = updates n stale w
   /\ (forall i, (i < n)%nat -> F64.ge (drain i acc) physicsStep = true)
   /\ F64.ge (drain n acc) physicsStep = false).
Proof.
  induction fuel as [|fuel IH]; intros stale acc w n acc' w'; cbn [physics_loop].
  - destruct (F64.ge acc physicsStep) eqn:E; split.
    + discriminate.
    + intros (Hn & _ & _ & _ & Hstop).
      assert (n = O) by lia. subst n. cbn [drain] in Hstop. congruence.
    + intros H. injection H as <- <- <-. cbn [drain updates].
      repeat split; auto. intros i Hi. lia.
    + intros (Hn & -> & -> & _ & _).
      assert (n = O) by lia. subst n. reflexivity.
  - destruct (F64.ge acc physicsStep) eqn:E; split.
    + destruct (physics_loop fuel _ _ _) as [[[k a] u]|] eqn:L;
        [|discriminate].
      intros H. injection H as <- <- <-.
      apply IH in L as (Hk & -> & -> & Hall & Hstop).
      cbn [drain updates]. repeat split; auto; [lia|].
      intros [|i] Hi; cbn [drain]; [exact E|]. apply Hall. lia.
    + intros (Hn & -> & -> & Hall & Hstop).
      destruct n as [|k]; [cbn [drain] in Hstop; congruence|].
      cbn [drain updates] in *.
      assert (L : physics_loop fuel (fun n => stale (S n))
                    (F64.sub acc physicsStep)
                    (update (stale O) (F64.to_float physicsStep) w) =
                  Some (k, drain k (F64.sub acc physicsStep),
                        updates k (fun n => stale (S n))
                          (update (stale O) (F64.to_float physicsStep) w))).
      { apply IH. repeat split; auto; [lia|].
        intros i Hi. apply (Hall (S i)). lia. }
      rewrite L. reflexivity.
    + intros H. injection H as <- <- <-. cbn [drain updates].
      repeat split; auto; [lia|]. intros i Hi. lia.
    + intros (Hn & -> & -> & Hall & Hstop).
      destruct n as [|k]; [reflexivity|].
      specialize (Hall O ltac:(lia)). cbn [drain] in Hall. congruence.
Qed.

End Scheduler.



(** ** The constants are the literals of the source *)

Lemma float_literals :
  bound_x = literal 9 1 /\ bound_y = literal 8 1 /\ epsilon = literal 1 4
  /\ speed = literal 90 2
  /\ one = of_Z 1 /\ two = of_Z 2 /\ minus_one = of_Z (-1)
  /\ F32.zero = of_Z 0.
Proof. vm_compute. repeat split. Qed.

Lemma double_literals :
  physicsStep = F64.literal 12 3 /\ quarter = F64.literal 25 2
  /\ F64.one = F64.of_Z 1 /\ delta_0_05 = F64.literal 5 2
  /\ remainder_0_002 = F64.literal 2 3.
Proof. vm_compute. repeat split. Qed.

(** ** Rounding to nearest is monotone

    The subtraction and the division of [spec_float] round the exact
    result to the nearest value of the format, ties to even.  This section
    follows the computation of [binary_round_aux] on a quotient N / D taken
    at an exponent e, and derives that both operations are monotone on
    finite values of the format. *)

Section Rounding.

Variables prec emax : Z.
Hypothesis Hprec : 0 < prec.
Hypothesis Hemax : prec < emax.

Lemma digits2_pos_size (p : positive) : digits2_pos p = Pos.size p.
Proof. induction p; cbn; congruence. Qed.

Lemma Zdigits2_nonneg (m : Z) : 0 <= Zdigits2 m.
Proof. destruct m; cbn; lia. Qed.

Lemma Zdigits2_bounds (m : Z) :
  0 < m -> 2 ^ (Zdigits2 m - 1) <= m < 2 ^ Zdigits2 m.
Proof.
  destruct m as [|p|p]; try lia. intros _. cbn [Zdigits2].
  rewrite digits2_pos_size.
  pose proof (Pos.size_gt p) as Hgt. pose proof (Pos.size_le p) as Hle.
  assert (H2 : Zpos (2 ^ Pos.size p) = 2 ^ Zpos (Pos.size p))
    by (rewrite Pos2Z.inj_pow; reflexivity).
  split.
  - assert (2 * 2 ^ (Zpos (Pos.size p) - 1) = 2 ^ Zpos (Pos.size p)).
    { rewrite <- Z.pow_succ_r by lia. f_equal. lia. }
    lia.
  - lia.
Qed.

(** Digits from bounds. *)
Lemma Zdigits2_le (m : Z) (k : Z) : 0 <= k -> 0 <= m < 2 ^ k -> Zdigits2 m <= k.
Proof.
  intros Hk [H0 H1]. destruct (Z.eq_dec m 0) as [->|Hm]; [cbn; lia|].
  pose proof (Zdigits2_bounds m ltac:(lia)) as [Hlo _].
  destruct (Z_le_gt_dec (Zdigits2 m) k) as [|Hgt]; [assumption|exfalso].
  assert (2 ^ k <= 2 ^ (Zdigits2 m - 1)) by (apply Z.pow_le_mono_r; lia).
  lia.
Qed.

Lemma Zdigits2_ge (m : Z) (k : Z) : 0 <= k -> 2 ^ k <= m -> k + 1 <= Zdigits2 m.
Proof.
  intros Hk H. assert (0 < 2 ^ k) by (apply Z.pow_pos_nonneg; lia).
  pose proof (Zdigits2_bounds m ltac:(lia)) as [_ Hhi].
  destruct (Z_le_gt_dec (k + 1) (Zdigits2 m)) as [|Hgt]; [assumption|exfalso].
  assert (2 ^ Zdigits2 m <= 2 ^ k).
  { apply Z.pow_le_mono_r; try lia. }
  lia.
Qed.

Lemma Zdigits2_mono (a b : Z) : 0 <= a <= b -> Zdigits2 a <= Zdigits2 b.
Proof.
  intros [Ha Hab]. destruct (Z.eq_dec a 0) as [->|Hn].
  - apply Zdigits2_nonneg.
  - pose proof (Zdigits2_bounds a ltac:(lia)) as [Hlo _].
    pose proof (Zdigits2_nonneg a).
    assert (1 <= Zdigits2 a).
    { destruct a; cbn in *; lia. }
    pose proof (Zdigits2_ge b (Zdigits2 a - 1) ltac:(lia) ltac:(lia)). lia.
Qed.

(** ** Located values *)

(** Where the remainder r of a division by D lies: on the quotient, or
    below, on or above the midpoint to the next integer. *)
Definition loc_of (r D : Z) : location :=
  if r =? 0 then loc_Exact else loc_Inexact (2 * r ?= D).

(** The shift record that holds the quotient N / D with its location. *)
Definition rec_of (N D : Z) : shr_record :=
  shr_record_of_loc (N / D) (loc_of (N mod D) D).

Lemma shr_1_rec_of (N D : Z) :
  0 <= N -> 0 < D -> shr_1 (rec_of N D) = rec_of N (2 * D).
Proof.
  intros HN HD. unfold rec_of.
  pose proof (Z.div_mod N D ltac:(lia)) as E.
  pose proof (Z.mod_pos_bound N D HD) as Hr.
  pose proof (Z.div_pos N D HN HD) as Hq.
  set (q := N / D) in *. set (r := N mod D) in *.
  assert (E2 : N = (2 * D) * (q / 2) + (D * (q mod 2) + r)).
  { pose proof (Z.div_mod q 2 ltac:(lia)). nia. }
  pose proof (Z.mod_pos_bound q 2 ltac:(lia)) as Hb.
  assert (Hq2 : N / (2 * D) = q / 2).
  { symmetry. apply (Z.div_unique_pos N (2 * D) (q / 2) (D * (q mod 2) + r)); nia. }
  assert (Hr2 : N mod (2 * D) = D * (q mod 2) + r).
  { symmetry. apply (Z.mod_unique_pos N (2 * D) (q / 2) (D * (q mod 2) + r)); nia. }
  rewrite Hq2, Hr2. clear E E2 Hq2 Hr2. clearbody q r.
  unfold loc_of.
  destruct q as [|[p|p|]|p]; try lia.
  - (* q = 0 *)
    change (0 / 2) with 0. change (0 mod 2) with 0.
    replace (D * 0 + r) with r by lia.
    destruct (r =? 0) eqn:Er; [reflexivity|].
    apply Z.eqb_neq in Er.
    assert (C : (2 * r ?= 2 * D) = Lt) by (apply Z.compare_lt_iff; lia).
    rewrite C. destruct (2 * r ?= D); reflexivity.
  - (* q = p~1 *)
    replace (Zpos p~1 / 2) with (Zpos p)
      by (apply (Z.div_unique_pos _ 2 _ 1); lia).
    replace (Zpos p~1 mod 2) with 1
      by (apply (Z.mod_unique_pos _ 2 (Zpos p) 1); lia).
    replace (D * 1 + r =? 0) with false by (symmetry; apply Z.eqb_neq; lia).
    destruct (r =? 0) eqn:Er.
    + apply Z.eqb_eq in Er. subst r.
      assert (C : (2 * (D * 1 + 0) ?= 2 * D) = Eq) by (apply Z.compare_eq_iff; lia).
      rewrite C. reflexivity.
    + apply Z.eqb_neq in Er.
      assert (C : (2 * (D * 1 + r) ?= 2 * D) = Gt) by (apply Z.compare_gt_iff; lia).
      rewrite C. destruct (2 * r ?= D); reflexivity.
  - (* q = p~0 *)
    replace (Zpos p~0 / 2) with (Zpos p)
      by (apply (Z.div_unique_pos _ 2 _ 0); lia).
    replace (Zpos p~0 mod 2) with 0
      by (apply (Z.mod_unique_pos _ 2 (Zpos p) 0); lia).
    replace (D * 0 + r) with r by lia.
    destruct (r =? 0) eqn:Er; [reflexivity|].
    apply Z.eqb_neq in Er.
    assert (C : (2 * r ?= 2 * D) = Lt) by (apply Z.compare_lt_iff; lia).
    rewrite C. destruct (2 * r ?= D); reflexivity.
  - (* q = 1 *)
    change (1 / 2) with 0. change (1 mod 2) with 1.
    replace (D * 1 + r =? 0) with false by (symmetry; apply Z.eqb_neq; lia).
    destruct (r =? 0) eqn:Er.
    + apply Z.eqb_eq in Er. subst r.
      assert (C : (2 * (D * 1 + 0) ?= 2 * D) = Eq) by (apply Z.compare_eq_iff; lia).
      rewrite C. reflexivity.
    + apply Z.eqb_neq in Er.
      assert (C : (2 * (D * 1 + r) ?= 2 * D) = Gt) by (apply Z.compare_gt_iff; lia).
      rewrite C. destruct (2 * r ?= D); reflexivity.
Qed.

Lemma iter_shr_1_rec_of (n : positive) :
  forall N D, 0 <= N -> 0 < D ->
  iter_pos shr_1 n (rec_of N D) = rec_of N (D * 2 ^ Zpos n).
Proof.
  induction n as [n IH|n IH|]; intros N D HN HD; cbn [iter_pos].
  - assert (Hp : 0 < 2 ^ Zpos n) by (apply Z.pow_pos_nonneg; lia).
    rewrite shr_1_rec_of, IH, IH by nia.
    f_equal.
    assert (Hpow : 2 ^ Zpos n~1 = 2 * (2 ^ Zpos n * 2 ^ Zpos n)).
    { rewrite <- Z.pow_add_r, <- Z.pow_succ_r by lia. f_equal. lia. }
    rewrite Hpow. ring.
  - assert (Hp : 0 < 2 ^ Zpos n) by (apply Z.pow_pos_nonneg; lia).
    rewrite IH, IH by nia.
    f_equal.
    assert (Hpow : 2 ^ Zpos n~0 = 2 ^ Zpos n * 2 ^ Zpos n).
    { rewrite <- Z.pow_add_r by lia. f_equal. lia. }
    rewrite Hpow. ring.
  - rewrite shr_1_rec_of by assumption. f_equal. change (2 ^ 1) with 2. lia.
Qed.

(** ** The rounding function, as an equation *)

(** N / D rounded to the nearest integer, ties to even. *)
Definition rne (N D : Z) : Z :=
  round_nearest_even (N / D) (loc_of (N mod D) D).

(** The number of sign s, mantissa M and exponent E, with overflow to
    infinity, as binary_round_aux ends. *)
Definition build (s : bool) (M E : Z) : spec_float :=
  match M with
  | Z0 => S754_zero s
  | Zpos m => if E <=? emax - prec then S754_finite s m E else S754_infinity s
  | Zneg _ => S754_nan
  end.

(** The exponent to which shr_fexp shifts the mantissa m of exponent e. *)
Definition target (m e : Z) : Z := Z.max e (fexp prec emax (Zdigits2 m + e)).

Lemma shr_m_rec_of (N D : Z) : shr_m (rec_of N D) = N / D.
Proof. unfold rec_of. destruct (loc_of _ _) as [|[ | | ]]; reflexivity. Qed.

Lemma loc_of_rec_of (N D : Z) :
  loc_of_shr_record (rec_of N D) = loc_of (N mod D) D.
Proof. unfold rec_of. destruct (loc_of _ _) as [|[ | | ]]; reflexivity. Qed.

Lemma shr_fexp_rec_of (N D e : Z) :
  0 <= N -> 0 < D ->
  shr_fexp prec emax (N / D) e (loc_of (N mod D) D) =
  (rec_of N (D * 2 ^ (target (N / D) e - e)), target (N / D) e).
Proof.
  intros HN HD. unfold shr_fexp, shr, target.
  fold (rec_of N D).
  destruct (fexp prec emax (Zdigits2 (N / D) + e) - e) as [|p|p] eqn:E.
  - replace (Z.max e _) with e by lia.
    rewrite Z.sub_diag, Z.pow_0_r, Z.mul_1_r. reflexivity.
  - replace (Z.max e _) with (e + Zpos p) by lia.
    rewrite iter_shr_1_rec_of by assumption.
    replace (e + Zpos p - e) with (Zpos p) by lia. reflexivity.
  - replace (Z.max e _) with e by lia.
    rewrite Z.sub_diag, Z.pow_0_r, Z.mul_1_r. reflexivity.
Qed.

Lemma rne_bounds (N D : Z) :
  0 <= N -> 0 < D -> N / D <= rne N D <= N / D + 1.
Proof.
  intros HN HD. unfold rne, round_nearest_even.
  destruct (loc_of _ _) as [|[ | | ]]; try destruct (Z.even _); lia.
Qed.

Lemma rne_nonneg (N D : Z) : 0 <= N -> 0 < D -> 0 <= rne N D.
Proof.
  intros HN HD. pose proof (rne_bounds N D HN HD).
  pose proof (Z.div_pos N D HN HD). lia.
Qed.

Lemma binary_round_aux_eq (s : bool) (N D e : Z) :
  0 <= N -> 0 < D ->
  binary_round_aux prec emax s (N / D) e (loc_of (N mod D) D) =
  let E := target (N / D) e in
  let M := rne N (D * 2 ^ (E - e)) in
  let E' := target M E in
  build s (M / 2 ^ (E' - E)) E'.
Proof.
  intros HN HD. cbv zeta. unfold binary_round_aux.
  rewrite (shr_fexp_rec_of N D e HN HD).
  rewrite shr_m_rec_of, loc_of_rec_of.
  fold (rne N (D * 2 ^ (target (N / D) e - e))).
  set (E := target (N / D) e).
  set (M := rne N (D * 2 ^ (E - e))).
  assert (HM : 0 <= M).
  { apply rne_nonneg; [assumption|].
    apply Z.mul_pos_pos; [assumption|].
    apply Z.pow_pos_nonneg; [lia|]. unfold E, target. lia. }
  pose proof (shr_fexp_rec_of M 1 E HM ltac:(lia)) as H2.
  rewrite Z.div_1_r, Z.mod_1_r in H2. change (loc_of 0 1) with loc_Exact in H2.
  rewrite H2, shr_m_rec_of, Z.mul_1_l. reflexivity.
Qed.

(** ** Rounding to nearest of a quotient *)

Lemma rne_mono (N1 N2 D : Z) :
  0 <= N1 <= N2 -> 0 < D -> rne N1 D <= rne N2 D.
Proof.
  intros [H1 H12] HD.
  pose proof (rne_bounds N1 D H1 HD) as B1.
  pose proof (rne_bounds N2 D ltac:(lia) HD) as B2.
  pose proof (Z.div_le_mono N1 N2 D HD H12) as Hq.
  destruct (Z.eq_dec (N1 / D) (N2 / D)) as [E|NE]; [|lia].
  pose proof (Z.div_mod N1 D ltac:(lia)) as E1.
  pose proof (Z.div_mod N2 D ltac:(lia)) as E2.
  pose proof (Z.mod_pos_bound N1 D HD) as R1.
  pose proof (Z.mod_pos_bound N2 D HD) as R2.
  assert (Hr : N1 mod D <= N2 mod D) by nia.
  unfold rne, round_nearest_even, loc_of. rewrite E.
  set (q := N2 / D). set (r1 := N1 mod D) in *. set (r2 := N2 mod D) in *.
  clearbody q r1 r2.
  destruct (Z.eqb_spec r1 0), (Z.eqb_spec r2 0);
    destruct (Z.compare_spec (2 * r1) D), (Z.compare_spec (2 * r2) D);
    destruct (Z.even q); lia.
Qed.

Lemma rne_scale (N D k : Z) :
  0 <= N -> 0 < D -> 0 < k -> rne (N * k) (D * k) = rne N D.
Proof.
  intros HN HD Hk. unfold rne.
  rewrite Z.div_mul_cancel_r by lia.
  rewrite Z.mul_mod_distr_r by lia.
  f_equal. unfold loc_of.
  pose proof (Z.mod_pos_bound N D HD) as R.
  set (r := N mod D) in *. clearbody r.
  destruct (Z.eqb_spec (r * k) 0), (Z.eqb_spec r 0); try nia; try reflexivity.
  f_equal.
  destruct (Z.compare_spec (2 * (r * k)) (D * k)), (Z.compare_spec (2 * r) D);
    try reflexivity; nia.
Qed.

(** ** Representations that are fine enough *)

(** The exponent e is not above the exponent of the format for N / D. *)
Definition fine (N D e : Z) : Prop :=
  e <= fexp prec emax (Zdigits2 (N / D) + e).

Lemma emin_le_fexp (k : Z) : emin prec emax <= fexp prec emax k.
Proof. unfold fexp. lia. Qed.

Lemma fexp_mono (a b : Z) : a <= b -> fexp prec emax a <= fexp prec emax b.
Proof. unfold fexp. lia. Qed.

Lemma target_fine (N D e : Z) :
  fine N D e -> target (N / D) e = fexp prec emax (Zdigits2 (N / D) + e).
Proof. unfold fine, target. lia. Qed.

Lemma pow_split (a b : Z) : 0 <= a -> 0 <= b -> 2 ^ (a + b) = 2 ^ a * 2 ^ b.
Proof. intros. apply Z.pow_add_r; assumption. Qed.

Lemma pow_pos (a : Z) : 0 <= a -> 0 < 2 ^ a.
Proof. intros. apply Z.pow_pos_nonneg; lia. Qed.

(** The mantissa before rounding has at most [prec] digits. *)
Lemma shifted_lt (N D e : Z) :
  0 <= N -> 0 < D -> fine N D e ->
  let n := target (N / D) e - e in
  0 <= n /\ N / (D * 2 ^ n) < 2 ^ prec.
Proof.
  intros HN HD Hf. cbv zeta. rewrite (target_fine _ _ _ Hf).
  unfold fine in Hf.
  set (m := N / D) in *. set (d := Zdigits2 m) in *.
  set (n := fexp prec emax (d + e) - e).
  assert (Hn : 0 <= n) by (unfold n; lia).
  split; [exact Hn|].
  rewrite <- Z.div_div by (try lia; apply pow_pos; lia). fold m.
  pose proof (Z.div_pos N D HN HD) as Hm. fold m in Hm.
  pose proof (pow_pos n Hn) as Hpn. pose proof (pow_pos prec ltac:(lia)) as Hpp.
  apply Z.div_lt_upper_bound; [lia|].
  destruct (Z.eq_dec m 0) as [E0|E0]; [nia|].
  pose proof (Zdigits2_bounds m ltac:(lia)) as [_ Hhi]. fold d in Hhi.
  assert (Hd : d <= n + prec) by (unfold n, fexp; lia).
  assert (2 ^ d <= 2 ^ (n + prec)) by (apply Z.pow_le_mono_r; lia).
  rewrite pow_split in H by lia. lia.
Qed.

(** Above the least exponent it has exactly [prec] digits. *)
Lemma shifted_ge (N D e : Z) :
  0 <= N -> 0 < D -> fine N D e ->
  emin prec emax < target (N / D) e ->
  2 ^ (prec - 1) <= N / (D * 2 ^ (target (N / D) e - e)).
Proof.
  intros HN HD Hf. rewrite (target_fine _ _ _ Hf). unfold fine in Hf.
  set (m := N / D) in *. set (d := Zdigits2 m) in *. intros Hgt.
  assert (Ef : fexp prec emax (d + e) = d + e - prec) by (unfold fexp in *; lia).
  rewrite Ef in *.
  replace (d + e - prec - e) with (d - prec) by lia.
  assert (Hn : 0 <= d - prec) by lia.
  rewrite <- Z.div_div by (try lia; apply pow_pos; lia). fold m.
  assert (Hm : 0 < m).
  { pose proof (Z.div_pos N D HN HD) as Hm. fold m in Hm.
    destruct (Z.eq_dec m 0) as [E0|E0]; [|lia].
    unfold d in Hn. rewrite E0 in Hn. cbn in Hn. lia. }
  pose proof (Zdigits2_bounds m Hm) as [Hlo _]. fold d in Hlo.
  pose proof (pow_pos (d - prec) Hn). pose proof (pow_pos (prec - 1) ltac:(lia)).
  apply Z.div_le_lower_bound; [lia|].
  replace (d - 1) with ((d - prec) + (prec - 1)) in Hlo by lia.
  rewrite pow_split in Hlo by lia. lia.
Qed.

(** The second shift is the carry of the rounding. *)
Lemma carry (M E : Z) :
  0 <= M <= 2 ^ prec -> emin prec emax <= E ->
  (M < 2 ^ prec -> target M E = E /\ M / 2 ^ (target M E - E) = M)
  /\ (M = 2 ^ prec ->
      target M E = E + 1 /\ M / 2 ^ (target M E - E) = 2 ^ (prec - 1)).
Proof.
  intros [H0 H1] HE. split.
  - intros Hlt.
    pose proof (Zdigits2_le M prec ltac:(lia) ltac:(lia)) as Hd.
    assert (Et : target M E = E) by (unfold target, fexp; lia).
    rewrite Et, Z.sub_diag, Z.pow_0_r, Z.div_1_r. auto.
  - intros ->.
    pose proof (Zdigits2_ge (2 ^ prec) prec ltac:(lia) ltac:(lia)) as Hge.
    assert (Hle : Zdigits2 (2 ^ prec) <= prec + 1).
    { apply Zdigits2_le; [lia|]. split; [apply Z.pow_nonneg; lia|].
      apply Z.pow_lt_mono_r; lia. }
    assert (Et : target (2 ^ prec) E = E + 1) by (unfold target, fexp; lia).
    rewrite Et. split; [reflexivity|].
    replace (E + 1 - E) with 1 by lia. change (2 ^ 1) with 2.
    replace prec with (1 + (prec - 1)) at 1 by lia.
    rewrite pow_split by lia. change (2 ^ 1) with 2.
    rewrite Z.mul_comm, Z.div_mul by lia. reflexivity.
Qed.

(** ** The rounded mantissa and exponent *)

(** Mantissa and exponent that binary_round_aux gives to (N / D) * 2^e. *)
Definition rnd_pair (N D e : Z) : Z * Z :=
  let E := target (N / D) e in
  let M := rne N (D * 2 ^ (E - e)) in
  (M / 2 ^ (target M E - E), target M E).

Lemma binary_round_aux_pair (s : bool) (N D e : Z) :
  0 <= N -> 0 < D ->
  binary_round_aux prec emax s (N / D) e (loc_of (N mod D) D) =
  build s (fst (rnd_pair N D e)) (snd (rnd_pair N D e)).
Proof. intros HN HD. rewrite binary_round_aux_eq by assumption. reflexivity. Qed.

Lemma rnd_pair_fine (N D e : Z) :
  0 <= N -> 0 < D -> fine N D e ->
  let E := fexp prec emax (Zdigits2 (N / D) + e) in
  let M := rne N (D * 2 ^ (E - e)) in
  0 <= M <= 2 ^ prec
  /\ (emin prec emax < E -> 2 ^ (prec - 1) <= M)
  /\ (M < 2 ^ prec -> rnd_pair N D e = (M, E))
  /\ (M = 2 ^ prec -> rnd_pair N D e = (2 ^ (prec - 1), E + 1)).
Proof.
  intros HN HD Hf. cbv zeta.
  pose proof (shifted_lt N D e HN HD Hf) as [Hn Hlt]. cbv zeta in Hn, Hlt.
  pose proof (shifted_ge N D e HN HD Hf) as Hge.
  unfold rnd_pair.
  rewrite (target_fine _ _ _ Hf) in *.
  set (E := fexp prec emax (Zdigits2 (N / D) + e)) in *.
  assert (HD' : 0 < D * 2 ^ (E - e)).
  { apply Z.mul_pos_pos; [assumption|apply pow_pos; assumption]. }
  pose proof (rne_bounds N _ HN HD') as HB.
  pose proof (Z.div_pos N _ HN HD') as Hq.
  set (M := rne N (D * 2 ^ (E - e))) in *.
  assert (HM : 0 <= M <= 2 ^ prec) by lia.
  pose proof (carry M E HM (emin_le_fexp _)) as [C1 C2].
  split; [exact HM|]. split; [intros H; specialize (Hge H); lia|].
  split.
  - intros H. destruct (C1 H) as [-> ->]. reflexivity.
  - intros H. destruct (C2 H) as [-> ->]. reflexivity.
Qed.

(** The order of two rounded non-negative numbers, read on mantissa and
    exponent. *)
Definition pair_le (a b : Z * Z) : Prop :=
  fst a = 0
  \/ (0 < fst a /\ 0 < fst b
      /\ (snd a < snd b \/ (snd a = snd b /\ fst a <= fst b))).

Lemma build_le (M1 E1 M2 E2 : Z) :
  0 <= M2 -> pair_le (M1, E1) (M2, E2) ->
  SFleb (build false M1 E1) (build false M2 E2) = true
  /\ SFleb (build true M2 E2) (build true M1 E1) = true.
Proof.
  intros H2 [H|(H1 & H2' & H)]; cbn [fst snd] in *.
  - subst M1. cbn [build].
    destruct M2 as [|m2|m2]; [split; reflexivity| |lia].
    cbn [build]. destruct (E2 <=? emax - prec); split; reflexivity.
  - destruct M1 as [|m1|m1]; try lia. destruct M2 as [|m2|m2]; try lia.
    cbn [build].
    destruct (Z.leb_spec E1 (emax - prec)), (Z.leb_spec E2 (emax - prec));
      try (split; reflexivity); try lia.
    unfold SFleb. cbn [SFcompare].
    destruct H as [H|[-> H]].
    + apply Z.compare_lt_iff in H. rewrite H.
      rewrite Z.compare_antisym, H. split; reflexivity.
    + rewrite Z.compare_refl.
      change (Pos.compare_cont Eq m1 m2) with (Pos.compare m1 m2).
      change (Pos.compare_cont Eq m2 m1) with (Pos.compare m2 m1).
      rewrite (Pos.compare_antisym m1 m2).
      assert (Hc : (m1 ?= m2)%positive <> Gt).
      { intros C. apply Pos.compare_gt_iff in C. lia. }
      destruct (m1 ?= m2)%positive; try congruence; split; reflexivity.
Qed.

Theorem round_mono_same (D e N1 N2 : Z) :
  0 < D -> 0 <= N1 <= N2 -> fine N1 D e -> fine N2 D e ->
  pair_le (rnd_pair N1 D e) (rnd_pair N2 D e)
  /\ 0 <= fst (rnd_pair N2 D e).
Proof.
  intros HD [H1 H12] F1 F2.
  assert (H2 : 0 <= N2) by lia.
  pose proof (rnd_pair_fine N1 D e H1 HD F1) as (B1 & G1 & P1 & Q1).
  pose proof (rnd_pair_fine N2 D e H2 HD F2) as (B2 & G2 & P2 & Q2).
  cbv zeta in *.
  pose proof (Z.div_le_mono N1 N2 D HD H12) as Hm.
  pose proof (Z.div_pos N1 D H1 HD) as Hm0.
  pose proof (Zdigits2_mono _ _ (conj Hm0 Hm)) as Hd.
  pose proof (fexp_mono (Zdigits2 (N1 / D) + e) (Zdigits2 (N2 / D) + e)
                ltac:(lia)) as HE.
  pose proof (emin_le_fexp (Zdigits2 (N1 / D) + e)) as HE1.
  unfold fine in F1, F2.
  set (E1 := fexp prec emax (Zdigits2 (N1 / D) + e)) in *.
  set (E2 := fexp prec emax (Zdigits2 (N2 / D) + e)) in *.
  pose proof (pow_pos (prec - 1) ltac:(lia)) as Hpp.
  assert (Hp2 : 2 ^ prec = 2 * 2 ^ (prec - 1)).
  { rewrite <- Z.pow_succ_r by lia. f_equal. lia. }
  assert (HM : E1 = E2 ->
          rne N1 (D * 2 ^ (E1 - e)) <= rne N2 (D * 2 ^ (E2 - e))).
  { intros EE. rewrite EE. apply rne_mono; [lia|].
    apply Z.mul_pos_pos; [assumption|apply pow_pos; lia]. }
  set (M1 := rne N1 (D * 2 ^ (E1 - e))) in *.
  set (M2 := rne N2 (D * 2 ^ (E2 - e))) in *.
  clearbody M1 M2 E1 E2.
  assert (R1 : rnd_pair N1 D e = (M1, E1) /\ M1 < 2 ^ prec
               \/ rnd_pair N1 D e = (2 ^ (prec - 1), E1 + 1) /\ M1 = 2 ^ prec).
  { destruct (Z.eq_dec M1 (2 ^ prec)); [right|left]; split; auto; try lia.
    apply P1. lia. }
  assert (R2 : rnd_pair N2 D e = (M2, E2) /\ M2 < 2 ^ prec
               \/ rnd_pair N2 D e = (2 ^ (prec - 1), E2 + 1) /\ M2 = 2 ^ prec).
  { destruct (Z.eq_dec M2 (2 ^ prec)); [right|left]; split; auto; try lia.
    apply P2. lia. }
  unfold pair_le.
  destruct R1 as [[-> L1]|[-> L1]], R2 as [[-> L2]|[-> L2]]; cbn [fst snd];
    (split; [|lia]);
    destruct (Z.eq_dec M1 0) as [Z1|Z1]; try (left; assumption); try lia;
    right; destruct (Z.eq_dec E1 E2) as [EE|EE];
      try specialize (HM EE); try specialize (G2 ltac:(lia)); lia.
Qed.

(** ** A finer representation of the same value *)

Lemma quotient_scaled (N D j : Z) :
  0 <= N -> 0 < D -> 0 <= j ->
  N / D * 2 ^ j <= N * 2 ^ j / D < (N / D + 1) * 2 ^ j.
Proof.
  intros HN HD Hj. pose proof (pow_pos j Hj) as Hp.
  pose proof (Z.div_mod N D ltac:(lia)) as E.
  pose proof (Z.mod_pos_bound N D HD) as R.
  split.
  - apply Z.div_le_lower_bound; [assumption|]. nia.
  - apply Z.div_lt_upper_bound; [assumption|]. nia.
Qed.

Lemma fexp_refine (N D e j : Z) :
  0 <= N -> 0 < D -> 0 <= j -> fine N D e ->
  fexp prec emax (Zdigits2 (N * 2 ^ j / D) + (e - j)) =
  fexp prec emax (Zdigits2 (N / D) + e).
Proof.
  intros HN HD Hj Hf. unfold fine in Hf.
  pose proof (quotient_scaled N D j HN HD Hj) as [Hlo Hhi].
  pose proof (Z.div_pos N D HN HD) as Hm.
  pose proof (pow_pos j Hj) as Hp.
  set (m := N / D) in *. set (m' := N * 2 ^ j / D) in *.
  destruct (Z.eq_dec m 0) as [E0|E0].
  - rewrite E0 in *. cbn [Zdigits2] in *.
    assert (Hd : Zdigits2 m' <= j) by (apply Zdigits2_le; lia).
    pose proof (Zdigits2_nonneg m').
    unfold fexp in *. lia.
  - pose proof (Zdigits2_bounds m ltac:(lia)) as [Dlo Dhi].
    set (d := Zdigits2 m) in *.
    assert (1 <= d).
    { unfold d. destruct m; cbn in *; lia. }
    assert (H1 : d + j <= Zdigits2 m').
    { pose proof (Zdigits2_ge m' (d - 1 + j) ltac:(lia)) as G.
      rewrite pow_split in G by lia. specialize (G ltac:(nia)). lia. }
    assert (H2 : Zdigits2 m' <= d + j).
    { apply Zdigits2_le; [lia|]. split; [nia|].
      rewrite pow_split by lia. nia. }
    f_equal. lia.
Qed.

Lemma rnd_pair_refine (N D e j : Z) :
  0 <= N -> 0 < D -> 0 <= j -> fine N D e ->
  fine (N * 2 ^ j) D (e - j)
  /\ rnd_pair (N * 2 ^ j) D (e - j) = rnd_pair N D e.
Proof.
  intros HN HD Hj Hf.
  pose proof (fexp_refine N D e j HN HD Hj Hf) as Ef.
  assert (Hf' : fine (N * 2 ^ j) D (e - j)).
  { unfold fine in *. rewrite Ef. lia. }
  split; [exact Hf'|].
  unfold rnd_pair.
  rewrite (target_fine _ _ _ Hf), (target_fine _ _ _ Hf'), Ef.
  set (E := fexp prec emax (Zdigits2 (N / D) + e)).
  assert (HE : 0 <= E - e) by (unfold fine in Hf; unfold E; lia).
  replace (E - (e - j)) with ((E - e) + j) by lia.
  rewrite pow_split by lia.
  rewrite Z.mul_assoc.
  rewrite rne_scale; [reflexivity|assumption| |apply pow_pos; assumption].
  apply Z.mul_pos_pos; [assumption|apply pow_pos; assumption].
Qed.

(** ** The results are values of the format *)

Lemma rnd_pair_bounded (N D e : Z) :
  0 <= N -> 0 < D -> fine N D e ->
  0 <= fst (rnd_pair N D e)
  /\ fexp prec emax (Zdigits2 (fst (rnd_pair N D e)) + snd (rnd_pair N D e))
     = snd (rnd_pair N D e)
  /\ emin prec emax <= snd (rnd_pair N D e).
Proof.
  intros HN HD Hf.
  pose proof (rnd_pair_fine N D e HN HD Hf) as (B & G & P & Q).
  cbv zeta in *.
  pose proof (emin_le_fexp (Zdigits2 (N / D) + e)) as HE.
  set (E := fexp prec emax (Zdigits2 (N / D) + e)) in *.
  set (M := rne N (D * 2 ^ (E - e))) in *. clearbody M E.
  pose proof (pow_pos (prec - 1) ltac:(lia)) as Hpp.
  assert (Hdp : Zdigits2 (2 ^ (prec - 1)) = prec).
  { pose proof (Zdigits2_ge (2 ^ (prec - 1)) (prec - 1) ltac:(lia) ltac:(lia)).
    pose proof (Zdigits2_le (2 ^ (prec - 1)) prec ltac:(lia)) as L.
    assert (2 ^ (prec - 1) < 2 ^ prec) by (apply Z.pow_lt_mono_r; lia).
    specialize (L ltac:(lia)). lia. }
  destruct (Z.eq_dec M (2 ^ prec)) as [EM|NM].
  - rewrite (Q EM). cbn [fst snd]. rewrite Hdp.
    split; [lia|]. split; [unfold fexp in *; lia|lia].
  - rewrite (P ltac:(lia)). cbn [fst snd]. split; [lia|]. split; [|lia].
    pose proof (Zdigits2_le M prec ltac:(lia) ltac:(lia)) as Hd.
    destruct (Z.eq_dec E (emin prec emax)) as [Ee|Ne].
    + unfold fexp. lia.
    + specialize (G ltac:(lia)).
      pose proof (Zdigits2_ge M (prec - 1) ltac:(lia) G).
      unfold fexp in *. lia.
Qed.

Lemma build_valid (s : bool) (M E : Z) :
  fexp prec emax (Zdigits2 M + E) = E ->
  valid_binary prec emax (build s M E) = true.
Proof.
  intros H. unfold build. destruct M as [|m|m]; try reflexivity.
  destruct (Z.leb_spec E (emax - prec)); [|reflexivity].
  cbn [valid_binary]. unfold bounded, canonical_mantissa.
  cbn [Zdigits2] in H. rewrite H, Z.eqb_refl. cbn [andb].
  apply Z.leb_le. assumption.
Qed.

(** ** The value of a number of the format, in units of 2^emin *)

Definition units (a : spec_float) : Z :=
  match a with
  | S754_finite s m e => cond_Zopp s (Zpos m * 2 ^ (e - emin prec emax))
  | _ => 0
  end.

Lemma bounded_facts (m : positive) (e : Z) :
  bounded prec emax m e = true ->
  emin prec emax <= e <= emax - prec
  /\ fexp prec emax (Zdigits2 (Zpos m) + e) = e
  /\ Zpos m < 2 ^ prec
  /\ (emin prec emax < e -> 2 ^ (prec - 1) <= Zpos m).
Proof.
  unfold bounded, canonical_mantissa. intros H.
  apply andb_prop in H as [Hc He].
  apply Z.eqb_eq in Hc. apply Z.leb_le in He.
  change (Zpos (digits2_pos m)) with (Zdigits2 (Zpos m)) in Hc.
  pose proof (Zdigits2_bounds (Zpos m) ltac:(lia)) as [Dlo Dhi].
  set (d := Zdigits2 (Zpos m)) in *.
  assert (Hd : d <= prec) by (unfold fexp in Hc; lia).
  split; [unfold fexp in Hc; lia|]. split; [exact Hc|]. split.
  - assert (2 ^ d <= 2 ^ prec) by (apply Z.pow_le_mono_r; lia). lia.
  - intros Hgt. assert (d = prec) by (unfold fexp in Hc; lia).
    subst d. rewrite H in Dlo. exact Dlo.
Qed.

Lemma canonical_lt (m1 m2 : positive) (e1 e2 : Z) :
  bounded prec emax m1 e1 = true -> bounded prec emax m2 e2 = true ->
  e1 < e2 ->
  Zpos m1 * 2 ^ (e1 - emin prec emax) < Zpos m2 * 2 ^ (e2 - emin prec emax).
Proof.
  intros B1 B2 Hlt.
  destruct (bounded_facts _ _ B1) as (R1 & _ & U1 & _).
  destruct (bounded_facts _ _ B2) as (R2 & _ & _ & L2).
  specialize (L2 ltac:(lia)).
  set (k1 := e1 - emin prec emax). set (k2 := e2 - emin prec emax).
  assert (0 <= k1 < k2) by (unfold k1, k2; lia).
  pose proof (pow_pos k1 ltac:(lia)). pose proof (pow_pos k2 ltac:(lia)).
  assert (2 * 2 ^ k1 <= 2 ^ k2).
  { replace k2 with ((k2 - k1 - 1) + (1 + k1)) by lia.
    rewrite pow_split, pow_split by lia. change (2 ^ 1) with 2.
    pose proof (pow_pos (k2 - k1 - 1) ltac:(lia)). nia. }
  assert (2 ^ prec = 2 * 2 ^ (prec - 1)).
  { rewrite <- Z.pow_succ_r by lia. f_equal. lia. }
  nia.
Qed.

Lemma SFleb_units (a b : spec_float) :
  valid_binary prec emax a = true -> valid_binary prec emax b = true ->
  is_finite a = true -> is_finite b = true ->
  SFleb a b = true -> units a <= units b.
Proof.
  destruct a as [sa|sa| |sa ma ea], b as [sb|sb| |sb mb eb];
    try discriminate; cbn [valid_binary is_finite units]; intros Va Vb _ _;
    unfold SFleb; cbn [SFcompare].
  - assert (0 < Zpos mb * 2 ^ (eb - emin prec emax)).
    { destruct (bounded_facts _ _ Vb) as (R & _).
      pose proof (pow_pos (eb - emin prec emax) ltac:(lia)). nia. }
    destruct sb; [discriminate|]. cbn [cond_Zopp]. intros _. lia.
  - assert (0 < Zpos ma * 2 ^ (ea - emin prec emax)).
    { destruct (bounded_facts _ _ Va) as (R & _).
      pose proof (pow_pos (ea - emin prec emax) ltac:(lia)). nia. }
    destruct sa; [|discriminate]. cbn [cond_Zopp]. intros _. lia.
  - assert (Ha : 0 < Zpos ma * 2 ^ (ea - emin prec emax)).
    { destruct (bounded_facts _ _ Va) as (R & _).
      pose proof (pow_pos (ea - emin prec emax) ltac:(lia)). nia. }
    assert (Hb : 0 < Zpos mb * 2 ^ (eb - emin prec emax)).
    { destruct (bounded_facts _ _ Vb) as (R & _).
      pose proof (pow_pos (eb - emin prec emax) ltac:(lia)). nia. }
    change (Pos.compare_cont Eq ma mb) with (Pos.compare ma mb).
    destruct sa, sb; cbn [cond_Zopp]; try discriminate; try lia.
    + destruct (Z.compare_spec ea eb) as [E|L|G]; try discriminate.
      * subst eb. destruct (Pos.compare_spec ma mb); try discriminate; intros _.
        -- subst. lia.
        -- pose proof (pow_pos (ea - emin prec emax)
                         ltac:(destruct (bounded_facts _ _ Va); lia)). nia.
      * intros _. pose proof (canonical_lt _ _ _ _ Vb Va G). lia.
    + destruct (Z.compare_spec ea eb) as [E|L|G]; try discriminate.
      * subst eb. destruct (Pos.compare_spec ma mb); try discriminate; intros _.
        -- subst. lia.
        -- pose proof (pow_pos (ea - emin prec emax)
                         ltac:(destruct (bounded_facts _ _ Va); lia)). nia.
      * intros _. pose proof (canonical_lt _ _ _ _ Va Vb L). lia.
Qed.

(** ** Rounding an integer number of units *)

Lemma iter_xO (m d : positive) :
  Zpos (Pos.iter xO m d) = Zpos m * 2 ^ Zpos d.
Proof.
  induction d as [|d IH] using Pos.peano_ind.
  - cbn [Pos.iter]. rewrite Pos2Z.inj_xO. change (2 ^ 1) with 2. ring.
  - rewrite Pos.iter_succ, Pos2Z.inj_xO, IH, Pos2Z.inj_succ.
    rewrite Z.pow_succ_r by lia. ring.
Qed.

Lemma Zdigits2_shift (m k : Z) :
  0 < m -> 0 <= k -> Zdigits2 (m * 2 ^ k) = Zdigits2 m + k.
Proof.
  intros Hm Hk. pose proof (Zdigits2_bounds m Hm) as [Dlo Dhi].
  pose proof (pow_pos k Hk) as Hp.
  assert (1 <= Zdigits2 m) by (destruct m; cbn in *; lia).
  apply Z.le_antisymm.
  - apply Zdigits2_le; [lia|]. rewrite pow_split by lia. nia.
  - pose proof (Zdigits2_ge (m * 2 ^ k) (Zdigits2 m - 1 + k) ltac:(lia)) as G.
    rewrite pow_split in G by lia. specialize (G ltac:(nia)). lia.
Qed.

Lemma rnd_pair_int (N : Z) (e : Z) : N / 1 = N /\ loc_of (N mod 1) 1 = loc_Exact.
Proof. rewrite Z.div_1_r, Z.mod_1_r. split; reflexivity. Qed.

(** [binary_round] on a mantissa and an exponent not below emin is the
    rounding of the number of units. *)
Lemma binary_round_units (s : bool) (m : positive) (e : Z) :
  emin prec emax <= e ->
  binary_round prec emax s m e =
  build s (fst (rnd_pair (Zpos m * 2 ^ (e - emin prec emax)) 1 (emin prec emax)))
          (snd (rnd_pair (Zpos m * 2 ^ (e - emin prec emax)) 1 (emin prec emax))).
Proof.
  intros He. unfold binary_round.
  change (Zpos (digits2_pos m)) with (Zdigits2 (Zpos m)).
  set (t := fexp prec emax (Zdigits2 (Zpos m) + e)).
  pose proof (emin_le_fexp (Zdigits2 (Zpos m) + e)) as Ht. fold t in Ht.
  assert (Hs : exists mz ez, shl_align m e t = (mz, ez)
             /\ emin prec emax <= ez <= e /\ ez <= t
             /\ Zpos mz = Zpos m * 2 ^ (e - ez)).
  { unfold shl_align. destruct (t - e) as [|d|d] eqn:Ed.
    - exists m, e. rewrite Z.sub_diag. repeat split; lia.
    - exists m, e. rewrite Z.sub_diag. repeat split; lia.
    - exists (Pos.iter xO m d), t. rewrite iter_xO.
      repeat split; try lia. f_equal. f_equal. lia. }
  destruct Hs as (mz & ez & -> & Hez & Hezt & Hmz).
  pose proof (binary_round_aux_pair s (Zpos mz) 1 ez ltac:(lia) ltac:(lia)) as P.
  rewrite Z.div_1_r, Z.mod_1_r in P. change (loc_of 0 1) with loc_Exact in P.
  rewrite P.
  assert (Hf : fine (Zpos mz) 1 ez).
  { unfold fine. rewrite Z.div_1_r, Hmz, Zdigits2_shift by lia.
    replace (Zdigits2 (Zpos m) + (e - ez) + ez) with (Zdigits2 (Zpos m) + e)
      by lia. exact Hezt. }
  destruct (rnd_pair_refine (Zpos mz) 1 ez (ez - emin prec emax)
              ltac:(lia) ltac:(lia) ltac:(lia) Hf) as [_ R].
  replace (ez - (ez - emin prec emax)) with (emin prec emax) in R by lia.
  rewrite <- R. rewrite Hmz, <- Z.mul_assoc, <- pow_split by lia.
  replace (e - ez + (ez - emin prec emax)) with (e - emin prec emax) by lia.
  reflexivity.
Qed.

(** Rounding a value of the format gives it back. *)
Lemma round_id (s : bool) (m : positive) (e : Z) :
  bounded prec emax m e = true ->
  build s (fst (rnd_pair (Zpos m * 2 ^ (e - emin prec emax)) 1 (emin prec emax)))
          (snd (rnd_pair (Zpos m * 2 ^ (e - emin prec emax)) 1 (emin prec emax)))
  = S754_finite s m e.
Proof.
  intros B. destruct (bounded_facts _ _ B) as (R & C & U & _).
  assert (Hf : fine (Zpos m) 1 e).
  { unfold fine. rewrite Z.div_1_r, C. lia. }
  destruct (rnd_pair_refine (Zpos m) 1 e (e - emin prec emax)
              ltac:(lia) ltac:(lia) ltac:(lia) Hf) as [_ Rf].
  replace (e - (e - emin prec emax)) with (emin prec emax) in Rf by lia.
  rewrite Rf.
  pose proof (rnd_pair_fine (Zpos m) 1 e ltac:(lia) ltac:(lia) Hf)
    as (_ & _ & P & _).
  cbv zeta in P. rewrite Z.div_1_r, C, Z.sub_diag in P.
  change (1 * 2 ^ 0) with 1 in P.
  assert (Er : rne (Zpos m) 1 = Zpos m).
  { unfold rne. rewrite Z.div_1_r, Z.mod_1_r. reflexivity. }
  rewrite Er in P. rewrite (P U). cbn [fst snd build].
  destruct (Z.leb_spec e (emax - prec)); [reflexivity|lia].
Qed.

(** The number of the format nearest to v * 2^emin. *)
Definition round_units (v : Z) : spec_float :=
  match v with
  | Z0 => S754_zero false
  | Zpos _ =>
      build false (fst (rnd_pair v 1 (emin prec emax)))
                  (snd (rnd_pair v 1 (emin prec emax)))
  | Zneg _ =>
      build true (fst (rnd_pair (- v) 1 (emin prec emax)))
                 (snd (rnd_pair (- v) 1 (emin prec emax)))
  end.

Lemma fine_units (N : Z) : fine N 1 (emin prec emax).
Proof. unfold fine. apply emin_le_fexp. Qed.

Lemma build_nonneg_cases (s : bool) (M E : Z) :
  0 <= M ->
  build s M E = S754_zero s \/ build s M E = S754_infinity s
  \/ exists m, build s M E = S754_finite s m E.
Proof.
  intros H. unfold build. destruct M as [|m|m]; [auto| |lia].
  destruct (E <=? emax - prec); eauto.
Qed.

Lemma round_units_mono (v1 v2 : Z) : v1 <= v2 -> SFleb (round_units v1) (round_units v2) = true.
Proof.
  intros H.
  assert (Hpos : forall v, 0 < v ->
            round_units v = build false (fst (rnd_pair v 1 (emin prec emax)))
                               (snd (rnd_pair v 1 (emin prec emax)))).
  { intros v Hv. destruct v; try lia. reflexivity. }
  assert (Hneg : forall v, v < 0 ->
            round_units v = build true (fst (rnd_pair (- v) 1 (emin prec emax)))
                              (snd (rnd_pair (- v) 1 (emin prec emax)))).
  { intros v Hv. destruct v; try lia. reflexivity. }
  assert (Hnn : forall v, 0 <= v -> 0 <= fst (rnd_pair v 1 (emin prec emax))).
  { intros v Hv.
    apply (rnd_pair_bounded v 1 _ Hv ltac:(lia) (fine_units v)). }
  destruct (Z.lt_trichotomy v1 0) as [N1|[Z1|P1]],
           (Z.lt_trichotomy v2 0) as [N2|[Z2|P2]]; try lia.
  - rewrite (Hneg v1 N1), (Hneg v2 N2).
    destruct (round_mono_same 1 (emin prec emax) (- v2) (- v1) ltac:(lia)
                ltac:(lia) (fine_units _) (fine_units _)) as [L Hn].
    destruct (rnd_pair (- v2) 1 _) as [M2 E2], (rnd_pair (- v1) 1 _) as [M1 E1].
    cbn [fst snd] in *. apply (build_le M2 E2 M1 E1 Hn L).
  - rewrite (Hneg v1 N1). subst v2. cbn [round_units].
    destruct (build_nonneg_cases true _ (snd (rnd_pair (- v1) 1 (emin prec emax)))
                (Hnn (- v1) ltac:(lia))) as [-> | [-> | [m ->]]]; reflexivity.
  - rewrite (Hneg v1 N1), (Hpos v2 P2).
    destruct (build_nonneg_cases true _ (snd (rnd_pair (- v1) 1 (emin prec emax)))
                (Hnn (- v1) ltac:(lia))) as [-> | [-> | [m ->]]];
    destruct (build_nonneg_cases false _ (snd (rnd_pair v2 1 (emin prec emax)))
                (Hnn v2 ltac:(lia))) as [-> | [-> | [m' ->]]]; reflexivity.
  - subst. reflexivity.
  - rewrite (Hpos v2 P2). subst v1. cbn [round_units].
    destruct (build_nonneg_cases false _ (snd (rnd_pair v2 1 (emin prec emax)))
                (Hnn v2 ltac:(lia))) as [-> | [-> | [m' ->]]]; reflexivity.
  - rewrite (Hpos v1 P1), (Hpos v2 P2).
    destruct (round_mono_same 1 (emin prec emax) v1 v2 ltac:(lia)
                ltac:(lia) (fine_units _) (fine_units _)) as [L Hn].
    destruct (rnd_pair v1 1 _) as [M1 E1], (rnd_pair v2 1 _) as [M2 E2].
    cbn [fst snd] in *. apply (build_le M1 E1 M2 E2 Hn L).
Qed.

Lemma round_units_pos (v : Z) :
  0 < v ->
  round_units v = build false (fst (rnd_pair v 1 (emin prec emax)))
                     (snd (rnd_pair v 1 (emin prec emax))).
Proof. intros Hv. destruct v; try lia. reflexivity. Qed.

Lemma round_units_neg (v : Z) :
  v < 0 ->
  round_units v = build true (fst (rnd_pair (- v) 1 (emin prec emax)))
                    (snd (rnd_pair (- v) 1 (emin prec emax))).
Proof. intros Hv. destruct v; try lia. reflexivity. Qed.

Lemma round_units_id (s : bool) (m : positive) (e : Z) :
  bounded prec emax m e = true ->
  round_units (units (S754_finite s m e)) = S754_finite s m e.
Proof.
  intros B. destruct (bounded_facts _ _ B) as (R & _).
  pose proof (pow_pos (e - emin prec emax) ltac:(lia)) as Hp.
  cbn [units]. destruct s; cbn [cond_Zopp].
  - rewrite round_units_neg by nia. rewrite Z.opp_involutive. apply round_id, B.
  - rewrite round_units_pos by nia. apply round_id, B.
Qed.

Lemma round_units_opp (s : bool) (m : positive) (e : Z) :
  bounded prec emax m e = true ->
  round_units (- units (S754_finite s m e)) = S754_finite (negb s) m e.
Proof.
  intros B. rewrite <- (round_units_id (negb s) m e B). f_equal.
  cbn [units]. destruct s; cbn [cond_Zopp negb]; lia.
Qed.

Lemma shl_align_fst (m : positive) (e ez : Z) :
  ez <= e -> Zpos (fst (shl_align m e ez)) = Zpos m * 2 ^ (e - ez).
Proof.
  intros H. unfold shl_align. destruct (ez - e) as [|d|d] eqn:E; cbn [fst].
  - replace (e - ez) with 0 by lia. rewrite Z.pow_0_r. lia.
  - lia.
  - rewrite iter_xO. f_equal. f_equal. lia.
Qed.

Lemma binary_normalize_round_units (n e : Z) :
  emin prec emax <= e ->
  binary_normalize prec emax n e false = round_units (n * 2 ^ (e - emin prec emax)).
Proof.
  intros He. pose proof (pow_pos (e - emin prec emax) ltac:(lia)) as Hp.
  destruct n as [|p|p]; cbn [binary_normalize].
  - reflexivity.
  - rewrite binary_round_units, round_units_pos by nia. reflexivity.
  - rewrite binary_round_units, round_units_neg by nia.
    replace (- (Zneg p * 2 ^ (e - emin prec emax)))
      with (Zpos p * 2 ^ (e - emin prec emax)) by lia.
    reflexivity.
Qed.

Lemma SFsub_round_units (a b : spec_float) :
  valid_binary prec emax a = true -> valid_binary prec emax b = true ->
  is_finite a = true -> is_finite b = true ->
  SFsub prec emax a b = round_units (units a - units b)
  \/ (units a - units b = 0 /\ exists s, SFsub prec emax a b = S754_zero s).
Proof.
  destruct a as [sa|sa| |sa ma ea], b as [sb|sb| |sb mb eb];
    try discriminate; intros Va Vb _ _.
  - right. split; [reflexivity|]. cbn [SFsub]. destruct sa, sb; eauto.
  - left. cbn [SFsub]. change (units (S754_zero sa)) with 0. rewrite Z.sub_0_l.
    symmetry. apply round_units_opp, Vb.
  - left. cbn [SFsub]. change (units (S754_zero sb)) with 0. rewrite Z.sub_0_r.
    symmetry. apply round_units_id, Va.
  - left. cbn [SFsub valid_binary units] in *.
    destruct (bounded_facts _ _ Va) as (Ra & _).
    destruct (bounded_facts _ _ Vb) as (Rb & _).
    set (ez := Z.min ea eb).
    assert (Hez : emin prec emax <= ez /\ ez <= ea /\ ez <= eb)
      by (unfold ez; lia).
    rewrite !shl_align_fst by lia.
    rewrite binary_normalize_round_units by lia. f_equal.
    assert (Ea : 2 ^ (ea - emin prec emax) =
                 2 ^ (ea - ez) * 2 ^ (ez - emin prec emax)).
    { rewrite <- pow_split by lia. f_equal. lia. }
    assert (Eb : 2 ^ (eb - emin prec emax) =
                 2 ^ (eb - ez) * 2 ^ (ez - emin prec emax)).
    { rewrite <- pow_split by lia. f_equal. lia. }
    rewrite Ea, Eb. destruct sa, sb; cbn [cond_Zopp]; ring.
Qed.

Lemma SFleb_zero_l (s : bool) (x : spec_float) :
  SFleb (S754_zero s) x = SFleb (S754_zero false) x.
Proof. destruct x; reflexivity. Qed.

Lemma SFleb_zero_r (s : bool) (x : spec_float) :
  SFleb x (S754_zero s) = SFleb x (S754_zero false).
Proof. destruct x; reflexivity. Qed.

(** The subtraction is monotone. *)
Theorem SFsub_mono (a b a' b' : spec_float) :
  valid_binary prec emax a = true -> valid_binary prec emax b = true ->
  valid_binary prec emax a' = true -> valid_binary prec emax b' = true ->
  is_finite a = true -> is_finite b = true -> is_finite a' = true -> is_finite b' = true ->
  SFleb a a' = true -> SFleb b' b = true ->
  SFleb (SFsub prec emax a b) (SFsub prec emax a' b') = true.
Proof.
  intros Va Vb Va' Vb' Fa Fb Fa' Fb' Haa Hbb.
  pose proof (SFleb_units a a' Va Va' Fa Fa' Haa) as H1.
  pose proof (SFleb_units b' b Vb' Vb Fb' Fb Hbb) as H2.
  assert (H : units a - units b <= units a' - units b') by lia.
  pose proof (round_units_mono _ _ H) as HR.
  destruct (SFsub_round_units a b Va Vb Fa Fb) as [-> | [Z1 [s1 ->]]],
           (SFsub_round_units a' b' Va' Vb' Fa' Fb') as [-> | [Z2 [s2 ->]]].
  - exact HR.
  - rewrite Z2 in HR. rewrite SFleb_zero_r. exact HR.
  - rewrite Z1 in HR. rewrite SFleb_zero_l. exact HR.
  - reflexivity.
Qed.

Lemma round_units_valid (v : Z) : valid_binary prec emax (round_units v) = true.
Proof.
  destruct v as [|p|p]; cbn [round_units]; [reflexivity| |].
  - apply build_valid.
    apply (rnd_pair_bounded (Zpos p) 1 _ ltac:(lia) ltac:(lia) (fine_units _)).
  - apply build_valid.
    apply (rnd_pair_bounded (- Zneg p) 1 _ ltac:(lia) ltac:(lia) (fine_units _)).
Qed.

Lemma SFsub_valid (a b : spec_float) :
  valid_binary prec emax a = true -> valid_binary prec emax b = true ->
  is_finite a = true -> is_finite b = true ->
  valid_binary prec emax (SFsub prec emax a b) = true.
Proof.
  intros Va Vb Fa Fb.
  destruct (SFsub_round_units a b Va Vb Fa Fb) as [-> | [_ [s ->]]];
    [apply round_units_valid|reflexivity].
Qed.

(** The addition is monotone too. *)
Lemma SFadd_round_units (a b : spec_float) :
  valid_binary prec emax a = true -> valid_binary prec emax b = true ->
  is_finite a = true -> is_finite b = true ->
  SFadd prec emax a b = round_units (units a + units b)
  \/ (units a + units b = 0 /\ exists s, SFadd prec emax a b = S754_zero s).
Proof.
  destruct a as [sa|sa| |sa ma ea], b as [sb|sb| |sb mb eb];
    try discriminate; intros Va Vb _ _.
  - right. split; [reflexivity|]. cbn [SFadd]. destruct sa, sb; eauto.
  - left. cbn [SFadd]. change (units (S754_zero sa)) with 0. rewrite Z.add_0_l.
    symmetry. apply round_units_id, Vb.
  - left. cbn [SFadd]. change (units (S754_zero sb)) with 0. rewrite Z.add_0_r.
    symmetry. apply round_units_id, Va.
  - left. cbn [SFadd valid_binary units] in *.
    destruct (bounded_facts _ _ Va) as (Ra & _).
    destruct (bounded_facts _ _ Vb) as (Rb & _).
    set (ez := Z.min ea eb).
    assert (Hez : emin prec emax <= ez /\ ez <= ea /\ ez <= eb)
      by (unfold ez; lia).
    rewrite !shl_align_fst by lia.
    rewrite binary_normalize_round_units by lia. f_equal.
    assert (Ea : 2 ^ (ea - emin prec emax) =
                 2 ^ (ea - ez) * 2 ^ (ez - emin prec emax)).
    { rewrite <- pow_split by lia. f_equal. lia. }
    assert (Eb : 2 ^ (eb - emin prec emax) =
                 2 ^ (eb - ez) * 2 ^ (ez - emin prec emax)).
    { rewrite <- pow_split by lia. f_equal. lia. }
    rewrite Ea, Eb. destruct sa, sb; cbn [cond_Zopp]; ring.
Qed.

Theorem SFadd_mono (a b a' b' : spec_float) :
  valid_binary prec emax a = true -> valid_binary prec emax b = true ->
  valid_binary prec emax a' = true -> valid_binary prec emax b' = true ->
  is_finite a = true -> is_finite b = true ->
  is_finite a' = true -> is_finite b' = true ->
  SFleb a a' = true -> SFleb b b' = true ->
  SFleb (SFadd prec emax a b) (SFadd prec emax a' b') = true.
Proof.
  intros Va Vb Va' Vb' Fa Fb Fa' Fb' Haa Hbb.
  pose proof (SFleb_units a a' Va Va' Fa Fa' Haa) as H1.
  pose proof (SFleb_units b b' Vb Vb' Fb Fb' Hbb) as H2.
  assert (H : units a + units b <= units a' + units b') by lia.
  pose proof (round_units_mono _ _ H) as HR.
  destruct (SFadd_round_units a b Va Vb Fa Fb) as [-> | [Z1 [s1 ->]]],
           (SFadd_round_units a' b' Va' Vb' Fa' Fb') as [-> | [Z2 [s2 ->]]].
  - exact HR.
  - rewrite Z2 in HR. rewrite SFleb_zero_r. exact HR.
  - rewrite Z1 in HR. rewrite SFleb_zero_l. exact HR.
  - reflexivity.
Qed.

Lemma SFadd_valid (a b : spec_float) :
  valid_binary prec emax a = true -> valid_binary prec emax b = true ->
  is_finite a = true -> is_finite b = true ->
  valid_binary prec emax (SFadd prec emax a b) = true.
Proof.
  intros Va Vb Fa Fb.
  destruct (SFadd_round_units a b Va Vb Fa Fb) as [-> | [_ [s ->]]];
    [apply round_units_valid|reflexivity].
Qed.

(** ** The division *)

Lemma new_location_loc_of (D r : Z) :
  0 < D -> 0 <= r < D -> new_location D r = loc_of r D.
Proof.
  intros HD Hr. unfold new_location, new_location_even, new_location_odd, loc_of.
  destruct (Z.even D) eqn:Ev; [reflexivity|].
  destruct (r =? 0); [reflexivity|]. f_equal.
  assert (Ho : Z.odd D = true) by (rewrite <- Z.negb_even, Ev; reflexivity).
  apply Z.odd_spec in Ho as [k Hk].
  destruct (Z.compare_spec (2 * r + 1) D), (Z.compare_spec (2 * r) D);
    try reflexivity; lia.
Qed.

(** The exponent at which SFdiv_core_binary computes the quotient. *)
Definition div_exp (mx : positive) (ex : Z) (my : positive) (ey : Z) : Z :=
  Z.min (fexp prec emax (Zdigits2 (Zpos mx) + ex - (Zdigits2 (Zpos my) + ey)))
        (ex - ey).

Lemma SFdiv_core_eq (mx : positive) (ex : Z) (my : positive) (ey : Z) :
  let e' := div_exp mx ex my ey in
  let N := Zpos mx * 2 ^ (ex - ey - e') in
  SFdiv_core_binary prec emax (Zpos mx) ex (Zpos my) ey =
  (N / Zpos my, e', loc_of (N mod Zpos my) (Zpos my)).
Proof.
  cbv zeta. unfold SFdiv_core_binary. fold (div_exp mx ex my ey).
  set (e' := div_exp mx ex my ey).
  assert (Hs : 0 <= ex - ey - e') by (unfold e', div_exp; lia).
  set (sh := ex - ey - e') in *.
  assert (Em : match sh with
               | 0 => Zpos mx
               | Zpos _ => Z.shiftl (Zpos mx) sh
               | Zneg _ => 0
               end = Zpos mx * 2 ^ sh).
  { clearbody sh. destruct sh as [|p|p]; try lia.
    apply Z.shiftl_mul_pow2. lia. }
  rewrite Em. set (N := Zpos mx * 2 ^ sh).
  pose proof (Z.mod_pos_bound N (Zpos my) ltac:(lia)) as Hr.
  unfold Z.div, Z.modulo in *.
  destruct (Z.div_eucl N (Zpos my)) as [q r].
  rewrite new_location_loc_of by lia. reflexivity.
Qed.

Lemma div_fine (mx : positive) (ex : Z) (my : positive) (ey : Z) :
  let e' := div_exp mx ex my ey in
  0 <= ex - ey - e'
  /\ fine (Zpos mx * 2 ^ (ex - ey - e')) (Zpos my) e'.
Proof.
  cbv zeta. set (e' := div_exp mx ex my ey).
  assert (Hs : 0 <= ex - ey - e') by (unfold e', div_exp; lia).
  split; [exact Hs|]. unfold fine.
  set (sh := ex - ey - e') in *.
  pose proof (Zdigits2_bounds (Zpos mx) ltac:(lia)) as [Xlo Xhi].
  pose proof (Zdigits2_bounds (Zpos my) ltac:(lia)) as [Ylo Yhi].
  set (dx := Zdigits2 (Zpos mx)) in *. set (dy := Zdigits2 (Zpos my)) in *.
  assert (1 <= dx) by (unfold dx; cbn; lia).
  assert (1 <= dy) by (unfold dy; cbn; lia).
  assert (He' : e' <= fexp prec emax (dx + ex - (dy + ey)))
    by (unfold e', div_exp; fold dx dy; lia).
  pose proof (pow_pos sh Hs) as Hp.
  set (Q := Zpos mx * 2 ^ sh / Zpos my).
  destruct (Z_le_gt_dec 0 (dx - 1 + sh - dy)) as [A|B].
  - assert (HQ : 2 ^ (dx - 1 + sh - dy) <= Q).
    { apply Z.div_le_lower_bound; [lia|].
      pose proof (pow_pos (dx - 1 + sh - dy) A).
      assert (E : 2 ^ (dx - 1) * 2 ^ sh = 2 ^ (dx - 1 + sh - dy) * 2 ^ dy).
      { rewrite <- !pow_split by lia. f_equal. lia. }
      nia. }
    pose proof (Zdigits2_ge Q _ A HQ) as Hd.
    pose proof (fexp_mono (dx + ex - (dy + ey)) (Zdigits2 Q + e')
                  ltac:(unfold sh in *; lia)).
    lia.
  - pose proof (emin_le_fexp (Zdigits2 Q + e')).
    unfold fexp in He'. unfold sh in B. lia.
Qed.

Lemma SFdiv_finite (sx : bool) (mx : positive) (ex : Z)
    (sy : bool) (my : positive) (ey : Z) :
  let e' := div_exp mx ex my ey in
  let N := Zpos mx * 2 ^ (ex - ey - e') in
  SFdiv prec emax (S754_finite sx mx ex) (S754_finite sy my ey) =
  build (xorb sx sy) (fst (rnd_pair N (Zpos my) e'))
                     (snd (rnd_pair N (Zpos my) e')).
Proof.
  cbv zeta. cbn [SFdiv].
  pose proof (SFdiv_core_eq mx ex my ey) as E. cbv zeta in E. rewrite E.
  destruct (div_fine mx ex my ey) as [Hs _]. cbv zeta in Hs.
  apply binary_round_aux_pair; [|lia].
  pose proof (pow_pos _ Hs). nia.
Qed.

Lemma pow_shift_le (m1 m2 b1 b2 k : Z) :
  0 <= b1 -> 0 <= b2 -> 0 <= b1 + k -> 0 <= b2 + k ->
  m1 * 2 ^ b1 <= m2 * 2 ^ b2 -> m1 * 2 ^ (b1 + k) <= m2 * 2 ^ (b2 + k).
Proof.
  intros H1 H2 K1 K2 H.
  destruct (Z_le_gt_dec 0 k) as [Hk|Hk].
  - rewrite !pow_split by lia. pose proof (pow_pos k Hk). nia.
  - pose proof (pow_pos (- k) ltac:(lia)) as Hp.
    replace b1 with ((b1 + k) + - k) in H by lia.
    replace b2 with ((b2 + k) + - k) in H by lia.
    rewrite (pow_split (b1 + k) (- k)), (pow_split (b2 + k) (- k)) in H by lia.
    nia.
Qed.

(** The quotients of two magnitudes by the same divisor. *)
Lemma div_pair_le (m1 : positive) (e1 : Z) (m2 : positive) (e2 : Z)
    (mc : positive) (ec : Z) :
  emin prec emax <= e1 -> emin prec emax <= e2 ->
  Zpos m1 * 2 ^ (e1 - emin prec emax) <= Zpos m2 * 2 ^ (e2 - emin prec emax) ->
  let p1 := rnd_pair (Zpos m1 * 2 ^ (e1 - ec - div_exp m1 e1 mc ec))
                     (Zpos mc) (div_exp m1 e1 mc ec) in
  let p2 := rnd_pair (Zpos m2 * 2 ^ (e2 - ec - div_exp m2 e2 mc ec))
                     (Zpos mc) (div_exp m2 e2 mc ec) in
  pair_le p1 p2 /\ 0 <= fst p1 /\ 0 <= fst p2.
Proof.
  intros H1 H2 Hle. cbv zeta.
  destruct (div_fine m1 e1 mc ec) as [S1 F1].
  destruct (div_fine m2 e2 mc ec) as [S2 F2]. cbv zeta in *.
  set (t1 := div_exp m1 e1 mc ec) in *. set (t2 := div_exp m2 e2 mc ec) in *.
  set (N1 := Zpos m1 * 2 ^ (e1 - ec - t1)) in *.
  set (N2 := Zpos m2 * 2 ^ (e2 - ec - t2)) in *.
  assert (HN1 : 0 <= N1) by (pose proof (pow_pos _ S1); unfold N1; nia).
  assert (HN2 : 0 <= N2) by (pose proof (pow_pos _ S2); unfold N2; nia).
  set (e0 := Z.min t1 t2).
  destruct (rnd_pair_refine N1 (Zpos mc) t1 (t1 - e0) HN1 ltac:(lia)
              ltac:(unfold e0; lia) F1) as [F1' R1].
  destruct (rnd_pair_refine N2 (Zpos mc) t2 (t2 - e0) HN2 ltac:(lia)
              ltac:(unfold e0; lia) F2) as [F2' R2].
  replace (t1 - (t1 - e0)) with e0 in * by lia.
  replace (t2 - (t2 - e0)) with e0 in * by lia.
  rewrite <- R1, <- R2.
  assert (Hord : N1 * 2 ^ (t1 - e0) <= N2 * 2 ^ (t2 - e0)).
  { unfold N1, N2. rewrite <- !Z.mul_assoc, <- !pow_split
      by (unfold e0; lia).
    replace (e1 - ec - t1 + (t1 - e0))
      with ((e1 - emin prec emax) + (emin prec emax - ec - e0)) by lia.
    replace (e2 - ec - t2 + (t2 - e0))
      with ((e2 - emin prec emax) + (emin prec emax - ec - e0)) by lia.
    apply pow_shift_le; try lia; unfold e0; lia. }
  assert (HN1' : 0 <= N1 * 2 ^ (t1 - e0)).
  { pose proof (pow_pos (t1 - e0) ltac:(unfold e0; lia)). nia. }
  destruct (round_mono_same (Zpos mc) e0 _ _ ltac:(lia) (conj HN1' Hord)
              F1' F2') as [L Hn2].
  split; [exact L|]. split; [|exact Hn2].
  apply (rnd_pair_bounded _ (Zpos mc) _ HN1' ltac:(lia) F1').
Qed.

Lemma SFdiv_finite_cases (sx : bool) (mx : positive) (ex : Z)
    (sy : bool) (my : positive) (ey : Z) :
  let r := SFdiv prec emax (S754_finite sx mx ex) (S754_finite sy my ey) in
  r = S754_zero (xorb sx sy) \/ r = S754_infinity (xorb sx sy)
  \/ exists m e, r = S754_finite (xorb sx sy) m e.
Proof.
  cbv zeta. rewrite SFdiv_finite.
  destruct (div_fine mx ex my ey) as [Hs Hf]. cbv zeta in Hs, Hf.
  pose proof (pow_pos _ Hs).
  assert (HN : 0 <= Zpos mx * 2 ^ (ex - ey - div_exp mx ex my ey)) by nia.
  destruct (rnd_pair_bounded _ (Zpos my) _ HN ltac:(lia) Hf) as [Hn _].
  destruct (build_nonneg_cases (xorb sx sy) _
              (snd (rnd_pair (Zpos mx * 2 ^ (ex - ey - div_exp mx ex my ey))
                     (Zpos my) (div_exp mx ex my ey))) Hn)
    as [-> | [-> | [m ->]]]; eauto.
Qed.

(** The division by a positive number is monotone. *)
Theorem SFdiv_mono_pos (p q : spec_float) (mc : positive) (ec : Z) :
  valid_binary prec emax p = true -> valid_binary prec emax q = true ->
  SFleb p q = true ->
  SFleb (SFdiv prec emax p (S754_finite false mc ec))
        (SFdiv prec emax q (S754_finite false mc ec)) = true.
Proof.
  intros Vp Vq Hle.
  destruct p as [sp|sp| |sp mp ep], q as [sq|sq| |sq mq e_q];
    try discriminate Hle.
  - (* zero, zero *) cbn [SFdiv]. reflexivity.
  - (* zero, inf *) cbn [SFdiv]. destruct sp, sq; try discriminate Hle; reflexivity.
  - (* zero, finite *)
    assert (sq = false) by (destruct sq; [discriminate Hle|reflexivity]).
    subst sq.
    destruct (SFdiv_finite_cases false mq e_q false mc ec)
      as [E | [E | (m & e & E)]]; cbv zeta in E; rewrite E;
      cbn [SFdiv]; destruct sp; reflexivity.
  - (* inf, zero *) cbn [SFdiv]. destruct sp, sq; try discriminate Hle; reflexivity.
  - (* inf, inf *) cbn [SFdiv]. destruct sp, sq; try discriminate Hle; reflexivity.
  - (* inf, finite *)
    assert (sp = true) by (destruct sp; [reflexivity|discriminate Hle]).
    subst sp.
    destruct (SFdiv_finite_cases sq mq e_q false mc ec)
      as [E | [E | (m & e & E)]]; cbv zeta in E; rewrite E;
      cbn [SFdiv]; destruct sq; reflexivity.
  - (* finite, zero *)
    assert (sp = true) by (destruct sp; [reflexivity|discriminate Hle]).
    subst sp.
    destruct (SFdiv_finite_cases true mp ep false mc ec)
      as [E | [E | (m & e & E)]]; cbv zeta in E; rewrite E;
      cbn [SFdiv]; destruct sq; reflexivity.
  - (* finite, inf *)
    assert (sq = false) by (destruct sq; [discriminate Hle|reflexivity]).
    subst sq.
    destruct (SFdiv_finite_cases sp mp ep false mc ec)
      as [E | [E | (m & e & E)]]; cbv zeta in E; rewrite E;
      cbn [SFdiv]; destruct sp; reflexivity.
  - (* finite, finite *)
    pose proof (SFleb_units _ _ Vp Vq eq_refl eq_refl Hle) as HV.
    cbn [valid_binary] in Vp, Vq.
    destruct (bounded_facts _ _ Vp) as (Rp & _).
    destruct (bounded_facts _ _ Vq) as (Rq & _).
    pose proof (pow_pos (ep - emin prec emax) ltac:(lia)) as Pp.
    pose proof (pow_pos (e_q - emin prec emax) ltac:(lia)) as Pq.
    cbn [units] in HV.
    destruct sp, sq; cbn [cond_Zopp] in HV.
    + (* both negative *)
      rewrite !SFdiv_finite. cbn [xorb].
      destruct (div_pair_le mq e_q mp ep mc ec ltac:(lia) ltac:(lia)
                  ltac:(lia)) as (L & Hq & Hp).
      cbv zeta in L, Hq, Hp.
      destruct (rnd_pair _ (Zpos mc) (div_exp mq e_q mc ec)) as [Mq Eq'].
      destruct (rnd_pair _ (Zpos mc) (div_exp mp ep mc ec)) as [Mp Ep'].
      cbn [fst snd] in *. apply (build_le Mq Eq' Mp Ep' Hp L).
    + (* negative, positive *)
      destruct (SFdiv_finite_cases true mp ep false mc ec)
        as [E | [E | (m & e & E)]]; cbv zeta in E; rewrite E;
      destruct (SFdiv_finite_cases false mq e_q false mc ec)
        as [E' | [E' | (m' & e' & E')]]; cbv zeta in E'; rewrite E';
      reflexivity.
    + (* positive, negative *) nia.
    + (* both positive *)
      rewrite !SFdiv_finite. cbn [xorb].
      destruct (div_pair_le mp ep mq e_q mc ec ltac:(lia) ltac:(lia)
                  ltac:(lia)) as (L & Hp & Hq).
      cbv zeta in L, Hq, Hp.
      destruct (rnd_pair _ (Zpos mc) (div_exp mp ep mc ec)) as [Mp Ep'].
      destruct (rnd_pair _ (Zpos mc) (div_exp mq e_q mc ec)) as [Mq Eq'].
      cbn [fst snd] in *. apply (build_le Mp Ep' Mq Eq' Hq L).
Qed.

Lemma SFcompare_opp (a b : spec_float) :
  SFcompare (SFopp b) (SFopp a) = SFcompare a b.
Proof.
  destruct a as [sa|sa| |sa ma ea], b as [sb|sb| |sb mb eb]; cbn [SFopp SFcompare];
    try reflexivity;
    try (destruct sa; reflexivity);
    try (destruct sb; reflexivity);
    try (destruct sa, sb; reflexivity).
  change (Pos.compare_cont Eq mb ma) with (Pos.compare mb ma).
  change (Pos.compare_cont Eq ma mb) with (Pos.compare ma mb).
  rewrite (Z.compare_antisym ea eb), (Pos.compare_antisym ma mb).
  destruct sa, sb; cbn [negb]; try reflexivity;
    destruct (ea ?= eb); cbn [CompOpp]; try reflexivity;
    destruct (ma ?= mb)%positive; reflexivity.
Qed.

Lemma SFleb_opp (a b : spec_float) :
  SFleb a b = true -> SFleb (SFopp b) (SFopp a) = true.
Proof. unfold SFleb. rewrite SFcompare_opp. trivial. Qed.

Lemma valid_opp (a : spec_float) :
  valid_binary prec emax (SFopp a) = valid_binary prec emax a.
Proof. destruct a; reflexivity. Qed.

Lemma SFdiv_opp_opp (a b : spec_float) :
  SFdiv prec emax (SFopp a) (SFopp b) = SFdiv prec emax a b.
Proof.
  destruct a as [sa|sa| |sa ma ea], b as [sb|sb| |sb mb eb];
    cbn [SFdiv SFopp]; try reflexivity; destruct sa, sb; reflexivity.
Qed.

(** The division by a negative number is antitone. *)
Theorem SFdiv_mono_neg (p q : spec_float) (mc : positive) (ec : Z) :
  valid_binary prec emax p = true -> valid_binary prec emax q = true ->
  SFleb p q = true ->
  SFleb (SFdiv prec emax q (S754_finite true mc ec))
        (SFdiv prec emax p (S754_finite true mc ec)) = true.
Proof.
  intros Vp Vq Hle.
  rewrite <- (SFdiv_opp_opp q), <- (SFdiv_opp_opp p). cbn [SFopp negb].
  apply SFdiv_mono_pos; rewrite ?valid_opp; auto using SFleb_opp.
Qed.

End Rounding.

(** ** The loop of the scheduler ends *)

Section Drain.

Lemma drain_succ (n : nat) (acc : F64.double) :
  drain (S n) acc = F64.sub (drain n acc) physicsStep.
Proof.
  revert acc. induction n as [|n IH]; intros acc; [reflexivity|].
  change (drain (S (S n)) acc) with (drain (S n) (F64.sub acc physicsStep)).
  rewrite IH. reflexivity.
Qed.

Lemma binary64b_spec (a : F64.double) : binary64b a = true <-> binary64 a.
Proof. unfold binary64b, binary64. apply andb_true_iff. Qed.

(** From the step and from the largest content, 22 subtractions stay within
    the finite values, and the largest content is then below the step. *)
Lemma drain_table :
  forall k, (k <= 22)%nat ->
    binary64 (drain k physicsStep) /\ binary64 (drain k full).
Proof.
  assert (H : forallb (fun k => binary64b (drain k physicsStep)
                                && binary64b (drain k full))
                      (seq 0 23) = true) by (vm_compute; reflexivity).
  rewrite forallb_forall in H. intros k Hk.
  specialize (H k ltac:(apply in_seq; lia)).
  apply andb_true_iff in H as [H1 H2].
  split; apply binary64b_spec; assumption.
Qed.

Lemma drain_full_22 :
  units F64.prec F64.emax (drain 22 full) < units F64.prec F64.emax physicsStep.
Proof. vm_compute. reflexivity. Qed.

Lemma sandwiched_finite (x l u : spec_float) :
  is_finite l = true -> is_finite u = true ->
  SFleb l x = true -> SFleb x u = true -> is_finite x = true.
Proof.
  destruct x as [s|s| |s m e]; try reflexivity; intros Fl Fu Hl Hu.
  - destruct l as [sl|sl| |sl ml el]; try discriminate Fl;
      destruct u as [su|su| |su mu eu]; try discriminate Fu;
      destruct s; try discriminate Hl; discriminate Hu.
  - destruct l; discriminate Hl.
Qed.

Lemma drain_between (x : F64.double) :
  binary64 x -> SFleb physicsStep x = true -> SFleb x full = true ->
  forall k, (k <= 22)%nat ->
    binary64 (drain k x)
    /\ SFleb (drain k physicsStep) (drain k x) = true
    /\ SFleb (drain k x) (drain k full) = true.
Proof.
  intros Bx Hl Hu. induction k as [|k IH]; intros Hk.
  - auto.
  - destruct (IH ltac:(lia)) as ([Vk Fk] & Lk & Uk).
    destruct (drain_table k ltac:(lia)) as ([VL FL] & [VU FU]).
    destruct (drain_table (S k) ltac:(lia)) as ([_ FL'] & [_ FU']).
    rewrite !drain_succ in *. unfold F64.sub in *.
    assert (Vs : valid_binary F64.prec F64.emax physicsStep = true)
      by reflexivity.
    assert (L' : SFleb (SFsub F64.prec F64.emax (drain k physicsStep) physicsStep)
                       (SFsub F64.prec F64.emax (drain k x) physicsStep) = true).
    { apply (SFsub_mono F64.prec F64.emax eq_refl eq_refl); auto. }
    assert (U' : SFleb (SFsub F64.prec F64.emax (drain k x) physicsStep)
                       (SFsub F64.prec F64.emax (drain k full) physicsStep) = true).
    { apply (SFsub_mono F64.prec F64.emax eq_refl eq_refl); auto. }
    split; [|split; assumption].
    split.
    + apply (SFsub_valid F64.prec F64.emax eq_refl eq_refl); auto.
    + apply (sandwiched_finite _ _ _ FL' FU' L' U').
Qed.

(** The first content below the step. *)
Lemma search_exit (x : F64.double) (j : nat) :
  (forall i, (i < j)%nat -> F64.ge (drain i x) physicsStep = true)
  \/ exists n, (n < j)%nat
       /\ (forall i, (i < n)%nat -> F64.ge (drain i x) physicsStep = true)
       /\ F64.ge (drain n x) physicsStep = false.
Proof.
  induction j as [|j [A | (n & Hn & A & B)]].
  - left. intros i Hi. lia.
  - destruct (F64.ge (drain j x) physicsStep) eqn:Ej.
    + left. intros i Hi.
      destruct (Nat.eq_dec i j) as [->|]; [exact Ej|apply A; lia].
    + right. exists j. repeat split; auto.
  - right. exists n. repeat split; auto.
Qed.

Lemma first_exit (x : F64.double) (N : nat) :
  F64.ge (drain N x) physicsStep = false ->
  exists n, (n <= N)%nat
    /\ (forall i, (i < n)%nat -> F64.ge (drain i x) physicsStep = true)
    /\ F64.ge (drain n x) physicsStep = false.
Proof.
  intros H. destruct (search_exit x N) as [A | (n & Hn & A & B)].
  - exists N. repeat split; auto.
  - exists n. repeat split; auto. lia.
Qed.

Lemma SFleb_false_ltb (a b : spec_float) :
  is_nan a = false -> is_nan b = false ->
  SFleb b a = false -> SFltb a b = true.
Proof.
  unfold SFleb, SFltb. rewrite (SFcompare_antisym a b).
  destruct a, b; try discriminate; intros _ _;
    destruct (SFcompare _ _) as [[ | | ]|] eqn:E; cbn [option_map CompOpp];
    try congruence; cbn [SFcompare] in E; discriminate.
Qed.

(** A content under a bound that is below the step stops the loop. *)
Lemma below_step (x u : F64.double) :
  binary64 x -> binary64 u -> SFleb x u = true ->
  units F64.prec F64.emax u < units F64.prec F64.emax physicsStep ->
  F64.ge x physicsStep = false.
Proof.
  intros [Vx Fx] [Vu Fu] Hxu Hu.
  apply Bool.not_true_is_false. unfold F64.ge. intros E.
  pose proof (SFleb_units F64.prec F64.emax eq_refl physicsStep x
                eq_refl Vx eq_refl Fx E).
  pose proof (SFleb_units F64.prec F64.emax eq_refl x u Vx Vu Fx Fu Hxu).
  lia.
Qed.

Lemma sub_step_step :
  SFsub F64.prec F64.emax physicsStep physicsStep = F64.zero.
Proof. vm_compute. reflexivity. Qed.

(** The elapsed time that goes into the accumulator. *)
Lemma clamped_between (dt : F64.double) :
  valid_binary F64.prec F64.emax dt = true ->
  F64.gt dt physicsStep = true ->
  let clamped := if F64.gt dt quarter then quarter else dt in
  binary64 clamped /\ SFleb physicsStep clamped = true
  /\ SFleb clamped quarter = true.
Proof.
  intros Vdt Hgate. cbv zeta. unfold F64.gt in *.
  destruct (SFltb quarter dt) eqn:E.
  - repeat split.
  - assert (Nn : is_nan dt = false) by (destruct dt; try reflexivity; discriminate Hgate).
    pose proof (SFltb_false_leb quarter dt eq_refl Nn E) as Hq.
    pose proof (SFltb_leb _ _ Hgate) as Hs.
    split; [split|split]; auto.
    apply (sandwiched_finite dt physicsStep quarter); auto.
Qed.

Lemma checkTime_returns (fuel : nat) (stale : nat -> float * float)
    (now : F64.double) (g : Globals) :
  between_frames (accumulator g) ->
  valid_binary F64.prec F64.emax (F64.sub now (timebase g)) = true ->
  F64.gt (F64.sub now (timebase g)) physicsStep = true ->
  (22 <= fuel)%nat ->
  exists n g', (1 <= n <= 22)%nat
    /\ checkTime fuel stale now g = Some (n, g')
    /\ between_frames (accumulator g').
Proof.
  intros ([Va Fa] & H0 & H1) Vdt Hgate Hfuel.
  destruct (clamped_between _ Vdt Hgate) as ([Vc Fc] & Hcs & Hcq).
  cbv zeta in *.
  set (clamped := if F64.gt (F64.sub now (timebase g)) quarter
                  then quarter else F64.sub now (timebase g)) in *.
  set (acc0 := F64.add (accumulator g) clamped).
  unfold F64.ge, F64.lt in H0, H1. apply SFltb_leb in H1.
  assert (Hlo : SFleb physicsStep acc0 = true).
  { pose proof (SFadd_mono F64.prec F64.emax eq_refl eq_refl
                  F64.zero physicsStep (accumulator g) clamped
                  eq_refl eq_refl Va Vc eq_refl eq_refl Fa Fc H0 Hcs) as H.
    exact H. }
  assert (Hhi : SFleb acc0 full = true).
  { apply (SFadd_mono F64.prec F64.emax eq_refl eq_refl); auto. }
  assert (B0 : binary64 acc0).
  { split.
    - apply (SFadd_valid F64.prec F64.emax eq_refl eq_refl); auto.
    - apply (sandwiched_finite acc0 physicsStep full); auto. }
  pose proof (drain_between acc0 B0 Hlo Hhi) as Hd.
  assert (Hend : F64.ge (drain 22 acc0) physicsStep = false).
  { destruct (Hd 22%nat (le_n 22)) as (B22 & _ & U22).
    destruct (drain_table 22 (le_n 22)) as (_ & BU).
    exact (below_step _ _ B22 BU U22 drain_full_22). }
  destruct (first_exit acc0 22 Hend) as (n & Hn & Hall & Hstop).
  assert (Hn1 : (1 <= n)%nat).
  { destruct n as [|n]; [|lia]. cbn [drain] in Hstop.
    unfold F64.ge in Hstop. congruence. }
  destruct (Hd n Hn) as ([Vn Fn] & _ & _).
  assert (Hnf : (n <= fuel)%nat) by lia.
  assert (Hret : exists g', checkTime fuel stale now g = Some (n, g')
                   /\ accumulator g' = drain n acc0).
  { unfold checkTime. rewrite Hgate.
    destruct (if F64.gt (F64.sub now (FPSTime g)) F64.one then _ else _)
      as [[frame' fps'] FPSTime'].
    fold clamped. fold acc0.
    rewrite (proj2 (physics_loop_spec fuel stale acc0 (world g) n _ _)
               (conj Hnf (conj eq_refl (conj eq_refl (conj Hall Hstop))))).
    eexists. split; reflexivity. }
  destruct Hret as (g' & Hret & Hacc).
  exists n, g'. split; [lia|]. split.
  - exact Hret.
  - rewrite Hacc. split; [split; assumption|]. split.
    + destruct n as [|m]; [lia|].
      specialize (Hall m ltac:(lia)). unfold F64.ge in Hall |- *.
      destruct (Hd m ltac:(lia)) as ([Vm Fm] & _ & _).
      rewrite drain_succ. unfold F64.sub.
      rewrite <- sub_step_step.
      apply (SFsub_mono F64.prec F64.emax eq_refl eq_refl); auto.
    + unfold F64.lt, F64.ge in *.
      apply SFleb_false_ltb; auto.
      destruct (drain n acc0); try reflexivity; discriminate Fn.
Qed.

End Drain.

(** C8, as the code has it: a frame whose elapsed time since [timebase]
    does not exceed physicsStep changes nothing but [time].  On any other
    frame checkTime sets [timebase], adds the elapsed time, clamped to
    0.25, to the accumulator, and calls update(physicsStep) once for each
    step that the accumulator holds, subtracting physicsStep each time and
    keeping the rest; it returns as soon as the fuel covers the number of
    steps.  With an elapsed time of 0.05 and an empty accumulator that makes
    4 calls and leaves 0.002, up to 1e-15.  Whenever the clock values are
    finite and the accumulator holds a finite value that is not negative and
    below physicsStep, as it does at startup, such a frame makes between 1
    and 22 calls and leaves the accumulator in that range again. *)
Theorem checkTime_fixed_step (fuel : nat) (stale : nat -> float * float)
    (now : F64.double) (g : Globals) :
  let dt := F64.sub now (timebase g) in
  let clamped := if F64.gt dt quarter then quarter else dt in
  let acc0 := F64.add (accumulator g) clamped in
  (F64.gt dt physicsStep = false ->
   checkTime fuel stale now g =
   Some (O, Build_Globals (frame g) now (timebase g) (accumulator g)
              (fps g) (FPSTime g) (world g)))
  /\ (F64.gt dt physicsStep = true ->
      (forall n g', checkTime fuel stale now g = Some (n, g') ->
         accumulator g' = drain n acc0
         /\ world g' = updates n stale (world g)
         /\ timebase g' = now /\ time g' = now
         /\ (forall i, (i < n)%nat ->
               F64.ge (drain i acc0) physicsStep = true)
         /\ F64.ge (drain n acc0) physicsStep = false)
      /\ (forall n, (n <= fuel)%nat ->
            (forall i, (i < n)%nat ->
               F64.ge (drain i acc0) physicsStep = true) ->
            F64.ge (drain n acc0) physicsStep = false ->
            exists g', checkTime fuel stale now g = Some (n, g')))
  /\ (dt = delta_0_05 -> accumulator g = F64.zero -> (4 <= fuel)%nat ->
      exists g', checkTime fuel stale now g = Some (4%nat, g')
         /\ world g' = updates 4 stale (world g)
         /\ F64.lt (SFabs (F64.sub (accumulator g') remainder_0_002))
                   (F64.literal 1 15) = true)
  /\ (F64.gt dt physicsStep = true ->
      binary64 now -> binary64 (timebase g) ->
      between_frames (accumulator g) -> (22 <= fuel)%nat ->
      exists n g', (1 <= n <= 22)%nat
         /\ checkTime fuel stale now g = Some (n, g')
         /\ between_frames (accumulator g')).
Proof.
  cbv zeta.
  assert (Hopen : F64.gt (F64.sub now (timebase g)) physicsStep = true ->
    forall n, (n <= fuel)%nat ->
    (forall i, (i < n)%nat ->
       F64.ge (drain i (F64.add (accumulator g)
                 (if F64.gt (F64.sub now (timebase g)) quarter
                  then quarter else F64.sub now (timebase g))))
              physicsStep = true) ->
    F64.ge (drain n (F64.add (accumulator g)
              (if F64.gt (F64.sub now (timebase g)) quarter
               then quarter else F64.sub now (timebase g))))
           physicsStep = false ->
    exists g', checkTime fuel stale now g = Some (n, g')
       /\ accumulator g' =
          drain n (F64.add (accumulator g)
              (if F64.gt (F64.sub now (timebase g)) quarter
               then quarter else F64.sub now (timebase g)))
       /\ world g' = updates n stale (world g)).
  { intros Hgate n Hn Hall Hstop. unfold checkTime. rewrite Hgate.
    destruct (if F64.gt (F64.sub now (FPSTime g)) F64.one then _ else _)
      as [[frame' fps'] FPSTime'].
    rewrite (proj2 (physics_loop_spec fuel stale _ (world g) n _ _)
               (conj Hn (conj eq_refl (conj eq_refl (conj Hall Hstop))))).
    eexists. split; [reflexivity|]. split; reflexivity. }
  split; [|split; [|split]].
  - intros Hgate. unfold checkTime. rewrite Hgate. reflexivity.
  - intros Hgate. split.
    + intros n g'. unfold checkTime. rewrite Hgate.
      destruct (if F64.gt (F64.sub now (FPSTime g)) F64.one then _ else _)
        as [[frame' fps'] FPSTime'].
      destruct (physics_loop fuel stale _ (world g)) as [[[k a] u]|] eqn:L;
        [|discriminate].
      intros H. injection H as <- <-. cbn [accumulator world timebase time].
      apply physics_loop_spec in L as (_ & -> & -> & Hall & Hstop).
      repeat split; assumption.
    + intros n Hn Hall Hstop.
      destruct (Hopen Hgate n Hn Hall Hstop) as (g' & Hg & _).
      exists g'. exact Hg.
  - intros Hdt Hacc Hfuel.
    assert (Hgate : F64.gt (F64.sub now (timebase g)) physicsStep = true)
      by (rewrite Hdt; vm_compute; reflexivity).
    destruct (Hopen Hgate 4%nat Hfuel) as (g' & Hg & Ha & Hw).
    + rewrite Hdt, Hacc. intros i Hi.
      destruct i as [|[|[|[|i]]]]; try lia; vm_compute; reflexivity.
    + rewrite Hdt, Hacc. vm_compute. reflexivity.
    + exists g'. split; [exact Hg|]. split; [exact Hw|].
      rewrite Ha, Hdt, Hacc. vm_compute. reflexivity.
  - intros Hgate [Vn Fn] [Vt Ft] Hacc Hfuel.
    apply checkTime_returns; auto.
    apply (SFsub_valid F64.prec F64.emax eq_refl eq_refl); auto.
Qed.

(** ** Motion along one axis *)

Section OneAxis.

Lemma axis_quantities (ax : axis) (box1 box2 : AABB) (vel1 : vec3.t) :
  let c := component ax vel1 in
  DistanceEntry ax box1 box2 vel1 =
    axis_distance_entry c (lo ax box1) (hi ax box1) (lo ax box2) (hi ax box2)
  /\ DistanceExit ax box1 box2 vel1 =
    axis_distance_exit c (lo ax box1) (hi ax box1) (lo ax box2) (hi ax box2)
  /\ EntryTime ax box1 box2 vel1 =
    axis_entry_time c (lo ax box1) (hi ax box1) (lo ax box2) (hi ax box2)
  /\ ExitTime ax box1 box2 vel1 =
    axis_exit_time c (lo ax box1) (hi ax box1) (lo ax box2) (hi ax box2)
  /\ Extents ax box1 box2 =
    add (sub (hi ax box1) (lo ax box1)) (sub (hi ax box2) (lo ax box2)).
Proof. destruct ax; repeat split. Qed.

(** The sign of a rounded result is the sign given. *)
Lemma binary_round_aux_sign (s : bool) (m e : Z) (l : location) :
  match binary_round_aux prec emax s m e l with
  | S754_zero s' | S754_infinity s' | S754_finite s' _ _ => s' = s
  | S754_nan => True
  end.
Proof.
  unfold binary_round_aux.
  destruct (shr_fexp prec emax m e l) as [mrs' e'].
  destruct (shr_fexp prec emax _ e' loc_Exact) as [mrs'' e''].
  destruct (shr_m mrs''); trivial.
  destruct (e'' <=? emax - prec); trivial.
Qed.








Lemma lt_neg_infinity (a : float) : lt a neg_infinity = false.
Proof. destruct a as [s|s| |s m e]; try destruct s; reflexivity. Qed.


Lemma le_not_gt (a b : float) : le a b = true -> gt a b = false.
Proof.
  unfold le, gt, SFleb, SFltb. rewrite (SFcompare_antisym a b).
  destruct (SFcompare a b) as [[ | | ]|]; cbn [option_map CompOpp];
    congruence.
Qed.


Lemma lt_not_gt (a b : float) : lt a b = true -> gt a b = false.
Proof. intros H. apply le_not_gt, SFltb_leb, H. Qed.



End OneAxis.

Section HeadOn.





End HeadOn.

(** The width of a box on an axis is computed without rounding: the two
    faces are finite values and so is their difference, which is the
    difference of the two values. *)
Definition exact_width (ax : axis) (b : AABB) : Prop :=
  binary32 (lo ax b) /\ binary32 (hi ax b)
  /\ is_finite (sub (hi ax b) (lo ax b)) = true
  /\ units F32.prec F32.emax (sub (hi ax b) (lo ax b)) =
     units F32.prec F32.emax (hi ax b) - units F32.prec F32.emax (lo ax b).

Section Reach.






End Reach.


Section ExitAfterEntry.

Lemma binary32_sub_le (a b a' b' : float) :
  binary32 a -> binary32 b -> binary32 a' -> binary32 b' ->
  le a a' = true -> le b' b = true ->
  SFleb (sub a b) (sub a' b') = true
  /\ valid (sub a b) = true /\ valid (sub a' b') = true.
Proof.
  intros [Va Fa] [Vb Fb] [Va' Fa'] [Vb' Fb'] H1 H2.
  unfold sub, valid, le in *. split; [|split].
  - apply (SFsub_mono F32.prec F32.emax eq_refl eq_refl); assumption.
  - apply (SFsub_valid F32.prec F32.emax eq_refl eq_refl); assumption.
  - apply (SFsub_valid F32.prec F32.emax eq_refl eq_refl); assumption.
Qed.

(** Between well-formed boxes the moving box does not leave an axis before
    it enters it. *)
Lemma axis_exit_after_entry (c lo1 hi1 lo2 hi2 : float) :
  binary32 lo1 -> binary32 hi1 -> binary32 lo2 -> binary32 hi2 ->
  le lo1 hi1 = true -> le lo2 hi2 = true ->
  is_finite c = true -> eq c zero = false ->
  gt (axis_entry_time c lo1 hi1 lo2 hi2) (axis_exit_time c lo1 hi1 lo2 hi2)
  = false.
Proof.
  intros B1 B1' B2 B2' W1 W2 Fc Nz.
  destruct (binary32_sub_le lo2 hi1 hi2 lo1 B2 B1' B2' B1 W2 W1)
    as (Hle & Vd & VD).
  apply le_not_gt.
  unfold axis_entry_time, axis_exit_time. rewrite Nz.
  unfold axis_distance_entry, axis_distance_exit.
  destruct c as [s|s| |s m e]; try discriminate Fc; [discriminate Nz|].
  destruct s.
  - change (gt (S754_finite true m e) zero) with false. cbv iota.
    unfold le, div, valid in *.
    apply (SFdiv_mono_neg F32.prec F32.emax eq_refl eq_refl); assumption.
  - change (gt (S754_finite false m e) zero) with true. cbv iota.
    unfold le, div, valid in *.
    apply (SFdiv_mono_pos F32.prec F32.emax eq_refl eq_refl); assumption.
Qed.

End ExitAfterEntry.


(** ** Concrete runs *)

(** The unit square moves by (-1, 0) with its left side on the right side
    of the unit square at the origin: the gap is 0 and the travel is in the
    negative direction, yet the normal is -1. *)
Example touching_from_the_right :
  SweptAABB (box_Z 1 0 2 1) (box_Z 0 0 1 1) (vel_Z (-1) 0) zero zero =
  (S754_zero true, minus_one, zero).
Proof. vm_compute. reflexivity. Qed.

Example thin_box_missed :
  SweptAABB thin_box tall_box (vel_Z 2 0) zero zero = (two, zero, zero).
Proof. vm_compute. reflexivity. Qed.

(** The lower face of [tall_box] is 1.25 * 2^-22 and its upper face 6: the
    width is rounded. *)
Example tall_box_width_rounded : ~ exact_width Y tall_box.
Proof. intros (_ & _ & _ & U). vm_compute in U. discriminate U. Qed.



Lemma SweptAABB_collision_time_unit_witness :
  let t := fst (fst (SweptAABB (box_Z 0 0 1 1) (box_Z 2 0 3 1) (vel_Z 4 0)
                       zero zero)) in
  noCollision (box_Z 0 0 1 1) (box_Z 2 0 3 1) (vel_Z 4 0) = false
  /\ t = F32.max (xEntryTime (box_Z 0 0 1 1) (box_Z 2 0 3 1) (vel_Z 4 0))
                 (yEntryTime (box_Z 0 0 1 1) (box_Z 2 0 3 1) (vel_Z 4 0))
  /\ le zero t = true /\ le t one = true /\ eq t two = false.
Proof.
  split; [reflexivity|].
  apply (SweptAABB_collision_time_unit (box_Z 0 0 1 1) (box_Z 2 0 3 1)
           (vel_Z 4 0) zero zero).
  - repeat split.
  - repeat split.
  - repeat split.
  - reflexivity.
Defined.

(** The two boxes coincide and nothing moves. *)
Lemma SweptAABB_zero_displacement_witness :
  SweptAABB (box_Z 0 0 1 1) (box_Z 0 0 1 1) (vel_Z 0 0) one one =
  (two, zero, zero).
Proof.
  apply (SweptAABB_zero_displacement (box_Z 0 0 1 1) (box_Z 0 0 1 1)
           (vel_Z 0 0) one one); reflexivity.
Defined.

(** A diagonal approach, corner to corner: the two entry times are 0.5. *)
Lemma SweptAABB_tie_keeps_normals_witness :
  eq (xEntryTime (box_Z 0 0 1 1) (box_Z 2 2 3 3) (vel_Z 2 2))
     (yEntryTime (box_Z 0 0 1 1) (box_Z 2 2 3 3) (vel_Z 2 2)) = true
  /\ SweptAABB (box_Z 0 0 1 1) (box_Z 2 2 3 3) (vel_Z 2 2)
       (of_Z 7) S754_nan =
     (entryTime (box_Z 0 0 1 1) (box_Z 2 2 3 3) (vel_Z 2 2),
      of_Z 7, S754_nan).
Proof.
  split; [reflexivity|].
  apply (SweptAABB_tie_keeps_normals (box_Z 0 0 1 1) (box_Z 2 2 3 3)
           (vel_Z 2 2) (of_Z 7) S754_nan); reflexivity.
Defined.

(** The first frame comes 0.01 after the start: the elapsed time does not
    exceed physicsStep and the accumulator stays empty. *)
Lemma checkTime_short_frame_counterexample :
  ~ adds_on_every_frame 8 no_stale (F64.literal 1 2) startup.
Proof.
  intros H.
  specialize (H O (Build_Globals 0 (F64.literal 1 2) F64.zero F64.zero 0
                     F64.zero (init blank)) eq_refl).
  vm_compute in H. discriminate H.
Qed.

(** After a frame at 0.022, which runs one update and leaves 0.010, a frame
    at 0.027 runs no update, where the sum 0.010 + 0.005 holds a step. *)
Example checkTime_late_update :
  exists g, checkTime 8 no_stale (F64.literal 22 3) startup = Some (1%nat, g)
    /\ option_map fst (checkTime 8 no_stale (F64.literal 27 3) g) = Some O
    /\ option_map (fun r => fst (fst r))
         (checkTime_every_frame 8 no_stale (F64.literal 27 3) g) =
       Some 1%nat.
Proof. eexists. split; [vm_compute; reflexivity|]. split; vm_compute; reflexivity. Qed.

(** In the demo the moving square approaches along the diagonal and the
    38th tick is a collision with equal entry times on the two axes: what
    the tick does to the velocity is decided by what the uninitialised
    locals hold.  With zeros the square goes on into the other one, with
    the debug fill it bounces on both axes. *)
Example demo_first_collision_is_a_tie :
  let dt := F64.to_float physicsStep in
  let o1 := CalculateAABB (obj1 before_impact) in
  let o2 := CalculateAABB (update_boundary (obj2 before_impact)) in
  let displacement := vec3.scale (velocity o2) dt in
  noCollision (aabb o2) (aabb o1) displacement = false
  /\ eq (xEntryTime (aabb o2) (aabb o1) displacement)
        (yEntryTime (aabb o2) (aabb o1) displacement) = true
  /\ velocity (obj2 (update (zero, zero) dt before_impact)) =
     vec3.make (SFopp speed) (SFopp speed) zero
  /\ velocity (obj2 (update (debug_fill, debug_fill) dt before_impact)) =
     vec3.make speed speed zero.
Proof. vm_compute. repeat split. Qed.

(** * Further properties of the code *)

(** ** The intersection test *)

Section Order.

Ltac order_cases ma mb mc ea eb ec :=
  change (Pos.compare_cont Eq ma mb) with (Pos.compare ma mb);
  change (Pos.compare_cont Eq mb mc) with (Pos.compare mb mc);
  change (Pos.compare_cont Eq ma mc) with (Pos.compare ma mc);
  destruct (Z.compare_spec ea eb), (Z.compare_spec eb ec),
    (Z.compare_spec ea ec); try lia;
  destruct (Pos.compare_spec ma mb), (Pos.compare_spec mb mc),
    (Pos.compare_spec ma mc); cbn [CompOpp];
  try discriminate; try reflexivity; intros; try discriminate; lia.

(** On numbers the order is transitive. *)
Lemma SFltb_leb_trans (a b c : spec_float) :
  SFltb a b = true -> SFleb b c = true -> SFltb a c = true.
Proof.
  unfold SFltb, SFleb.
  destruct a as [sa|sa| |sa ma ea], b as [sb|sb| |sb mb eb],
    c as [sc|sc| |sc mc ec]; cbn [SFcompare];
    try discriminate; try reflexivity;
    try (destruct sa; try discriminate; try reflexivity);
    try (destruct sb; try discriminate; try reflexivity);
    try (destruct sc; try discriminate; try reflexivity);
    try (intros; discriminate);
    order_cases ma mb mc ea eb ec.
Qed.

Lemma SFleb_ltb_trans (a b c : spec_float) :
  SFleb a b = true -> SFltb b c = true -> SFltb a c = true.
Proof.
  unfold SFltb, SFleb.
  destruct a as [sa|sa| |sa ma ea], b as [sb|sb| |sb mb eb],
    c as [sc|sc| |sc mc ec]; cbn [SFcompare];
    try discriminate; try reflexivity;
    try (destruct sa; try discriminate; try reflexivity);
    try (destruct sb; try discriminate; try reflexivity);
    try (destruct sc; try discriminate; try reflexivity);
    try (intros; discriminate);
    order_cases ma mb mc ea eb ec.
Qed.

Lemma SFleb_refl (a : spec_float) : is_nan a = false -> SFleb a a = true.
Proof.
  unfold SFleb. destruct a as [s|s| |s m e]; try discriminate; intros _;
    cbn [SFcompare]; try (destruct s; reflexivity).
  change (Pos.compare_cont Eq m m) with (Pos.compare m m).
  rewrite Z.compare_refl, Pos.compare_refl. destruct s; reflexivity.
Qed.

Lemma SFleb_not_nan (a b : spec_float) :
  SFleb a b = true -> is_nan a = false /\ is_nan b = false.
Proof. destruct a, b; try discriminate; split; reflexivity. Qed.

End Order.

Section Intersection.

Lemma TestAABB_true (a b : AABB) :
  TestAABB a b = true <->
  lt (hi X a) (lo X b) = false /\ lt (hi X b) (lo X a) = false
  /\ lt (hi Y a) (lo Y b) = false /\ lt (hi Y b) (lo Y a) = false.
Proof.
  unfold TestAABB, gt, lt. cbn [hi lo].
  destruct (SFltb (vec2.x (max a)) (vec2.x (min b))),
    (SFltb (vec2.x (max b)) (vec2.x (min a))),
    (SFltb (vec2.y (max a)) (vec2.y (min b))),
    (SFltb (vec2.y (max b)) (vec2.y (min a)));
    cbn [orb]; intuition congruence.
Qed.

(** Two intervals with a common point are not separated. *)
Lemma common_point (l1 h1 l2 h2 p : float) :
  le l2 p = true -> le p h1 = true -> lt h1 l2 = false.
Proof.
  intros A B. destruct (lt h1 l2) eqn:E; [|reflexivity].
  pose proof (SFltb_leb_trans _ _ _ E A) as C.
  apply SFltb_not_leb in C. unfold le in B. congruence.
Qed.

(** Two intervals that are not separated have the larger of the two lower
    ends in common. *)
Lemma meeting_point (l1 h1 l2 h2 : float) :
  le l1 h1 = true -> le l2 h2 = true ->
  lt h1 l2 = false -> lt h2 l1 = false ->
  let p := F32.max l1 l2 in
  le l1 p = true /\ le p h1 = true /\ le l2 p = true /\ le p h2 = true.
Proof.
  intros W1 W2 S1 S2. cbv zeta. unfold F32.max, le, lt in *.
  destruct (SFleb_not_nan _ _ W1) as [N1 N1'].
  destruct (SFleb_not_nan _ _ W2) as [N2 N2'].
  destruct (SFltb l1 l2) eqn:E.
  - repeat split; auto using SFltb_leb, SFleb_refl, SFltb_false_leb.
  - repeat split; auto using SFltb_leb, SFleb_refl, SFltb_false_leb.
Qed.

End Intersection.

(** X1: TestAABB does not depend on the order of its arguments, whatever
    the coordinates are. *)
Theorem TestAABB_sym (a b : AABB) : TestAABB a b = TestAABB b a.
Proof.
  unfold TestAABB, gt, lt.
  destruct (SFltb (vec2.x (max a)) (vec2.x (min b))),
    (SFltb (vec2.x (max b)) (vec2.x (min a))),
    (SFltb (vec2.y (max a)) (vec2.y (min b))),
    (SFltb (vec2.y (max b)) (vec2.y (min a))); reflexivity.
Qed.

(** X2: between two boxes whose lower corner is not above the upper corner,
    TestAABB holds exactly when some point lies in both, faces included. *)
Theorem TestAABB_common_point (a b : AABB) :
  well_formed a -> well_formed b ->
  (TestAABB a b = true <->
   exists px py : float, inside px py a /\ inside px py b).
Proof.
  intros [Wax Way] [Wbx Wby]. rewrite TestAABB_true. split.
  - intros (X1 & X2 & Y1 & Y2).
    destruct (meeting_point _ _ _ _ Wax Wbx X1 X2) as (? & ? & ? & ?).
    destruct (meeting_point _ _ _ _ Way Wby Y1 Y2) as (? & ? & ? & ?).
    exists (F32.max (lo X a) (lo X b)), (F32.max (lo Y a) (lo Y b)).
    unfold inside. auto 10.
  - intros (px & py & (A1 & A2 & A3 & A4) & (B1 & B2 & B3 & B4)).
    repeat split.
    + apply (common_point (lo X a) _ _ (hi X b) px); assumption.
    + apply (common_point (lo X b) _ _ (hi X a) px); assumption.
    + apply (common_point (lo Y a) _ _ (hi Y b) py); assumption.
    + apply (common_point (lo Y b) _ _ (hi Y a) py); assumption.
Qed.

(** X3: every comparison of TestAABB is false on a NaN, so a box whose four
    coordinates are NaN is never found separated: the test holds against
    every box, on either side. *)
Theorem TestAABB_nan (b : AABB) :
  TestAABB nan_box b = true /\ TestAABB b nan_box = true.
Proof.
  unfold TestAABB, nan_box, box, gt, lt, SFltb. cbn [min max vec2.x vec2.y SFcompare].
  split;
    destruct (vec2.x (max b)), (vec2.x (min b)),
      (vec2.y (max b)), (vec2.y (min b)); reflexivity.
Qed.

(** ** A sweep that starts from intersecting boxes *)

Section Overlap.

Lemma sub_self (x : float) : binary32 x -> exists s, sub x x = S754_zero s.
Proof.
  intros [V F].
  destruct (SFsub_round_units F32.prec F32.emax eq_refl eq_refl x x V V F F)
    as [E | [_ [s E]]].
  - rewrite Z.sub_diag in E. exists false. exact E.
  - exists s. exact E.
Qed.

Lemma sub_nonpos (a b : float) :
  binary32 a -> binary32 b -> le a b = true ->
  le (sub a b) zero = true /\ valid (sub a b) = true.
Proof.
  intros Ba Bb H.
  assert (R : le b b = true)
    by (apply SFleb_refl, is_finite_not_nan, Bb).
  destruct (binary32_sub_le a b b b Ba Bb Bb Bb H R) as (L & V & _).
  destruct (sub_self b Bb) as [s E]. rewrite E in L.
  rewrite SFleb_zero_r in L. split; assumption.
Qed.

Lemma sub_nonneg (a b : float) :
  binary32 a -> binary32 b -> le b a = true ->
  le zero (sub a b) = true /\ valid (sub a b) = true.
Proof.
  intros Ba Bb H.
  assert (R : le b b = true)
    by (apply SFleb_refl, is_finite_not_nan, Bb).
  destruct (binary32_sub_le b b a b Bb Bb Ba Bb H R) as (L & _ & V).
  destruct (sub_self b Bb) as [s E]. rewrite E in L.
  rewrite SFleb_zero_l in L. split; assumption.
Qed.

(** On an axis where the two boxes are not separated, the entry time is the
    2.0 of line 149 or is not positive. *)
Lemma axis_entry_overlap (c lo1 hi1 lo2 hi2 : float) :
  binary32 lo1 -> binary32 hi1 -> binary32 lo2 -> binary32 hi2 ->
  is_finite c = true ->
  lt hi1 lo2 = false -> lt hi2 lo1 = false ->
  axis_entry_time c lo1 hi1 lo2 hi2 = two
  \/ le (axis_entry_time c lo1 hi1 lo2 hi2) zero = true.
Proof.
  intros L1 H1 L2 H2 Fc S1 S2.
  unfold axis_entry_time.
  destruct (eq c zero) eqn:Ez.
  - destruct (gt _ _); [left|right]; reflexivity.
  - right. unfold axis_distance_entry.
    destruct c as [s|s| |s m e]; try discriminate Fc; [discriminate Ez|].
    destruct s.
    + change (gt (S754_finite true m e) zero) with false. cbv iota.
      assert (H : le lo1 hi2 = true).
      { apply SFltb_false_leb; auto using is_finite_not_nan.
        - apply is_finite_not_nan, H2.
        - apply is_finite_not_nan, L1. }
      destruct (sub_nonneg hi2 lo1 H2 L1 H) as [P V].
      pose proof (SFdiv_mono_neg F32.prec F32.emax eq_refl eq_refl
                    zero (sub hi2 lo1) m e eq_refl V P) as Q.
      exact Q.
    + change (gt (S754_finite false m e) zero) with true. cbv iota.
      assert (H : le lo2 hi1 = true).
      { apply SFltb_false_leb; auto.
        - apply is_finite_not_nan, H1.
        - apply is_finite_not_nan, L2. }
      destruct (sub_nonpos lo2 hi1 L2 H1 H) as [P V].
      pose proof (SFdiv_mono_pos F32.prec F32.emax eq_refl eq_refl
                    (sub lo2 hi1) zero m e V eq_refl P) as Q.
      exact Q.
Qed.

(** With entry times that are 2.0 or not positive, the result is the
    sentinel or a time equal to zero. *)
Lemma outcome_overlap (xDE yDE tx xExit ty yExit normalx normaly : float) :
  tx = two \/ le tx zero = true ->
  ty = two \/ le ty zero = true ->
  let r := outcome xDE yDE tx xExit ty yExit normalx normaly in
  r = (two, zero, zero) \/ eq (fst (fst r)) zero = true.
Proof.
  intros Hx Hy. cbv zeta. unfold outcome.
  destruct (gt (F32.max tx ty) (F32.min xExit yExit)
            || lt tx zero && lt ty zero || gt tx one || gt ty one) eqn:C;
    [left; reflexivity|right].
  apply orb_false_elim in C as [C Cy].
  apply orb_false_elim in C as [C Cx].
  apply orb_false_elim in C as [_ Cn].
  destruct Hx as [-> | Hx]; [discriminate Cx|].
  destruct Hy as [-> | Hy]; [discriminate Cy|].
  assert (T : eq (F32.max tx ty) zero = true).
  { clear - Hx Hy Cn. unfold F32.max, eq, le, lt, zero in *.
    destruct tx as [sx|sx| |sx mx ex]; try discriminate Hx;
      destruct ty as [sy|sy| |sy my ey]; try discriminate Hy;
      try (destruct sx; try discriminate Hx);
      try (destruct sy; try discriminate Hy);
      try discriminate Cn; reflexivity. }
  destruct (gt tx ty); [destruct (lt xDE zero); exact T|].
  destruct (gt ty tx); [destruct (lt yDE zero); exact T|exact T].
Qed.

End Overlap.

(** X4: for boxes with finite coordinates that TestAABB finds intersecting
    at the start of the step and a finite displacement, SweptAABB reports no
    collision (2.0 with the normal (0,0)) or a collision at a time equal to
    zero. *)
Theorem SweptAABB_from_overlap (box1 box2 : AABB) (vel1 : vec3.t)
    (normalx normaly : float) :
  binary32_AABB box1 -> binary32_AABB box2 -> finite_displacement vel1 ->
  TestAABB box1 box2 = true ->
  let r := SweptAABB box1 box2 vel1 normalx normaly in
  r = (two, zero, zero) \/ eq (fst (fst r)) zero = true.
Proof.
  intros (A1 & A2 & A3 & A4) (B1 & B2 & B3 & B4) [Fx Fy] T.
  apply TestAABB_true in T as (X1 & X2 & Y1 & Y2).
  cbv zeta. unfold SweptAABB. apply outcome_overlap.
  - apply (axis_entry_overlap (component X vel1)
             (lo X box1) (hi X box1) (lo X box2) (hi X box2)); assumption.
  - apply (axis_entry_overlap (component Y vel1)
             (lo Y box1) (hi Y box1) (lo Y box2) (hi Y box2)); assumption.
Qed.

(** ** The direction of the normal *)

Section Normal.

(** A positive quotient: dividend and divisor have the same sign. *)
Lemma div_sign (d c : float) :
  lt zero (div d c) = true -> eq c zero = false ->
  (lt zero d = true /\ lt zero c = true)
  \/ (lt d zero = true /\ lt c zero = true).
Proof.
  unfold div.
  destruct d as [sd|sd| |sd md ed], c as [sc|sc| |sc mc ec];
    cbn [SFdiv]; try discriminate;
    try (destruct sd, sc; try discriminate; intros _ _;
         [right|left]; split; reflexivity).
  intros H _.
  destruct (SFdiv_core_binary _ _ _ _ _ _) as [[mz ez] lz].
  pose proof (binary_round_aux_sign (xorb sd sc) mz ez lz) as Hs.
  destruct (binary_round_aux prec emax (xorb sd sc) mz ez lz)
    as [s|s| |s m e]; try discriminate H;
    subst s; destruct sd, sc; try discriminate H;
    [right|left|right|left]; split; reflexivity.
Qed.

(** The entry time of an axis, when it is positive and at most 1, is a
    quotient by a displacement that is not zero. *)
Lemma axis_entry_positive (c lo1 hi1 lo2 hi2 : float) :
  lt zero (axis_entry_time c lo1 hi1 lo2 hi2) = true ->
  gt (axis_entry_time c lo1 hi1 lo2 hi2) one = false ->
  eq c zero = false
  /\ lt (axis_distance_entry c lo1 hi1 lo2 hi2) zero =
     (if gt c zero then false else true)
  /\ (gt c zero = true \/ lt c zero = true).
Proof.
  unfold axis_entry_time. destruct (eq c zero) eqn:Ez.
  - destruct (gt _ _); discriminate.
  - intros H _. split; [reflexivity|].
    destruct (div_sign _ _ H Ez) as [[Hd Hc] | [Hd Hc]].
    + change (gt c zero) with (lt zero c). rewrite Hc.
      split; [|left; reflexivity].
      apply (lt_not_gt _ _ Hd).
    + rewrite (lt_not_gt _ _ Hc). split; [exact Hd|right; exact Hc].
Qed.

(** An entry time above another one, in the collision branch, is a quotient
    by a displacement that is not zero. *)
Lemma axis_entry_later (c lo1 hi1 lo2 hi2 t : float) :
  gt (axis_entry_time c lo1 hi1 lo2 hi2) t = true ->
  gt (axis_entry_time c lo1 hi1 lo2 hi2) one = false ->
  eq c zero = false.
Proof.
  unfold axis_entry_time. destruct (eq c zero); [|reflexivity].
  destruct (gt (F32.max _ _) _); [discriminate|].
  intros H _. change (lt t neg_infinity = true) in H.
  rewrite (lt_neg_infinity t) in H. discriminate H.
Qed.

Lemma noCollision_false (box1 box2 : AABB) (vel1 : vec3.t) :
  noCollision box1 box2 vel1 = false ->
  forall ax, gt (EntryTime ax box1 box2 vel1) one = false.
Proof.
  unfold noCollision. intros H.
  apply orb_false_elim in H as [H Hy].
  apply orb_false_elim in H as [_ Hx].
  intros [|]; assumption.
Qed.

(** The branch of lines 216-239 that an entry time above the other one
    selects. *)
Lemma SweptAABB_later_axis (ax : axis) (box1 box2 : AABB) (vel1 : vec3.t)
    (normalx normaly : float) :
  noCollision box1 box2 vel1 = false ->
  gt (EntryTime ax box1 box2 vel1) (EntryTime (other ax) box1 box2 vel1)
  = true ->
  let r := SweptAABB box1 box2 vel1 normalx normaly in
  fst (fst r) = entryTime box1 box2 vel1
  /\ normal_on ax r =
     (if lt (DistanceEntry ax box1 box2 vel1) zero then one else minus_one)
  /\ normal_on (other ax) r = zero.
Proof.
  intros Hc Hgt. cbv zeta. rewrite SweptAABB_unfold, Hc.
  destruct ax; cbn [EntryTime other DistanceEntry normal_on] in *.
  - rewrite Hgt. destruct (lt _ zero); repeat split.
  - rewrite (lt_not_gt _ _ Hgt), Hgt. destruct (lt _ zero); repeat split.
Qed.

End Normal.

(** X5: whenever a collision is reported whose axis (the one with the later
    entry time) has a positive entry time, the box moves along that axis and
    the normal opposes the travel: -1 for a positive displacement, +1 for a
    negative one; the normal is zero on the other axis. *)
Theorem normal_opposes_travel (ax : axis) (box1 box2 : AABB) (vel1 : vec3.t)
    (normalx normaly : float) :
  noCollision box1 box2 vel1 = false ->
  gt (EntryTime ax box1 box2 vel1) (EntryTime (other ax) box1 box2 vel1)
  = true ->
  lt zero (EntryTime ax box1 box2 vel1) = true ->
  let r := SweptAABB box1 box2 vel1 normalx normaly in
  let c := component ax vel1 in
  (gt c zero = true \/ lt c zero = true)
  /\ normal_on ax r = (if gt c zero then minus_one else one)
  /\ normal_on (other ax) r = zero.
Proof.
  intros Hc Hgt Hpos. cbv zeta.
  destruct (SweptAABB_later_axis ax box1 box2 vel1 normalx normaly Hc Hgt)
    as (_ & Hn & Ho).
  pose proof (noCollision_false _ _ _ Hc ax) as H1.
  destruct (axis_quantities ax box1 box2 vel1) as (Ed & _ & Et & _).
  cbv zeta in Ed, Et. rewrite Et in Hpos, H1.
  destruct (axis_entry_positive _ _ _ _ _ Hpos H1) as (_ & Hs & Hdir).
  rewrite <- Ed in Hs. rewrite Hn, Hs.
  split; [exact Hdir|]. split; [|exact Ho].
  destruct (gt (component ax vel1) zero); reflexivity.
Qed.

(** X6: a reported collision whose two entry times differ never has a diagonal
    normal, and never a normal on an axis along which the box does not
    move: the normal is +1 or -1 on the axis of the later entry, whose
    displacement is not zero, and 0 on the other axis. *)
Theorem normal_on_moving_axis (ax : axis) (box1 box2 : AABB) (vel1 : vec3.t)
    (normalx normaly : float) :
  noCollision box1 box2 vel1 = false ->
  gt (EntryTime ax box1 box2 vel1) (EntryTime (other ax) box1 box2 vel1)
  = true ->
  let r := SweptAABB box1 box2 vel1 normalx normaly in
  eq (component ax vel1) zero = false
  /\ (normal_on ax r = one \/ normal_on ax r = minus_one)
  /\ normal_on (other ax) r = zero.
Proof.
  intros Hc Hgt. cbv zeta.
  destruct (SweptAABB_later_axis ax box1 box2 vel1 normalx normaly Hc Hgt)
    as (_ & Hn & Ho).
  pose proof (noCollision_false _ _ _ Hc ax) as H1.
  destruct (axis_quantities ax box1 box2 vel1) as (_ & _ & Et & _).
  cbv zeta in Et. rewrite Et in Hgt, H1.
  split; [exact (axis_entry_later _ _ _ _ _ _ Hgt H1)|].
  split; [|exact Ho]. rewrite Hn.
  destruct (lt _ zero); [left|right]; reflexivity.
Qed.

(** ** The frames of the main loop *)

Section Frames.

Lemma drain_full_21 :
  units F64.prec F64.emax (drain 21 full) < units F64.prec F64.emax physicsStep.
Proof. vm_compute. reflexivity. Qed.

(** What one call of [checkTime] does to the globals. *)
Lemma checkTime_frame (fuel : nat) (stale : nat -> float * float)
    (now : F64.double) (g : Globals) :
  binary64 now -> binary64 (timebase g) ->
  between_frames (accumulator g) -> (21 <= fuel)%nat ->
  exists n g', checkTime fuel stale now g = Some (n, g')
    /\ (n <= 21)%nat
    /\ (F64.gt (F64.sub now (timebase g)) physicsStep = true -> (1 <= n)%nat)
    /\ (F64.gt (F64.sub now (timebase g)) physicsStep = false -> n = O)
    /\ between_frames (accumulator g')
    /\ binary64 (timebase g')
    /\ (frame g' = frame g \/ frame g' = 0)
    /\ world g' = updates n stale (world g).
Proof.
  intros [Vn Fn] [Vt Ft] Hacc Hfuel.
  destruct (F64.gt (F64.sub now (timebase g)) physicsStep) eqn:Hgate.
  - assert (Vdt : valid_binary F64.prec F64.emax (F64.sub now (timebase g))
                  = true)
      by (apply (SFsub_valid F64.prec F64.emax eq_refl eq_refl); auto).
    destruct Hacc as ([Va Fa] & H0 & H1).
    destruct (clamped_between _ Vdt Hgate) as ([Vc Fc] & Hcs & Hcq).
    cbv zeta in *.
    set (clamped := if F64.gt (F64.sub now (timebase g)) quarter
                    then quarter else F64.sub now (timebase g)) in *.
    set (acc0 := F64.add (accumulator g) clamped).
    unfold F64.ge, F64.lt in H0, H1. apply SFltb_leb in H1.
    assert (Hlo : SFleb physicsStep acc0 = true).
    { pose proof (SFadd_mono F64.prec F64.emax eq_refl eq_refl
                    F64.zero physicsStep (accumulator g) clamped
                    eq_refl eq_refl Va Vc eq_refl eq_refl Fa Fc H0 Hcs) as H.
      exact H. }
    assert (Hhi : SFleb acc0 full = true).
    { apply (SFadd_mono F64.prec F64.emax eq_refl eq_refl); auto. }
    assert (B0 : binary64 acc0).
    { split.
      - apply (SFadd_valid F64.prec F64.emax eq_refl eq_refl); auto.
      - apply (sandwiched_finite acc0 physicsStep full); auto. }
    assert (H21 : (21 <= 22)%nat) by lia.
    pose proof (drain_between acc0 B0 Hlo Hhi) as Hd.
    assert (Hend : F64.ge (drain 21 acc0) physicsStep = false).
    { destruct (Hd 21%nat H21) as (B21 & _ & U21).
      destruct (drain_table 21 H21) as (_ & BU).
      exact (below_step _ _ B21 BU U21 drain_full_21). }
    destruct (first_exit acc0 21 Hend) as (n & Hn & Hall & Hstop).
    assert (Hn1 : (1 <= n)%nat).
    { destruct n as [|n]; [|lia]. cbn [drain] in Hstop.
      unfold F64.ge in Hstop. congruence. }
    assert (Hn22 : (n <= 22)%nat) by lia.
    destruct (Hd n Hn22) as ([Vd Fd] & _ & _).
    assert (Hnf : (n <= fuel)%nat) by lia.
    assert (Hret : exists g', checkTime fuel stale now g = Some (n, g')
                     /\ accumulator g' = drain n acc0
                     /\ timebase g' = now
                     /\ (frame g' = frame g \/ frame g' = 0)
                     /\ world g' = updates n stale (world g)).
    { unfold checkTime. rewrite Hgate.
      fold clamped. fold acc0.
      rewrite (proj2 (physics_loop_spec fuel stale acc0 (world g) n _ _)
                 (conj Hnf (conj eq_refl (conj eq_refl (conj Hall Hstop))))).
      destruct (F64.gt (F64.sub now (FPSTime g)) F64.one);
        eexists; repeat split; auto. }
    destruct Hret as (g' & Hret & Ea & Et & Ef & Ew).
    exists n, g'. split; [exact Hret|]. split; [exact Hn|].
    split; [intros _; exact Hn1|]. split; [discriminate|].
    rewrite Ea, Et. repeat split; auto.
    + destruct n as [|m]; [lia|].
      assert (Hm : (m < S m)%nat) by lia.
      specialize (Hall m Hm). unfold F64.ge in Hall |- *.
      assert (Hm22 : (m <= 22)%nat) by lia.
      destruct (Hd m Hm22) as ([Vm Fm] & _ & _).
      rewrite drain_succ. unfold F64.sub.
      rewrite <- sub_step_step.
      apply (SFsub_mono F64.prec F64.emax eq_refl eq_refl); auto.
    + unfold F64.lt, F64.ge in *.
      apply SFleb_false_ltb; auto.
      destruct (drain n acc0); try reflexivity; discriminate Fd.
  - exists O. eexists. unfold checkTime. rewrite Hgate.
    split; [reflexivity|]. cbn [accumulator timebase frame world updates].
    repeat split; auto; try lia; try apply Hacc.
Qed.

End Frames.

(** X7: a call of [checkTime] with a finite clock, made between two frames,
    runs at most 21 calls of [update]; fuel 21 is enough for every such call,
    and a frame that comes a second late on an accumulator of 0.011 does
    run 21 calls. *)
Theorem checkTime_at_most_21 (fuel : nat) (stale : nat -> float * float)
    (now : F64.double) (g : Globals) :
  (binary64 now -> binary64 (timebase g) ->
   between_frames (accumulator g) -> (21 <= fuel)%nat ->
   exists n g', checkTime fuel stale now g = Some (n, g')
     /\ (n <= 21)%nat /\ world g' = updates n stale (world g))
  /\ between_frames (accumulator nearly_full)
  /\ option_map fst (checkTime fuel stale F64.one nearly_full) =
     (if (21 <=? fuel)%nat then Some 21%nat else None).
Proof.
  split; [|split].
  - intros Bn Bt Hacc Hfuel.
    destruct (checkTime_frame fuel stale now g Bn Bt Hacc Hfuel)
      as (n & g' & Hr & Hn & _ & _ & _ & _ & _ & Hw).
    exists n, g'. auto.
  - repeat split.
  - unfold checkTime.
    replace (F64.gt (F64.sub F64.one (timebase nearly_full)) physicsStep)
      with true by (vm_compute; reflexivity).
    replace (F64.gt (F64.sub F64.one (timebase nearly_full)) quarter)
      with true by (vm_compute; reflexivity).
    destruct (if F64.gt (F64.sub F64.one (FPSTime nearly_full)) F64.one
              then _ else _) as [[frame' fps'] FPSTime'].
    set (acc0 := F64.add (accumulator nearly_full) quarter).
    assert (Hall : forall i, (i < 21)%nat ->
                     F64.ge (drain i acc0) physicsStep = true).
    { intros i Hi.
      do 21 (destruct i as [|i]; [vm_compute; reflexivity|]). lia. }
    assert (Hstop : F64.ge (drain 21 acc0) physicsStep = false)
      by (vm_compute; reflexivity).
    destruct (21 <=? fuel)%nat eqn:Hf.
    + apply Nat.leb_le in Hf.
      rewrite (proj2 (physics_loop_spec fuel stale acc0
                        (world nearly_full) 21 _ _)
                 (conj Hf (conj eq_refl (conj eq_refl (conj Hall Hstop))))).
      reflexivity.
    + apply Nat.leb_gt in Hf.
      destruct (physics_loop fuel stale acc0 (world nearly_full))
        as [[[k a] u]|] eqn:L; [|reflexivity].
      apply physics_loop_spec in L as (Hk & _ & _ & Hk1 & Hk2).
      assert (Hlt : (k < 21)%nat) by lia.
      rewrite (Hall k Hlt) in Hk2. discriminate Hk2.
Qed.

(** X8: the main loop, on frames whose clock values are finite numbers,
    started between two frames: every frame returns with fuel 21, the frames
    make at most 21 calls of [update] each, the counter of frames does not
    overflow as long as it starts below INT_MAX minus the number of frames,
    and the globals are between two frames again at the end. *)
Theorem main_loop_terminates (fuel : nat) (frames : list frame_input)
    (g : Globals) :
  (21 <= fuel)%nat ->
  Forall (fun f : frame_input => binary64 (fst f)) frames ->
  frame_invariant g ->
  frame g + Z.of_nat (length frames) <= INT_MAX ->
  exists n g', main_loop fuel frames g = Some (n, g')
    /\ (n <= 21 * length frames)%nat
    /\ frame_invariant g'
    /\ frame g' <= frame g + Z.of_nat (length frames).
Proof.
  intros Hfuel Hfin. revert g.
  induction Hfin as [|[now stale] rest Hnow _ IH]; intros g (Ha & Ht & Hf) Hmax.
  - exists O, g. cbn [main_loop length].
    split; [reflexivity|]. split; [lia|].
    split; [exact (conj Ha (conj Ht Hf))|]. lia.
  - cbn [fst] in Hnow. cbn [length] in Hmax. cbn [main_loop].
    destruct (checkTime_frame fuel stale now g Hnow Ht Ha Hfuel)
      as (n & g1 & Hr & Hn & _ & _ & Ha1 & Ht1 & Hf1 & _).
    rewrite Hr.
    assert (Hlt : (frame g1 <? INT_MAX) = true)
      by (apply Z.ltb_lt; unfold INT_MAX in *; destruct Hf1; lia).
    rewrite Hlt.
    destruct (IH (Build_Globals (frame g1 + 1) (time g1) (timebase g1)
                    (accumulator g1) (fps g1) (FPSTime g1) (world g1)))
      as (k & g' & Hk & Hkn & Hinv & Hfr).
    + split; [exact Ha1|]. split; [exact Ht1|].
      cbn [frame]. destruct Hf1; lia.
    + cbn [frame]. apply Z.ltb_lt in Hlt. lia.
    + rewrite Hk. exists (n + k)%nat, g'.
      split; [reflexivity|]. split; [cbn [length]; lia|].
      split; [exact Hinv|]. cbn [frame length] in *. destruct Hf1; lia.
Qed.

(** ** A box that has left; the signs of the velocity *)

Section Receding.

Variables box1 box2 : AABB.
Variable vel1 : vec3.t.
Hypothesis Hbox1 : finite_AABB box1.
Hypothesis Hbox2 : finite_AABB box2.
Hypothesis Hvel : finite_displacement vel1.

Lemma ExitTime_not_nan (ax : axis) :
  is_nan (ExitTime ax box1 box2 vel1) = false.
Proof.
  destruct Hbox1 as (? & ? & ? & ?), Hbox2 as (? & ? & ? & ?),
    Hvel as (? & ?).
  destruct ax; cbn [ExitTime]; unfold xExitTime, yExitTime.
  - destruct (eq (vec3.x vel1) zero) eqn:E; [reflexivity|].
    apply SFdiv_not_nan; auto.
    unfold xDistanceExit. destruct (gt _ _); apply SFsub_not_nan; auto.
  - destruct (eq (vec3.y vel1) zero) eqn:E; [reflexivity|].
    apply SFdiv_not_nan; auto.
    unfold yDistanceExit. destruct (gt _ _); apply SFsub_not_nan; auto.
Qed.

(** The earlier of the two exit times is negative as soon as one is. *)
Lemma exitTime_negative (ax : axis) :
  lt (ExitTime ax box1 box2 vel1) zero = true ->
  lt (exitTime box1 box2 vel1) zero = true.
Proof.
  pose proof (ExitTime_not_nan X) as Nx.
  pose proof (ExitTime_not_nan Y) as Ny.
  cbn [ExitTime] in Nx, Ny.
  unfold exitTime, F32.min, lt.
  destruct ax; cbn [ExitTime]; intros H;
    destruct (SFltb (yExitTime box1 box2 vel1) (xExitTime box1 box2 vel1))
      eqn:E; try exact H.
  - apply (SFltb_leb_trans _ _ _ E), SFltb_leb, H.
  - apply (SFleb_ltb_trans _ (yExitTime box1 box2 vel1)); [|exact H].
    apply SFltb_false_leb; assumption.
Qed.

End Receding.

(** X9: a box that has left the other one on some axis before the step begins
    (the exit time of that axis is negative) is reported as not colliding,
    whatever happens on the other axis. *)
Theorem SweptAABB_already_left (ax : axis) (box1 box2 : AABB) (vel1 : vec3.t)
    (normalx normaly : float) :
  finite_AABB box1 -> finite_AABB box2 -> finite_displacement vel1 ->
  lt (ExitTime ax box1 box2 vel1) zero = true ->
  SweptAABB box1 box2 vel1 normalx normaly = (two, zero, zero).
Proof.
  intros H1 H2 Hv Hneg.
  rewrite SweptAABB_unfold.
  destruct (noCollision box1 box2 vel1) eqn:C; [reflexivity|exfalso].
  destruct (collision_time_bounds _ _ _ H1 H2 Hv C) as [H0 _].
  pose proof (exitTime_negative _ _ _ H1 H2 Hv ax Hneg) as Hx.
  pose proof (SFltb_leb_trans _ _ _ Hx H0) as Hlt.
  unfold noCollision in C.
  apply orb_false_elim in C as [C _].
  apply orb_false_elim in C as [C _].
  apply orb_false_elim in C as [C _].
  unfold gt, lt in C. congruence.
Qed.

Section Signs.

Lemma same_or_opposite_refl (a : float) : same_or_opposite a a.
Proof. left. reflexivity. Qed.

Lemma SFopp_involutive (a : float) : SFopp (SFopp a) = a.
Proof. destruct a; cbn [SFopp]; rewrite ?negb_involutive; reflexivity. Qed.

Lemma valid_SFopp (a : float) : valid (SFopp a) = valid a.
Proof. destruct a; reflexivity. Qed.

Lemma flip_l (a b : float) :
  valid a = true -> same_or_opposite a b ->
  same_or_opposite a (mul minus_one b).
Proof.
  intros V [-> | ->].
  - right. apply mul_minus_one_l, V.
  - left. rewrite mul_minus_one_l by (rewrite valid_SFopp; exact V).
    apply SFopp_involutive.
Qed.

Lemma flip_r (a b : float) :
  valid a = true -> same_or_opposite a b ->
  same_or_opposite a (mul b minus_one).
Proof.
  intros V [-> | ->].
  - right. apply mul_minus_one_r, V.
  - left. rewrite mul_minus_one_r by (rewrite valid_SFopp; exact V).
    apply SFopp_involutive.
Qed.

End Signs.

(** X10: a tick changes the velocity of the moving body by signs only: after
    [update], whatever the step, the boxes and the contents of the
    uninitialised locals, each of the x and y components is what it was or
    its opposite, and the z component is what it was. *)
Theorem update_velocity_signs (normals : float * float) (dt : float)
    (w : World) :
  valid (vec3.x (velocity (obj2 w))) = true ->
  valid (vec3.y (velocity (obj2 w))) = true ->
  let v := velocity (obj2 w) in
  let v' := velocity (obj2 (update normals dt w)) in
  same_or_opposite (vec3.x v) (vec3.x v')
  /\ same_or_opposite (vec3.y v) (vec3.y v')
  /\ vec3.z v' = vec3.z v.
Proof.
  intros Vx Vy. cbv zeta.
  assert (B : same_or_opposite (vec3.x (velocity (obj2 w)))
                (vec3.x (velocity (update_boundary (obj2 w))))
              /\ same_or_opposite (vec3.y (velocity (obj2 w)))
                   (vec3.y (velocity (update_boundary (obj2 w))))
              /\ vec3.z (velocity (update_boundary (obj2 w))) =
                 vec3.z (velocity (obj2 w))).
  { rewrite velocity_update_boundary. cbn [vec3.x vec3.y vec3.z].
    destruct (gt _ bound_x), (gt _ bound_y);
      auto using flip_l, same_or_opposite_refl. }
  destruct B as (Bx & By & Bz).
  unfold update, update_collide. cbn [obj1 obj2].
  destruct (SweptAABB _ _ _ _ _) as [[collisionTime normalx] normaly].
  destruct (ge _ zero); cbn [obj2].
  - rewrite velocity_Update. unfold SetVelocity. cbn [velocity].
    unfold bounce, GetVelocity. rewrite velocity_CalculateAABB.
    destruct (gt (fabsf normalx) epsilon), (gt (fabsf normaly) epsilon);
      cbn [vec3.x vec3.y vec3.z]; auto using flip_r.
  - rewrite velocity_Update, velocity_CalculateAABB. auto.
Qed.

(** ** Products and quotients in the format *)

Section Products.

Variables prec emax : Z.
Hypothesis Hprec : 0 < prec.
Hypothesis Hemax : prec < emax.

(** A number of the format is its own rounding. *)
Lemma rnd_pair_id (m : positive) (e : Z) :
  bounded prec emax m e = true ->
  fine prec emax (Zpos m) 1 e
  /\ rnd_pair prec emax (Zpos m) 1 e = (Zpos m, e).
Proof.
  intros B. destruct (bounded_facts prec emax Hprec _ _ B) as (R & C & U & _).
  assert (Hf : fine prec emax (Zpos m) 1 e).
  { unfold fine. rewrite Z.div_1_r, C. lia. }
  split; [exact Hf|].
  pose proof (rnd_pair_fine prec emax Hprec Hemax (Zpos m) 1 e
                ltac:(lia) ltac:(lia) Hf) as (_ & _ & P & _).
  cbv zeta in P. rewrite Z.div_1_r, C, Z.sub_diag in P.
  change (1 * 2 ^ 0) with 1 in P.
  assert (Er : rne (Zpos m) 1 = Zpos m).
  { unfold rne. rewrite Z.div_1_r, Z.mod_1_r. reflexivity. }
  rewrite Er in P. exact (P U).
Qed.

(** The product of two mantissas of the format, at the sum of their
    exponents, needs no finer representation. *)
Lemma product_fine (m1 : positive) (e1 : Z) (m2 : positive) (e2 : Z) :
  bounded prec emax m1 e1 = true -> bounded prec emax m2 e2 = true ->
  fine prec emax (Zpos m1 * Zpos m2) 1 (e1 + e2).
Proof.
  intros B1 B2.
  destruct (bounded_facts prec emax Hprec _ _ B1) as (R1 & C1 & _ & _).
  destruct (bounded_facts prec emax Hprec _ _ B2) as (R2 & C2 & _ & _).
  pose proof (Zdigits2_bounds (Zpos m1) ltac:(lia)) as [L1 _].
  pose proof (Zdigits2_bounds (Zpos m2) ltac:(lia)) as [L2 _].
  set (d1 := Zdigits2 (Zpos m1)) in *. set (d2 := Zdigits2 (Zpos m2)) in *.
  assert (D1 : 1 <= d1) by (unfold d1; cbn; lia).
  assert (D2 : 1 <= d2) by (unfold d2; cbn; lia).
  assert (HN : 2 ^ (d1 + d2 - 2) <= Zpos m1 * Zpos m2).
  { replace (d1 + d2 - 2) with ((d1 - 1) + (d2 - 1)) by lia.
    rewrite Z.pow_add_r by lia.
    pose proof (Z.pow_pos_nonneg 2 (d1 - 1) ltac:(lia) ltac:(lia)).
    pose proof (Z.pow_pos_nonneg 2 (d2 - 1) ltac:(lia) ltac:(lia)).
    nia. }
  assert (H0 : 0 <= d1 + d2 - 2) by lia.
  pose proof (Zdigits2_ge _ _ H0 HN) as Hd.
  unfold fine. rewrite Z.div_1_r.
  unfold fexp, emin in *. lia.
Qed.

(** Multiplying by a number of magnitude at most 1 does not overflow. *)
Lemma SFmul_unit_finite (s1 : bool) (m1 : positive) (e1 : Z)
    (s2 : bool) (m2 : positive) (e2 : Z) :
  bounded prec emax m1 e1 = true -> bounded prec emax m2 e2 = true ->
  e1 <= 0 -> Zpos m1 <= 2 ^ (- e1) ->
  is_finite (SFmul prec emax (S754_finite s1 m1 e1) (S754_finite s2 m2 e2))
  = true.
Proof.
  intros B1 B2 He Hm. cbn [SFmul].
  destruct (rnd_pair_int (Zpos m1 * Zpos m2) (e1 + e2)) as [Eq El].
  change (Zpos (m1 * m2)) with (Zpos m1 * Zpos m2).
  rewrite <- Eq at 1. rewrite <- El.
  rewrite binary_round_aux_pair by lia.
  pose proof (product_fine m1 e1 m2 e2 B1 B2) as F1.
  destruct (rnd_pair_id m2 e2 B2) as [F2 I2].
  destruct (rnd_pair_refine prec emax Hprec (Zpos m2) 1 e2 (- e1)
              ltac:(lia) ltac:(lia) ltac:(lia) F2) as [F2' R2].
  replace (e2 - - e1) with (e1 + e2) in * by lia.
  pose proof (Z.pow_pos_nonneg 2 (- e1) ltac:(lia) ltac:(lia)) as Hp.
  destruct (round_mono_same prec emax Hprec Hemax 1 (e1 + e2)
              (Zpos m1 * Zpos m2) (Zpos m2 * 2 ^ (- e1))
              ltac:(lia) ltac:(nia) F1 F2') as [L _].
  rewrite R2, I2 in L.
  destruct (bounded_facts prec emax Hprec _ _ B2) as (R & _).
  destruct (rnd_pair prec emax (Zpos m1 * Zpos m2) 1 (e1 + e2)) as [M E].
  destruct L as [L | (L1 & _ & L)]; cbn [fst snd] in *.
  - subst M. reflexivity.
  - destruct M as [|p|p]; try lia. cbn [build].
    destruct (Z.leb_spec E (emax - prec)); [reflexivity|lia].
Qed.

(** A quotient is a value of the format. *)
Lemma SFdiv_valid (a b : spec_float) :
  valid_binary prec emax (SFdiv prec emax a b) = true.
Proof.
  destruct a as [sa|sa| |sa ma ea], b as [sb|sb| |sb mb eb];
    try reflexivity.
  rewrite SFdiv_finite by assumption.
  destruct (div_fine prec emax Hprec ma ea mb eb) as [Hs Hf].
  cbv zeta in Hs, Hf.
  pose proof (pow_pos _ Hs) as Hp.
  assert (HN : 0 <= Zpos ma * 2 ^ (ea - eb - div_exp prec emax ma ea mb eb))
    by nia.
  assert (HD : 0 < Zpos mb) by lia.
  apply build_valid.
  apply (rnd_pair_bounded prec emax Hprec Hemax _ (Zpos mb) _ HN HD Hf).
Qed.

End Products.

(** ** The two branches of the tick *)

Section Branch.

(** A number of the format that is at most 1. *)
Lemma le_one_bound (m : positive) (e : Z) :
  bounded F32.prec F32.emax m e = true ->
  le (S754_finite false m e) one = true ->
  e <= 0 /\ Zpos m <= 2 ^ (- e).
Proof.
  intros B H.
  destruct (bounded_facts F32.prec F32.emax eq_refl _ _ B) as (R & _).
  pose proof (SFleb_units F32.prec F32.emax eq_refl
                (S754_finite false m e) one B eq_refl eq_refl eq_refl H) as U.
  cbn [units cond_Zopp] in U. unfold one in U. cbn [units cond_Zopp] in U.
  change (emin F32.prec F32.emax) with (- 149) in *.
  change (Zpos 8388608) with (2 ^ 23) in U.
  rewrite <- (pow_split 23 (-23 - -149)) in U by lia.
  replace (23 + (-23 - -149)) with 149 in U by lia.
  assert (P : 0 < 2 ^ (e - -149)) by (apply Z.pow_pos_nonneg; lia).
  assert (He : e <= 0).
  { destruct (Z_le_gt_dec e 0) as [A|A]; [exact A|exfalso].
    assert (2 ^ 149 < 2 ^ (e - -149)) by (apply Z.pow_lt_mono_r; lia).
    nia. }
  split; [exact He|].
  replace (2 ^ 149) with (2 ^ (- e + (e - -149))) in U by (f_equal; lia).
  rewrite (pow_split (- e) (e - -149)) in U by lia.
  apply (Z.mul_le_mono_pos_r _ _ _ P). exact U.
Qed.

(** The product of a time in [0,1] and a finite step is finite. *)
Lemma mul_unit (t d : float) :
  binary32 t -> binary32 d -> le zero t = true -> le t one = true ->
  is_finite (mul t d) = true.
Proof.
  intros [Vt Ft] [Vd Fd] H0 H1.
  destruct t as [st|st| |st mt et]; try discriminate Ft;
    destruct d as [sd|sd| |sd md ed]; try discriminate Fd;
    try reflexivity.
  destruct st; [discriminate H0|].
  destruct (le_one_bound mt et Vt H1) as [He Hm].
  apply (SFmul_unit_finite F32.prec F32.emax eq_refl eq_refl); assumption.
Qed.

(** The rest of the step after a time in [0,1] is in [0,1]. *)
Lemma remaining_unit (t : float) :
  valid t = true -> le zero t = true -> le t one = true ->
  binary32 (sub one t) /\ le zero (sub one t) = true
  /\ le (sub one t) one = true.
Proof.
  intros V H0 H1.
  assert (F : is_finite t = true)
    by (apply (sandwiched_finite t zero one); auto).
  assert (L : SFleb (sub one one) (sub one t) = true).
  { apply (SFsub_mono F32.prec F32.emax eq_refl eq_refl); auto. }
  assert (U : SFleb (sub one t) (sub one zero) = true).
  { apply (SFsub_mono F32.prec F32.emax eq_refl eq_refl); auto. }
  change (sub one one) with zero in L. change (sub one zero) with one in U.
  split; [split|split]; auto.
  - apply (SFsub_valid F32.prec F32.emax eq_refl eq_refl); auto.
  - apply (sandwiched_finite _ zero one); auto.
Qed.

Variables box1 box2 : AABB.
Variable vel1 : vec3.t.

Lemma entryTime_valid : valid (entryTime box1 box2 vel1) = true.
Proof.
  unfold entryTime, F32.max, xEntryTime, yEntryTime, valid, div.
  destruct (lt _ _).
  - destruct (eq (vec3.y vel1) zero); [destruct (gt _ _); reflexivity|].
    apply (SFdiv_valid F32.prec F32.emax eq_refl eq_refl).
  - destruct (eq (vec3.x vel1) zero); [destruct (gt _ _); reflexivity|].
    apply (SFdiv_valid F32.prec F32.emax eq_refl eq_refl).
Qed.

Hypothesis Hbox1 : finite_AABB box1.
Hypothesis Hbox2 : finite_AABB box2.
Hypothesis Hvel : finite_displacement vel1.

(** The returned time, as [update] reads it at line 289. *)
Lemma returned_time (normalx normaly : float) :
  let t := fst (fst (SweptAABB box1 box2 vel1 normalx normaly)) in
  (noCollision box1 box2 vel1 = true /\ t = two
   /\ ge (sub one t) zero = false)
  \/ (noCollision box1 box2 vel1 = false
      /\ valid t = true /\ le zero t = true /\ le t one = true
      /\ ge (sub one t) zero = true).
Proof.
  cbv zeta. destruct (noCollision box1 box2 vel1) eqn:C.
  - left. rewrite SweptAABB_unfold, C. repeat split.
  - right. rewrite (SweptAABB_collision_time _ _ _ normalx normaly C).
    destruct (collision_time_bounds _ _ _ Hbox1 Hbox2 Hvel C) as [H0 H1].
    pose proof entryTime_valid as V.
    destruct (remaining_unit _ V H0 H1) as (_ & R & _).
    repeat split; auto.
Qed.

End Branch.

Section Stationary.

Lemma still_refl (a : float) : still a a.
Proof. left. reflexivity. Qed.

Lemma still_trans (a b c : float) : still a b -> still b c -> still a c.
Proof.
  intros [-> | [-> ->]] [-> | [E ->]]; unfold still; auto.
Qed.

(** Adding the product of a zero velocity and a finite time. *)
Lemma still_add (p t : float) :
  is_finite t = true -> still p (add p (mul zero t)).
Proof.
  intros F. unfold still, add, mul, zero.
  destruct t as [st|st| |st mt et]; try discriminate F; cbn [SFmul xorb];
    destruct p as [sp|sp| |sp mp ep]; cbn [SFadd]; auto;
    destruct sp, st; cbn [Bool.eqb]; auto.
Qed.

Lemma still_Update (t : float) (o : GameObject) :
  velocity o = vec3.make zero zero zero -> is_finite t = true ->
  let p := position o in
  let p' := position (Update t o) in
  still (vec3.x p) (vec3.x p') /\ still (vec3.y p) (vec3.y p')
  /\ still (vec3.z p) (vec3.z p').
Proof.
  intros Hv F. cbv zeta. unfold Update, SetPosition. cbn [position].
  rewrite Hv. unfold vec3.plus, vec3.scale. cbn [vec3.x vec3.y vec3.z].
  auto using still_add.
Qed.

End Stationary.

(** X11: between boxes and a displacement with finite coordinates, [update]
    takes the branch of the collision (remainingTime >= 0) exactly when
    SweptAABB reports a collision; when it reports none, [update] is the
    boundary check followed by the plain step of both bodies by dt. *)
Theorem update_branch_is_collision (normals : float * float) (dt : float)
    (w : World) :
  let o1 := CalculateAABB (obj1 w) in
  let o2 := CalculateAABB (update_boundary (obj2 w)) in
  let displacement := vec3.scale (velocity o2) dt in
  finite_AABB (aabb o1) -> finite_AABB (aabb o2) ->
  finite_displacement displacement ->
  let r := SweptAABB (aabb o2) (aabb o1) displacement
                     (fst normals) (snd normals) in
  ge (sub one (fst (fst r))) zero =
  negb (noCollision (aabb o2) (aabb o1) displacement)
  /\ (noCollision (aabb o2) (aabb o1) displacement = true ->
      update normals dt w = Build_World (Update dt o1) (Update dt o2)).
Proof.
  cbv zeta. intros H1 H2 Hd.
  destruct (returned_time _ _ _ H2 H1 Hd (fst normals) (snd normals))
    as [(C & T & G) | (C & _ & _ & _ & G)]; cbv zeta in *; rewrite C, G.
  - split; [reflexivity|]. intros _.
    unfold update, update_collide. cbn [obj1 obj2]. unfold GetAABB, GetVelocity.
    destruct (SweptAABB _ _ _ _ _) as [[collisionTime normalx] normaly].
    cbn [fst] in G. rewrite G. reflexivity.
  - split; [reflexivity|discriminate].
Qed.

(** X12: a body without velocity stays where it is.  When the velocity of
    obj1 is zero, the step is a finite number and the boxes and the
    displacement have finite coordinates, [update] leaves each coordinate of
    the position of obj1 as it is (a negative zero may become +0). *)
Theorem update_keeps_obj1_in_place (normals : float * float) (dt : float)
    (w : World) :
  let o1 := CalculateAABB (obj1 w) in
  let o2 := CalculateAABB (update_boundary (obj2 w)) in
  velocity (obj1 w) = vec3.make zero zero zero ->
  binary32 dt ->
  finite_AABB (aabb o1) -> finite_AABB (aabb o2) ->
  finite_displacement (vec3.scale (velocity o2) dt) ->
  let p := position (obj1 w) in
  let p' := position (obj1 (update normals dt w)) in
  still (vec3.x p) (vec3.x p') /\ still (vec3.y p) (vec3.y p')
  /\ still (vec3.z p) (vec3.z p').
Proof.
  cbv zeta. intros Hv Bdt H1 H2 Hd.
  destruct (returned_time _ _ _ H2 H1 Hd (fst normals) (snd normals))
    as [(_ & _ & G) | (_ & V & T0 & T1 & G)]; cbv zeta in *;
    unfold update, update_collide; cbn [obj1 obj2];
    unfold GetAABB, GetVelocity in *;
    destruct (SweptAABB _ _ _ _ _) as [[collisionTime normalx] normaly];
    cbn [fst] in *; rewrite G; cbn [obj1].
  - apply (still_Update dt (CalculateAABB (obj1 w)) Hv), Bdt.
  - destruct (remaining_unit _ V T0 T1) as (Br & R0 & R1).
    assert (B1 : binary32 collisionTime).
    { split; [exact V|]. apply (sandwiched_finite _ zero one); auto. }
    pose proof (mul_unit _ _ B1 Bdt T0 T1) as F1.
    pose proof (mul_unit _ _ Br Bdt R0 R1) as F2.
    destruct (still_Update (mul collisionTime dt) (CalculateAABB (obj1 w))
                Hv F1) as (X1 & Y1 & Z1).
    destruct (still_Update (mul (sub one collisionTime) dt)
                (Update (mul collisionTime dt) (CalculateAABB (obj1 w)))
                Hv F2) as (X2 & Y2 & Z2).
    cbv zeta in *.
    split; [|split]; eapply still_trans; eassumption.
Qed.

(** On a settled content the test succeeds exactly when the magnitude is 1
    at least. *)
Lemma settled_test (n : float) :
  settled n -> gt (fabsf n) epsilon = ge (fabsf n) one.
Proof.
  intros [H | [H _]].
  - rewrite (le_not_gt _ _ H). symmetry.
    apply SFltb_not_leb.
    apply (SFleb_ltb_trans _ epsilon); [exact H | reflexivity].
  - unfold ge, le in *. rewrite H.
    apply (SFltb_leb_trans _ one); [reflexivity | exact H].
Qed.

(** X13: a collision with equal entry times leaves the response to the
    contents of the uninitialised locals.  Between boxes and a displacement
    with finite coordinates, when SweptAABB reports a collision with
    xEntryTime equal to yEntryTime, and each of the two locals holds a
    content on which the test of lines 298 and 303 does not depend on the
    [abs] that is called (a magnitude of 0.0001 at most, or from 1 and
    below 2^31), the velocity of the moving body after [update] has x
    negated exactly when the magnitude of the stale normalx is 1 at least,
    and y likewise with normaly.  Nothing is stated of the contents in
    between. *)
Theorem update_corner_hit (normals : float * float) (dt : float)
    (w : World) :
  let o1 := CalculateAABB (obj1 w) in
  let o2 := CalculateAABB (update_boundary (obj2 w)) in
  let displacement := vec3.scale (velocity o2) dt in
  let v := velocity o2 in
  finite_AABB (aabb o1) -> finite_AABB (aabb o2) ->
  finite_displacement displacement ->
  noCollision (aabb o2) (aabb o1) displacement = false ->
  eq (xEntryTime (aabb o2) (aabb o1) displacement)
     (yEntryTime (aabb o2) (aabb o1) displacement) = true ->
  settled (fst normals) -> settled (snd normals) ->
  velocity (obj2 (update normals dt w)) =
  vec3.make
    (if ge (fabsf (fst normals)) one then mul (vec3.x v) minus_one
     else vec3.x v)
    (if ge (fabsf (snd normals)) one then mul (vec3.y v) minus_one
     else vec3.y v)
    (vec3.z v).
Proof.
  cbv zeta. intros H1 H2 Hd C E Sx Sy.
  rewrite <- (settled_test _ Sx), <- (settled_test _ Sy).
  destruct (returned_time _ _ _ H2 H1 Hd (fst normals) (snd normals))
    as [(C' & _) | (_ & _ & _ & _ & G)]; [congruence|].
  cbv zeta in G.
  unfold update, update_collide. cbn [obj1 obj2].
  unfold GetAABB, GetVelocity in *.
  rewrite SweptAABB_unfold, C in *.
  destruct (SFeqb_not_ltb _ _ E) as [Lxy Lyx].
  unfold gt, lt in *. rewrite Lxy, Lyx in *. cbn [fst snd] in *.
  rewrite G. cbn [obj2 velocity]. unfold bounce.
  destruct (velocity _) as [vx vy vz].
  unfold gt.
  destruct (SFltb epsilon (fabsf (fst normals)));
    destruct (SFltb epsilon (fabsf (snd normals))); reflexivity.
Qed.

(** ** A frame that comes early *)

Section EarlyFrame.

(** [checkTime] reads the counter of frames for the rate only. *)
Lemma checkTime_same_simulation (fuel : nat) (stale : nat -> float * float)
    (now : F64.double) (g ga : Globals) :
  same_simulation g ga ->
  match checkTime fuel stale now g, checkTime fuel stale now ga with
  | Some (n, g1), Some (na, g1a) =>
      n = na /\ same_simulation g1 g1a
      /\ ((frame g1 = frame g /\ frame g1a = frame ga)
          \/ (frame g1 = 0 /\ frame g1a = 0))
  | None, None => True
  | _, _ => False
  end.
Proof.
  intros (Et & Ea & Ef & Ew). unfold checkTime. rewrite Et, Ea, Ef, Ew.
  destruct (F64.gt (F64.sub now (timebase ga)) physicsStep).
  - destruct (F64.gt (F64.sub now (FPSTime ga)) F64.one);
      destruct (physics_loop _ _ _ _) as [[[n acc] w]|]; try exact I;
      cbn [frame]; (split; [reflexivity|]); (split; [repeat split|]); auto.
  - cbn [frame]. split; [reflexivity|]. split; [|auto].
    repeat split; cbn; assumption.
Qed.

(** Two runs of the loop on the same frames, from states that differ in
    the counter of frames, the rate and [time] at most. *)
Lemma main_loop_same_simulation (fuel : nat) (frames : list frame_input) :
  forall g ga : Globals,
    same_simulation g ga ->
    0 <= frame g -> 0 <= frame ga ->
    frame g + Z.of_nat (length frames) <= INT_MAX ->
    frame ga + Z.of_nat (length frames) <= INT_MAX ->
    simulation (main_loop fuel frames g) =
    simulation (main_loop fuel frames ga).
Proof.
  induction frames as [|[now stale] rest IH]; intros g ga Hs H0 H0a Hb Hba.
  - destruct Hs as (Et & Ea & Ef & Ew). cbn. congruence.
  - cbn [main_loop]. cbn [length] in Hb, Hba.
    pose proof (checkTime_same_simulation fuel stale now g ga Hs) as Hc.
    destruct (checkTime fuel stale now g) as [[n g1]|],
             (checkTime fuel stale now ga) as [[na g1a]|];
      try contradiction; [|reflexivity].
    destruct Hc as (<- & (Et & Ea & Ef & Ew) & Hfr).
    assert (B1 : 0 <= frame g1 /\ frame g1 + 1 + Z.of_nat (length rest)
                                   <= INT_MAX)
      by (unfold INT_MAX in *; lia).
    assert (B1a : 0 <= frame g1a /\ frame g1a + 1 + Z.of_nat (length rest)
                                     <= INT_MAX)
      by (unfold INT_MAX in *; lia).
    assert (L1 : (frame g1 <? INT_MAX) = true)
      by (apply Z.ltb_lt; unfold INT_MAX in *; lia).
    assert (L1a : (frame g1a <? INT_MAX) = true)
      by (apply Z.ltb_lt; unfold INT_MAX in *; lia).
    rewrite L1, L1a.
    assert (Hi := IH
      (Build_Globals (frame g1 + 1) (time g1) (timebase g1)
         (accumulator g1) (fps g1) (FPSTime g1) (world g1))
      (Build_Globals (frame g1a + 1) (time g1a) (timebase g1a)
         (accumulator g1a) (fps g1a) (FPSTime g1a) (world g1a))).
    cbn [frame] in Hi.
    specialize (Hi (conj Et (conj Ea (conj Ef Ew)))
                  ltac:(lia) ltac:(lia) ltac:(lia) ltac:(lia)).
    destruct (main_loop fuel rest _) as [[k g2]|],
             (main_loop fuel rest _) as [[ka g2a]|];
      cbn in Hi |- *; try discriminate Hi; [|reflexivity].
    injection Hi as -> -> -> -> ->. reflexivity.
Qed.

End EarlyFrame.

(** X14: a frame that comes before a step has elapsed since [timebase]
    takes nothing from the simulation.  In the loop of [main], with the
    increment of the counter of frames at line 618, the frames that follow
    such a frame make the calls of [update] that they would have made
    without it and leave the same [timebase], [accumulator], [FPSTime] and
    bodies, as long as the counter of frames stays in the range of [int].
    The frame is counted, so the counter and the rate computed from it are
    not compared, nor is [time]. *)
Theorem main_loop_early_frame (fuel : nat) (now : F64.double)
    (stale : nat -> float * float) (rest : list frame_input) (g : Globals) :
  F64.gt (F64.sub now (timebase g)) physicsStep = false ->
  0 <= frame g ->
  frame g + 1 + Z.of_nat (length rest) <= INT_MAX ->
  simulation (main_loop fuel ((now, stale) :: rest) g) =
  simulation (main_loop fuel rest g).
Proof.
  intros Hgate H0 Hb. cbn [main_loop]. unfold checkTime. rewrite Hgate.
  cbn [frame time timebase accumulator fps FPSTime world].
  assert (L : (frame g <? INT_MAX) = true)
    by (apply Z.ltb_lt; unfold INT_MAX in *; lia).
  rewrite L.
  pose proof (main_loop_same_simulation fuel rest
                (Build_Globals (frame g + 1) now (timebase g) (accumulator g)
                   (fps g) (FPSTime g) (world g)) g) as Hm.
  cbn [frame] in Hm.
  specialize (Hm ltac:(repeat split) ltac:(lia) H0 ltac:(lia) ltac:(lia)).
  rewrite <- Hm.
  destruct (main_loop fuel rest _) as [[k g2]|]; reflexivity.
Qed.

(** ** Division by a number above 1; integers in the format *)

Section Quotients.

Variables prec emax : Z.
Hypothesis Hprec : 0 < prec.
Hypothesis Hemax : prec < emax.

(** The same quotient with numerator and denominator multiplied. *)
Lemma rnd_pair_scale (N D k e : Z) :
  0 <= N -> 0 < D -> 0 < k ->
  rnd_pair prec emax (N * k) (D * k) e = rnd_pair prec emax N D e
  /\ (fine prec emax N D e -> fine prec emax (N * k) (D * k) e).
Proof.
  intros HN HD Hk.
  assert (Eq : N * k / (D * k) = N / D)
    by (apply Z.div_mul_cancel_r; lia).
  split.
  - unfold rnd_pair. rewrite Eq.
    set (E := target prec emax (N / D) e).
    assert (HE : 0 <= E - e) by (unfold E, target; lia).
    pose proof (pow_pos _ HE) as Hp.
    replace (D * k * 2 ^ (E - e)) with (D * 2 ^ (E - e) * k) by ring.
    rewrite rne_scale by nia. reflexivity.
  - unfold fine. rewrite Eq. trivial.
Qed.

(** Dividing a positive number by a number that is at least 1 does not
    increase it. *)
Lemma SFdiv_le_dividend (mx : positive) (ex : Z) (my : positive) (ey : Z) :
  bounded prec emax mx ex = true ->
  (ey < 0 -> 2 ^ (- ey) <= Zpos my) ->
  SFleb (SFdiv prec emax (S754_finite false mx ex) (S754_finite false my ey))
        (S754_finite false mx ex) = true.
Proof.
  intros Bx Hy.
  rewrite (SFdiv_finite prec emax Hprec Hemax). cbn [xorb].
  destruct (rnd_pair_id prec emax Hprec Hemax mx ex Bx) as [Fx Ix].
  destruct (bounded_facts prec emax Hprec _ _ Bx) as (Rx & _).
  assert (Ex : S754_finite false mx ex =
               build prec emax false
                 (fst (rnd_pair prec emax (Zpos mx) 1 ex))
                 (snd (rnd_pair prec emax (Zpos mx) 1 ex))).
  { rewrite Ix. cbn [fst snd build].
    destruct (Z.leb_spec ex (emax - prec)); [reflexivity|lia]. }
  rewrite Ex. clear Ex.
  destruct (div_fine prec emax Hprec mx ex my ey) as [S1 F1].
  cbv zeta in S1, F1.
  set (t := div_exp prec emax mx ex my ey) in *.
  set (N1 := Zpos mx * 2 ^ (ex - ey - t)) in *.
  pose proof (pow_pos _ S1) as Hp1.
  assert (HN1 : 0 <= N1) by (unfold N1; nia).
  assert (H0x : 0 <= Zpos mx) by lia.
  assert (H01 : 0 < 1) by lia.
  assert (Hmy : 0 < Zpos my) by lia.
  destruct (rnd_pair_scale (Zpos mx) 1 (Zpos my) ex H0x H01 Hmy) as [Sc Fs].
  specialize (Fs Fx). rewrite Z.mul_1_l in Sc, Fs.
  rewrite <- Sc.
  set (e0 := Z.min t ex).
  assert (J1 : 0 <= t - e0) by (unfold e0; lia).
  assert (J2 : 0 <= ex - e0) by (unfold e0; lia).
  destruct (rnd_pair_refine prec emax Hprec N1 (Zpos my) t (t - e0)
              HN1 Hmy J1 F1) as [F1' R1].
  assert (HN2 : 0 <= Zpos mx * Zpos my) by lia.
  destruct (rnd_pair_refine prec emax Hprec (Zpos mx * Zpos my) (Zpos my) ex
              (ex - e0) HN2 Hmy J2 Fs) as [F2' R2].
  replace (t - (t - e0)) with e0 in * by lia.
  replace (ex - (ex - e0)) with e0 in * by lia.
  rewrite <- R1, <- R2.
  pose proof (pow_pos _ J1) as Hq1. pose proof (pow_pos _ J2) as Hq2.
  assert (Hord : N1 * 2 ^ (t - e0) <= Zpos mx * Zpos my * 2 ^ (ex - e0)).
  { unfold N1. rewrite <- Z.mul_assoc, <- pow_split by lia.
    replace (ex - ey - t + (t - e0)) with (ex - e0 - ey) by lia.
    rewrite <- Z.mul_assoc. apply Z.mul_le_mono_nonneg_l; [lia|].
    destruct (Z_lt_ge_dec ey 0) as [A|A].
    - replace (ex - e0 - ey) with ((ex - e0) + - ey) by lia.
      rewrite pow_split by lia. specialize (Hy A). nia.
    - assert (2 ^ (ex - e0 - ey) <= 2 ^ (ex - e0))
        by (apply Z.pow_le_mono_r; lia).
      nia. }
  assert (HN1' : 0 <= N1 * 2 ^ (t - e0)) by nia.
  destruct (round_mono_same prec emax Hprec Hemax (Zpos my) e0 _ _ Hmy
              (conj HN1' Hord) F1' F2') as [L Hn2].
  destruct (rnd_pair prec emax (N1 * 2 ^ (t - e0)) (Zpos my) e0) as [M1 E1].
  destruct (rnd_pair prec emax (Zpos mx * Zpos my * 2 ^ (ex - e0))
              (Zpos my) e0) as [M2 E2].
  cbn [fst snd] in *. apply (build_le prec emax M1 E1 M2 E2 Hn2 L).
Qed.

(** An integer below 2^prec is a number of the format. *)
Lemma canonical_of_int (n : Z) :
  0 < n < 2 ^ prec ->
  exists (m : positive) (e : Z),
    bounded prec emax m e = true
    /\ binary_normalize prec emax n 0 false = S754_finite false m e
    /\ units prec emax (S754_finite false m e) = n * 2 ^ (- emin prec emax).
Proof.
  intros [Hn0 Hn1].
  pose proof (Zdigits2_bounds n Hn0) as [Dlo Dhi].
  assert (Hp0 : 0 <= prec) by lia.
  pose proof (Zdigits2_le n prec Hp0 (conj (Z.lt_le_incl _ _ Hn0) Hn1)) as Dp.
  set (d := Zdigits2 n) in *.
  assert (D1 : 1 <= d) by (unfold d; destruct n; cbn in *; lia).
  assert (Hk : 0 <= prec - d) by lia.
  pose proof (pow_pos _ Hk) as Hpk.
  set (N0 := n * 2 ^ (prec - d)).
  assert (HN0 : 0 < N0) by (unfold N0; nia).
  assert (Hd0 : Zdigits2 N0 = prec).
  { unfold N0. rewrite Zdigits2_shift by lia. fold d. lia. }
  assert (Hem : emin prec emax <= d - prec) by (unfold emin; lia).
  assert (B : bounded prec emax (Z.to_pos N0) (d - prec) = true).
  { unfold bounded, canonical_mantissa.
    change (Zpos (digits2_pos (Z.to_pos N0)))
      with (Zdigits2 (Zpos (Z.to_pos N0))).
    rewrite Z2Pos.id by exact HN0. rewrite Hd0.
    apply andb_true_intro. split.
    - apply Z.eqb_eq. unfold fexp. lia.
    - apply Z.leb_le. lia. }
  assert (U : units prec emax (S754_finite false (Z.to_pos N0) (d - prec)) =
              n * 2 ^ (- emin prec emax)).
  { cbn [units cond_Zopp]. rewrite Z2Pos.id by exact HN0. unfold N0.
    rewrite <- Z.mul_assoc, <- pow_split by lia. f_equal. f_equal. lia. }
  exists (Z.to_pos N0), (d - prec). split; [exact B|]. split; [|exact U].
  rewrite (binary_normalize_round_units prec emax Hprec Hemax)
    by (unfold emin; lia).
  rewrite Z.sub_0_l, <- U.
  apply (round_units_id prec emax Hprec Hemax), B.
Qed.

End Quotients.

Section QuotientBounds.

Variables prec emax : Z.
Hypothesis Hprec : 0 < prec.
Hypothesis Hemax : prec < emax.

(** The order of two products of a power of 2, whatever the common shift
    of the two exponents. *)
Lemma pow_shift_iff (m1 m2 b1 b2 c1 c2 : Z) :
  0 <= b1 -> 0 <= b2 -> 0 <= c1 -> 0 <= c2 -> b1 - c1 = b2 - c2 ->
  (m1 * 2 ^ b1 <= m2 * 2 ^ b2 <-> m1 * 2 ^ c1 <= m2 * 2 ^ c2).
Proof.
  intros B1 B2 C1 C2 E.
  destruct (Z_le_gt_dec c1 b1) as [L|L].
  - replace b1 with (c1 + (b1 - c1)) by lia.
    replace b2 with (c2 + (b1 - c1)) by lia.
    rewrite !pow_split by lia.
    pose proof (pow_pos (b1 - c1) ltac:(lia)) as P.
    rewrite !Z.mul_assoc. split; intros H; nia.
  - replace c1 with (b1 + (c1 - b1)) by lia.
    replace c2 with (b2 + (c1 - b1)) by lia.
    rewrite !pow_split by lia.
    pose proof (pow_pos (c1 - b1) ltac:(lia)) as P.
    rewrite !Z.mul_assoc. split; intros H; nia.
Qed.

(** A quotient of two positive numbers and a positive number of the
    format, as roundings at one exponent of two fractions of one
    denominator. *)
Lemma SFdiv_against (mx : positive) (ex : Z) (my : positive) (ey : Z)
    (mz : positive) (ez : Z) :
  bounded prec emax mx ex = true ->
  bounded prec emax my ey = true ->
  bounded prec emax mz ez = true ->
  exists A B e0 : Z,
    0 <= A /\ 0 <= B
    /\ fine prec emax A (Zpos my) e0 /\ fine prec emax B (Zpos my) e0
    /\ SFdiv prec emax (S754_finite false mx ex) (S754_finite false my ey) =
       build prec emax false (fst (rnd_pair prec emax A (Zpos my) e0))
                             (snd (rnd_pair prec emax A (Zpos my) e0))
    /\ S754_finite false mz ez =
       build prec emax false (fst (rnd_pair prec emax B (Zpos my) e0))
                             (snd (rnd_pair prec emax B (Zpos my) e0))
    /\ (A <= B <->
        units prec emax (S754_finite false mx ex) * 2 ^ (- emin prec emax) <=
        units prec emax (S754_finite false mz ez)
        * units prec emax (S754_finite false my ey))
    /\ (B <= A <->
        units prec emax (S754_finite false mz ez)
        * units prec emax (S754_finite false my ey) <=
        units prec emax (S754_finite false mx ex) * 2 ^ (- emin prec emax)).
Proof.
  intros Bx By Bz.
  destruct (rnd_pair_id prec emax Hprec Hemax mz ez Bz) as [Fz Iz].
  destruct (bounded_facts prec emax Hprec _ _ Bx) as (Rx & _).
  destruct (bounded_facts prec emax Hprec _ _ By) as (Ry & _).
  destruct (bounded_facts prec emax Hprec _ _ Bz) as (Rz & _).
  destruct (div_fine prec emax Hprec mx ex my ey) as [S1 F1].
  cbv zeta in S1, F1.
  pose proof (SFdiv_finite prec emax Hprec Hemax false mx ex false my ey)
    as Eq.
  cbv zeta in Eq. cbn [xorb] in Eq.
  set (t := div_exp prec emax mx ex my ey) in *.
  set (N1 := Zpos mx * 2 ^ (ex - ey - t)) in *.
  pose proof (pow_pos _ S1) as Hp1.
  assert (HN1 : 0 <= N1) by (unfold N1; nia).
  assert (H0z : 0 <= Zpos mz) by lia.
  assert (H01 : 0 < 1) by lia.
  assert (Hmy : 0 < Zpos my) by lia.
  destruct (rnd_pair_scale prec emax Hprec Hemax (Zpos mz) 1 (Zpos my) ez H0z H01 Hmy)
    as [Sc Fs].
  specialize (Fs Fz). rewrite Z.mul_1_l in Sc, Fs.
  set (e0 := Z.min t ez).
  assert (J1 : 0 <= t - e0) by (unfold e0; lia).
  assert (J2 : 0 <= ez - e0) by (unfold e0; lia).
  destruct (rnd_pair_refine prec emax Hprec N1 (Zpos my) t (t - e0)
              HN1 Hmy J1 F1) as [F1' R1].
  assert (HN2 : 0 <= Zpos mz * Zpos my) by lia.
  destruct (rnd_pair_refine prec emax Hprec (Zpos mz * Zpos my) (Zpos my) ez
              (ez - e0) HN2 Hmy J2 Fs) as [F2' R2].
  replace (t - (t - e0)) with e0 in * by lia.
  replace (ez - (ez - e0)) with e0 in * by lia.
  pose proof (pow_pos _ J1) as Hq1. pose proof (pow_pos _ J2) as Hq2.
  exists (N1 * 2 ^ (t - e0)), (Zpos mz * Zpos my * 2 ^ (ez - e0)), e0.
  split; [nia|]. split; [nia|]. split; [exact F1'|]. split; [exact F2'|].
  split; [rewrite R1; exact Eq|]. split.
  - rewrite R2, Sc, Iz. cbn [fst snd build].
    destruct (Z.leb_spec ez (emax - prec)); [reflexivity|lia].
  - cbn [units cond_Zopp]. unfold N1.
    rewrite <- (Z.mul_assoc (Zpos mx)), <- pow_split by lia.
    replace (ex - ey - t + (t - e0)) with (ex - ey - e0) by lia.
    set (n := emin prec emax) in *.
    assert (Hn : 0 <= - n) by (unfold n, emin; lia).
    rewrite <- (Z.mul_assoc (Zpos mx) (2 ^ (ex - n))), <- pow_split by lia.
    replace (Zpos mz * 2 ^ (ez - n) * (Zpos my * 2 ^ (ey - n)))
      with (Zpos mz * Zpos my * (2 ^ (ez - n) * 2 ^ (ey - n))) by ring.
    rewrite <- pow_split by lia.
    split; apply pow_shift_iff; lia.
Qed.

(** The quotient is at most a number of the format that the exact quotient
    does not exceed, and at least one that does not exceed it. *)
Lemma SFdiv_bounds (mx : positive) (ex : Z) (my : positive) (ey : Z)
    (mz : positive) (ez : Z) :
  bounded prec emax mx ex = true ->
  bounded prec emax my ey = true ->
  bounded prec emax mz ez = true ->
  let x := S754_finite false mx ex in
  let y := S754_finite false my ey in
  let z := S754_finite false mz ez in
  (units prec emax x * 2 ^ (- emin prec emax)
   <= units prec emax z * units prec emax y ->
   SFleb (SFdiv prec emax x y) z = true)
  /\ (units prec emax z * units prec emax y
      <= units prec emax x * 2 ^ (- emin prec emax) ->
      SFleb z (SFdiv prec emax x y) = true).
Proof.
  intros Bx By Bz. cbv zeta.
  destruct (SFdiv_against mx ex my ey mz ez Bx By Bz)
    as (A & B & e0 & HA & HB & FA & FB & -> & EB & Hiff & Hiff').
  assert (Hmy : 0 < Zpos my) by lia.
  split; intros H.
  - rewrite EB.
    destruct (round_mono_same prec emax Hprec Hemax (Zpos my) e0 A B Hmy
                (conj HA (proj2 Hiff H)) FA FB) as [L Hn2].
    destruct (rnd_pair prec emax A (Zpos my) e0) as [M1 E1].
    destruct (rnd_pair prec emax B (Zpos my) e0) as [M2 E2].
    cbn [fst snd] in *. apply (build_le prec emax M1 E1 M2 E2 Hn2 L).
  - rewrite EB.
    destruct (round_mono_same prec emax Hprec Hemax (Zpos my) e0 B A Hmy
                (conj HB (proj2 Hiff' H)) FB FA) as [L Hn2].
    destruct (rnd_pair prec emax A (Zpos my) e0) as [M1 E1].
    destruct (rnd_pair prec emax B (Zpos my) e0) as [M2 E2].
    cbn [fst snd] in *. apply (build_le prec emax M2 E2 M1 E1 Hn2 L).
Qed.

End QuotientBounds.

(** ** The frame rate *)

Section FPS.

(** A number of the format that is at least 1. *)
Lemma ge_one_bound (m : positive) (e : Z) :
  bounded F64.prec F64.emax m e = true ->
  SFleb F64.one (S754_finite false m e) = true ->
  e < 0 -> 2 ^ (- e) <= Zpos m.
Proof.
  intros B H A.
  destruct (bounded_facts F64.prec F64.emax eq_refl _ _ B) as (R & _).
  pose proof (SFleb_units F64.prec F64.emax eq_refl
                F64.one (S754_finite false m e) eq_refl B eq_refl eq_refl H)
    as U.
  unfold F64.one in U. cbn [units cond_Zopp] in U.
  change (emin F64.prec F64.emax) with (- 1074) in *.
  change (Zpos 4503599627370496) with (2 ^ 52) in U.
  rewrite <- (pow_split 52 (-52 - -1074)) in U by lia.
  replace (52 + (-52 - -1074)) with (- e + (e - -1074)) in U by lia.
  rewrite (pow_split (- e) (e - -1074)) in U by lia.
  assert (P : 0 < 2 ^ (e - -1074)) by (apply Z.pow_pos_nonneg; lia).
  apply (Z.mul_le_mono_pos_r _ _ _ P). exact U.
Qed.

(** The conversion to [int] of a number of the format that is not
    negative: the integer part of its value. *)
Lemma to_int_units (m : positive) (e : Z) :
  bounded F64.prec F64.emax m e = true ->
  F64.to_int (S754_finite false m e) =
  units F64.prec F64.emax (S754_finite false m e) / 2 ^ 1074.
Proof.
  intros B.
  destruct (bounded_facts F64.prec F64.emax eq_refl _ _ B) as (R & _).
  cbn [units cond_Zopp F64.to_int].
  change (emin F64.prec F64.emax) with (- 1074) in *.
  assert (P : 0 < 2 ^ 1074) by (apply Z.pow_pos_nonneg; lia).
  destruct e as [|p|p].
  - rewrite Z.shiftl_0_r. change (0 - -1074) with 1074.
    rewrite Z.div_mul by lia. reflexivity.
  - rewrite Z.shiftl_mul_pow2 by lia.
    replace (Zpos p - -1074) with (Zpos p + 1074) by lia.
    rewrite pow_split by lia. rewrite Z.mul_assoc, Z.div_mul by lia.
    reflexivity.
  - rewrite Z.shiftr_div_pow2 by lia.
    assert (Q : 0 < 2 ^ (Zneg p - -1074)) by (apply Z.pow_pos_nonneg; lia).
    replace (2 ^ 1074) with (2 ^ Zpos p * 2 ^ (Zneg p - -1074)).
    + rewrite Z.div_mul_cancel_r; [reflexivity| |lia].
      pose proof (Z.pow_pos_nonneg 2 (Zpos p)). lia.
    + rewrite <- pow_split by lia. f_equal. lia.
Qed.

(** The quotient of a count of frames by more than a second, as an [int]:
    between 0 and the count. *)
Lemma fps_bound (n : Z) (d : F64.double) :
  0 <= n < 2 ^ 53 ->
  valid_binary F64.prec F64.emax d = true ->
  F64.gt d F64.one = true ->
  0 <= F64.to_int (F64.div (F64.of_Z n) d) <= n.
Proof.
  intros [Hn0 Hn1] Vd Hd. unfold F64.gt in Hd.
  assert (Hd' : SFleb F64.one d = true) by (apply SFltb_leb, Hd).
  destruct (Z.eq_dec n 0) as [->|Hn].
  - unfold F64.of_Z, F64.div. cbn [binary_normalize].
    destruct d as [s|s| |s m e]; try discriminate Hd;
      cbn [SFdiv F64.to_int]; lia.
  - destruct (canonical_of_int F64.prec F64.emax eq_refl eq_refl n
                ltac:(change F64.prec with 53; lia)) as (mx & ex & Bx & Ex & Ux).
    unfold F64.of_Z, F64.div. rewrite Ex.
    change (- emin F64.prec F64.emax) with 1074 in Ux.
    assert (P : 0 < 2 ^ 1074) by (apply Z.pow_pos_nonneg; lia).
    destruct d as [s|s| |s m e]; try discriminate Hd.
    + destruct s; [discriminate Hd|]. cbn [SFdiv F64.to_int]. lia.
    + destruct s; [discriminate Hd|].
      pose proof (SFdiv_le_dividend F64.prec F64.emax eq_refl eq_refl
                    mx ex m e Bx (ge_one_bound m e Vd Hd')) as L.
      pose proof (SFdiv_valid F64.prec F64.emax eq_refl eq_refl
                    (S754_finite false mx ex) (S754_finite false m e)) as Vq.
      destruct (SFdiv_finite_cases F64.prec F64.emax eq_refl eq_refl
                  false mx ex false m e) as [Q | [Q | (mq & eq' & Q)]];
        cbv zeta in Q; cbn [xorb] in Q; rewrite Q in *.
      * cbn [F64.to_int]. lia.
      * discriminate L.
      * pose proof (SFleb_units F64.prec F64.emax eq_refl
                      (S754_finite false mq eq') (S754_finite false mx ex)
                      Vq Bx eq_refl eq_refl L) as U.
        rewrite (to_int_units mq eq' Vq).
        rewrite Ux in U.
        assert (0 <= units F64.prec F64.emax (S754_finite false mq eq')).
        { cbn [units cond_Zopp].
          destruct (bounded_facts F64.prec F64.emax eq_refl _ _ Vq) as (R & _).
          pose proof (pow_pos (eq' - emin F64.prec F64.emax) ltac:(lia)).
          lia. }
        split; [apply Z.div_pos; lia|].
        rewrite <- (Z.div_mul n (2 ^ 1074)) by lia.
        apply Z.div_le_mono; lia.
Qed.

(** The quotient of a count of frames by more than a second, as an [int],
    is within one of the exact quotient. *)
Lemma fps_within_one (n : Z) (m : positive) (e : Z) :
  0 <= n < 2 ^ 53 ->
  bounded F64.prec F64.emax m e = true ->
  F64.gt (S754_finite false m e) F64.one = true ->
  let K := F64.to_int (F64.div (F64.of_Z n) (S754_finite false m e)) in
  let D := units F64.prec F64.emax (S754_finite false m e) in
  (K - 1) * D < n * 2 ^ 1074 < (K + 1) * D.
Proof.
  intros Hn Bd Hd. cbv zeta.
  pose proof (fps_bound n (S754_finite false m e) Hn Bd Hd) as HK.
  assert (Hd' : SFleb F64.one (S754_finite false m e) = true)
    by (apply SFltb_leb, Hd).
  pose proof (SFleb_units F64.prec F64.emax eq_refl
                F64.one (S754_finite false m e) eq_refl Bd eq_refl eq_refl Hd')
    as U1.
  change (units F64.prec F64.emax F64.one) with (2 ^ 1074) in U1.
  assert (P : 0 < 2 ^ 1074) by (apply Z.pow_pos_nonneg; lia).
  set (D := units F64.prec F64.emax (S754_finite false m e)) in *.
  destruct (Z.eq_dec n 0) as [->|Hn0].
  - change (F64.to_int (F64.div (F64.of_Z 0) (S754_finite false m e)))
      with 0. lia.
  - destruct (canonical_of_int F64.prec F64.emax eq_refl eq_refl n
                ltac:(change F64.prec with 53; lia))
      as (mx & ex & Bx & Ex & Ux).
    change (- emin F64.prec F64.emax) with 1074 in Ux.
    unfold F64.of_Z, F64.div in *. rewrite Ex in *.
    set (q := SFdiv F64.prec F64.emax (S754_finite false mx ex)
                (S754_finite false m e)) in *.
    set (K := F64.to_int q) in *.
    assert (Hq : (q = S754_zero false \/ exists mq eq', q = S754_finite false mq eq'
                   /\ bounded F64.prec F64.emax mq eq' = true)).
    { pose proof (SFdiv_le_dividend F64.prec F64.emax eq_refl eq_refl
                    mx ex m e Bx (ge_one_bound m e Bd Hd')) as L.
      pose proof (SFdiv_valid F64.prec F64.emax eq_refl eq_refl
                    (S754_finite false mx ex) (S754_finite false m e)) as Vq.
      fold q in L, Vq.
      destruct (SFdiv_finite_cases F64.prec F64.emax eq_refl eq_refl
                  false mx ex false m e) as [Q | [Q | (mq & eq' & Q)]];
        cbv zeta in Q; cbn [xorb] in Q; fold q in Q.
      - left. exact Q.
      - rewrite Q in L. discriminate L.
      - right. exists mq, eq'. split; [exact Q|]. rewrite Q in Vq. exact Vq. }
    assert (HKq : K = units F64.prec F64.emax q / 2 ^ 1074).
    { unfold K. destruct Hq as [-> | (mq & eq' & -> & Bq)];
        [reflexivity | apply to_int_units, Bq]. }
    assert (Vq : valid_binary F64.prec F64.emax q = true
                 /\ is_finite q = true).
    { destruct Hq as [-> | (mq & eq' & -> & Bq)]; split; auto. }
    assert (Hnn : is_nan q = false).
    { destruct Hq as [-> | (mq & eq' & -> & Bq)]; reflexivity. }
    split.
    + destruct (Z_lt_ge_dec ((K - 1) * D) (n * 2 ^ 1074)) as [Lt|Ge];
        [exact Lt | exfalso].
      assert (HK1 : 0 < K - 1 < 2 ^ F64.prec)
        by (change F64.prec with 53; nia).
      destruct (canonical_of_int F64.prec F64.emax eq_refl eq_refl (K - 1) HK1)
        as (mz & ez & Bz & _ & Uz).
      change (- emin F64.prec F64.emax) with 1074 in Uz.
      destruct (SFdiv_bounds F64.prec F64.emax eq_refl eq_refl
                  mx ex m e mz ez Bx Bd Bz) as [Le _].
      cbv zeta in Le. fold q D in Le.
      change (- emin F64.prec F64.emax) with 1074 in Le.
      rewrite Ux, Uz in Le.
      assert (Hle : SFleb q (S754_finite false mz ez) = true)
        by (apply Le; nia).
      pose proof (SFleb_units F64.prec F64.emax eq_refl q
                    (S754_finite false mz ez) (proj1 Vq) Bz (proj2 Vq)
                    eq_refl Hle) as Uq.
      rewrite Uz in Uq.
      assert (K <= K - 1); [|lia].
      rewrite HKq at 1.
      rewrite <- (Z.div_mul (K - 1) (2 ^ 1074)) by lia.
      apply Z.div_le_mono; lia.
    + destruct (Z_lt_ge_dec (n * 2 ^ 1074) ((K + 1) * D)) as [Lt|Ge];
        [exact Lt | exfalso].
      assert (HK1 : 0 < K + 1 < 2 ^ F64.prec)
        by (change F64.prec with 53; nia).
      destruct (canonical_of_int F64.prec F64.emax eq_refl eq_refl (K + 1) HK1)
        as (mz & ez & Bz & _ & Uz).
      change (- emin F64.prec F64.emax) with 1074 in Uz.
      destruct (SFdiv_bounds F64.prec F64.emax eq_refl eq_refl
                  mx ex m e mz ez Bx Bd Bz) as [_ Ge'].
      cbv zeta in Ge'. fold q D in Ge'.
      change (- emin F64.prec F64.emax) with 1074 in Ge'.
      rewrite Ux, Uz in Ge'.
      assert (Hle : SFleb (S754_finite false mz ez) q = true)
        by (apply Ge'; nia).
      pose proof (SFleb_units F64.prec F64.emax eq_refl
                    (S754_finite false mz ez) q Bz (proj1 Vq) eq_refl
                    (proj2 Vq) Hle) as Uq.
      rewrite Uz in Uq.
      assert (K + 1 <= K); [|lia].
      rewrite HKq at 2.
      rewrite <- (Z.div_mul (K + 1) (2 ^ 1074)) by lia.
      apply Z.div_le_mono; lia.
Qed.

End FPS.

(** X15: the frame rate that [checkTime] computes.  On a frame that passes
    the test of the step and comes more than a second after FPSTime, the
    interval time - FPSTime being finite, [checkTime] returns, frame is
    reset to 0, FPSTime is set to the time, and fps becomes the integer
    part of the quotient in [double] of frame by the interval: it lies
    between 0 and frame (so the conversion to [int] is defined) and within
    one of the exact quotient, fps - 1 < frame / interval < fps + 1, stated
    on the interval in units of 2^-1074. *)
Theorem checkTime_fps (fuel : nat) (stale : nat -> float * float)
    (now : F64.double) (g : Globals) :
  binary64 now -> binary64 (timebase g) -> binary64 (FPSTime g) ->
  between_frames (accumulator g) -> (21 <= fuel)%nat ->
  0 <= frame g <= INT_MAX ->
  F64.gt (F64.sub now (timebase g)) physicsStep = true ->
  F64.gt (F64.sub now (FPSTime g)) F64.one = true ->
  is_finite (F64.sub now (FPSTime g)) = true ->
  let interval := F64.sub now (FPSTime g) in
  exists n g', checkTime fuel stale now g = Some (n, g')
    /\ frame g' = 0 /\ FPSTime g' = now
    /\ fps g' = F64.to_int (F64.div (F64.of_Z (frame g)) interval)
    /\ 0 <= fps g' <= frame g
    /\ (fps g' - 1) * units F64.prec F64.emax interval
       < frame g * 2 ^ 1074
       < (fps g' + 1) * units F64.prec F64.emax interval.
Proof.
  intros Bn Bt Bf Ba Hfuel Hfr Hgate Hsec Hfin. cbv zeta.
  destruct (checkTime_frame fuel stale now g Bn Bt Ba Hfuel)
    as (n & g' & Hc & _).
  exists n, g'. split; [exact Hc|].
  unfold checkTime in Hc. rewrite Hgate, Hsec in Hc.
  destruct (physics_loop _ _ _ _) as [[[k acc] w]|]; [|discriminate Hc].
  injection Hc as _ <-. cbn [frame FPSTime fps].
  split; [reflexivity|]. split; [reflexivity|]. split; [reflexivity|].
  assert (V : valid_binary F64.prec F64.emax (F64.sub now (FPSTime g)) = true)
    by (apply (SFsub_valid F64.prec F64.emax eq_refl eq_refl);
        [apply Bn|apply Bf|apply Bn|apply Bf]).
  assert (Hn : 0 <= frame g < 2 ^ 53) by (unfold INT_MAX in Hfr; lia).
  split; [exact (fps_bound (frame g) _ Hn V Hsec)|].
  destruct (F64.sub now (FPSTime g)) as [s|s| |s m e];
    try discriminate Hfin; [discriminate Hsec|].
  destruct s; [discriminate Hsec|].
  exact (fps_within_one (frame g) m e Hn V Hsec).
Qed.

(** ** Stale normals and the clamp *)

(** X16: the uninitialised locals of [update] matter in one case only.
    Unless SweptAABB reports a collision in which neither entry time is
    above the other, [update] gives the same world whatever the locals
    normalx and normaly hold when SweptAABB is called. *)
Theorem update_ignores_stale_normals (normals normals' : float * float)
    (dt : float) (w : World) :
  let o1 := CalculateAABB (obj1 w) in
  let o2 := CalculateAABB (update_boundary (obj2 w)) in
  let displacement := vec3.scale (velocity o2) dt in
  noCollision (aabb o2) (aabb o1) displacement = true
  \/ gt (xEntryTime (aabb o2) (aabb o1) displacement)
        (yEntryTime (aabb o2) (aabb o1) displacement) = true
  \/ gt (yEntryTime (aabb o2) (aabb o1) displacement)
        (xEntryTime (aabb o2) (aabb o1) displacement) = true ->
  update normals dt w = update normals' dt w.
Proof.
  cbv zeta. intros H.
  unfold update, update_collide. cbn [obj1 obj2]. unfold GetAABB, GetVelocity.
  rewrite !SweptAABB_unfold.
  destruct (noCollision _ _ _); [reflexivity|].
  destruct H as [H | [H | H]]; [discriminate H| |].
  - rewrite H. reflexivity.
  - rewrite H. destruct (gt (xEntryTime _ _ _) _); reflexivity.
Qed.

(** X17: the clamp.  Two frames that both come more than 0.25 after
    [timebase] run the same calls of [update] and leave the same
    accumulator and the same bodies: what the elapsed time exceeds 0.25 by
    is dropped. *)
Theorem checkTime_clamp (fuel : nat) (stale : nat -> float * float)
    (now now' : F64.double) (g : Globals) :
  F64.gt (F64.sub now (timebase g)) quarter = true ->
  F64.gt (F64.sub now' (timebase g)) quarter = true ->
  option_map (fun r => (fst r, accumulator (snd r), world (snd r)))
    (checkTime fuel stale now g) =
  option_map (fun r => (fst r, accumulator (snd r), world (snd r)))
    (checkTime fuel stale now' g)
  /\ option_map (fun r => (fst r, accumulator (snd r), world (snd r)))
       (checkTime fuel stale now g) =
     physics_loop fuel stale (F64.add (accumulator g) quarter) (world g).
Proof.
  assert (G : forall t, F64.gt (F64.sub t (timebase g)) quarter = true ->
            option_map (fun r => (fst r, accumulator (snd r), world (snd r)))
              (checkTime fuel stale t g) =
            physics_loop fuel stale (F64.add (accumulator g) quarter)
              (world g)).
  { intros t H.
    assert (S : F64.gt (F64.sub t (timebase g)) physicsStep = true).
    { unfold F64.gt in *.
      apply (SFleb_ltb_trans physicsStep quarter); [reflexivity|exact H]. }
    unfold checkTime. rewrite S, H.
    destruct (if F64.gt (F64.sub t (FPSTime g)) F64.one then _ else _)
      as [[frame' fps'] FPSTime'].
    destruct (physics_loop _ _ _ _) as [[[n acc] u]|]; reflexivity. }
  intros H H'. rewrite (G now H), (G now' H'). split; reflexivity.
Qed.

(** ** Entry and exit on one axis *)

(** X18: between boxes that are well formed on an axis (finite faces, the
    lower one not above the upper one) and for a finite displacement, the
    entry time of the axis is never above its exit time: on no axis does
    the moving box leave before it enters.  So the first test of line 197
    can only hold across the two axes. *)
Theorem entry_not_after_exit (ax : axis) (box1 box2 : AABB) (vel1 : vec3.t) :
  well_formed_on ax box1 -> well_formed_on ax box2 ->
  is_finite (component ax vel1) = true ->
  gt (EntryTime ax box1 box2 vel1) (ExitTime ax box1 box2 vel1) = false.
Proof.
  intros (L1 & H1 & W1) (L2 & H2 & W2) Fc.
  destruct (axis_quantities ax box1 box2 vel1) as (_ & _ & Et & Xt & _).
  cbv zeta in Et, Xt. rewrite Et, Xt.
  destruct (eq (component ax vel1) zero) eqn:Ez.
  - unfold axis_entry_time, axis_exit_time. rewrite Ez.
    destruct (gt (F32.max _ _) _); reflexivity.
  - apply axis_exit_after_entry; assumption.
Qed.

(** ** Instances of the properties above *)

(** Two squares of side 2 that share the square between (1,1) and (2,2). *)
Lemma TestAABB_common_point_witness :
  TestAABB (box_Z 0 0 2 2) (box_Z 1 1 3 3) = true <->
  exists px py : float,
    inside px py (box_Z 0 0 2 2) /\ inside px py (box_Z 1 1 3 3).
Proof.
  apply (TestAABB_common_point (box_Z 0 0 2 2) (box_Z 1 1 3 3));
    split; reflexivity.
Defined.

(** The same squares, the first one moving to the right. *)
Lemma SweptAABB_from_overlap_witness :
  let r := SweptAABB (box_Z 0 0 2 2) (box_Z 1 1 3 3) (vel_Z 1 0) one one in
  r = (two, zero, zero) \/ eq (fst (fst r)) zero = true.
Proof.
  apply (SweptAABB_from_overlap (box_Z 0 0 2 2) (box_Z 1 1 3 3) (vel_Z 1 0)
           one one).
  - repeat split.
  - repeat split.
  - repeat split.
  - reflexivity.
Defined.

(** A unit square at a distance of 1 from another one, moving by 4 toward
    it: the entry time on x is 0.25. *)
Lemma normal_opposes_travel_witness :
  let r := SweptAABB (box_Z 0 0 1 1) (box_Z 2 0 3 1) (vel_Z 4 0) one one in
  (gt (of_Z 4) zero = true \/ lt (of_Z 4) zero = true)
  /\ normal_on X r = (if gt (of_Z 4) zero then minus_one else one)
  /\ normal_on Y r = zero.
Proof.
  apply (normal_opposes_travel X (box_Z 0 0 1 1) (box_Z 2 0 3 1) (vel_Z 4 0)
           one one); reflexivity.
Defined.

Lemma normal_on_moving_axis_witness :
  let r := SweptAABB (box_Z 0 0 1 1) (box_Z 2 0 3 1) (vel_Z 4 0) one one in
  eq (of_Z 4) zero = false
  /\ (normal_on X r = one \/ normal_on X r = minus_one)
  /\ normal_on Y r = zero.
Proof.
  apply (normal_on_moving_axis X (box_Z 0 0 1 1) (box_Z 2 0 3 1) (vel_Z 4 0)
           one one); reflexivity.
Defined.

(** The moving square is to the right of the other one and moves to the
    right. *)
Lemma SweptAABB_already_left_witness :
  lt (ExitTime X (box_Z 2 0 3 1) (box_Z 0 0 1 1) (vel_Z 4 0)) zero = true
  /\ SweptAABB (box_Z 2 0 3 1) (box_Z 0 0 1 1) (vel_Z 4 0) one one =
     (two, zero, zero).
Proof.
  split; [reflexivity|].
  apply (SweptAABB_already_left X (box_Z 2 0 3 1) (box_Z 0 0 1 1) (vel_Z 4 0)
           one one).
  - repeat split.
  - repeat split.
  - repeat split.
  - reflexivity.
Defined.

(** The first tick of the demo. *)
Lemma update_velocity_signs_witness :
  let v := velocity (obj2 (init blank)) in
  let v' := velocity (obj2 (update (zero, zero) (F64.to_float physicsStep)
                              (init blank))) in
  same_or_opposite (vec3.x v) (vec3.x v')
  /\ same_or_opposite (vec3.y v) (vec3.y v')
  /\ vec3.z v' = vec3.z v.
Proof.
  apply (update_velocity_signs (zero, zero) (F64.to_float physicsStep)
           (init blank)); reflexivity.
Defined.

(** Two frames after the start, at 0.05 and at 1. *)
Lemma main_loop_terminates_witness :
  exists n g',
    main_loop 21 [(delta_0_05, no_stale); (F64.one, no_stale)] startup =
    Some (n, g')
    /\ (n <= 21 * 2)%nat
    /\ frame_invariant g'
    /\ frame g' <= 0 + 2.
Proof.
  apply (main_loop_terminates 21
           [(delta_0_05, no_stale); (F64.one, no_stale)] startup).
  - apply le_n.
  - repeat constructor.
  - repeat split. discriminate.
  - discriminate.
Defined.

(** A frame at 0.01, before the frames at 0.05 and at 1. *)
Lemma main_loop_early_frame_witness :
  simulation (main_loop 21 [(F64.literal 1 2, no_stale);
                            (delta_0_05, no_stale); (F64.one, no_stale)]
                startup) =
  simulation (main_loop 21 [(delta_0_05, no_stale); (F64.one, no_stale)]
                startup).
Proof.
  apply (main_loop_early_frame 21 (F64.literal 1 2) no_stale
           [(delta_0_05, no_stale); (F64.one, no_stale)] startup).
  - reflexivity.
  - vm_compute. discriminate.
  - vm_compute. discriminate.
Defined.

(** The frames that come early are counted: two of them before a frame at
    1.5 make a rate of 1, where the frame alone makes a rate of 0. *)
Example early_frames_are_counted :
  option_map (fun r => fps (snd r))
    (main_loop 21 [(F64.literal 5 3, no_stale); (F64.literal 1 2, no_stale);
                   (F64.literal 15 1, no_stale)] startup) = Some 1
  /\ option_map (fun r => fps (snd r))
       (main_loop 21 [(F64.literal 15 1, no_stale)] startup) = Some 0.
Proof. split; vm_compute; reflexivity. Qed.

Lemma update_branch_is_collision_witness :
  let dt := F64.to_float physicsStep in
  let o1 := CalculateAABB (obj1 (init blank)) in
  let o2 := CalculateAABB (update_boundary (obj2 (init blank))) in
  let displacement := vec3.scale (velocity o2) dt in
  let r := SweptAABB (aabb o2) (aabb o1) displacement zero zero in
  ge (sub one (fst (fst r))) zero =
  negb (noCollision (aabb o2) (aabb o1) displacement)
  /\ (noCollision (aabb o2) (aabb o1) displacement = true ->
      update (zero, zero) dt (init blank) =
      Build_World (Update dt o1) (Update dt o2)).
Proof.
  apply (update_branch_is_collision (zero, zero) (F64.to_float physicsStep)
           (init blank)); vm_compute; repeat split.
Defined.

Lemma update_keeps_obj1_in_place_witness :
  let p := position (obj1 (init blank)) in
  let p' := position (obj1 (update (zero, zero) (F64.to_float physicsStep)
                             (init blank))) in
  still (vec3.x p) (vec3.x p') /\ still (vec3.y p) (vec3.y p')
  /\ still (vec3.z p) (vec3.z p').
Proof.
  apply (update_keeps_obj1_in_place (zero, zero) (F64.to_float physicsStep)
           (init blank)); vm_compute; repeat split.
Defined.

(** The 38th tick of the demo, with a zero and the debug fill in the
    locals: the moving body bounces on y only. *)
Lemma update_corner_hit_witness :
  let dt := F64.to_float physicsStep in
  let o2 := CalculateAABB (update_boundary (obj2 before_impact)) in
  velocity (obj2 (update (zero, debug_fill) dt before_impact)) =
  vec3.make (vec3.x (velocity o2)) (mul (vec3.y (velocity o2)) minus_one)
            (vec3.z (velocity o2)).
Proof.
  apply (update_corner_hit (zero, debug_fill)
           (F64.to_float physicsStep) before_impact).
  - vm_compute. repeat split.
  - vm_compute. repeat split.
  - vm_compute. repeat split.
  - vm_compute. reflexivity.
  - vm_compute. reflexivity.
  - left. reflexivity.
  - right. split; reflexivity.
Defined.

(** 90 frames counted since the start and a frame that comes at 1.5: the
    rate is 60. *)
Lemma checkTime_fps_witness :
  exists n g',
    checkTime 21 no_stale (F64.literal 15 1)
      (Build_Globals 90 (F64.literal 148 2) (F64.literal 148 2) F64.zero 0
         F64.zero (init blank)) = Some (n, g')
    /\ frame g' = 0 /\ FPSTime g' = F64.literal 15 1
    /\ fps g' = 60
    /\ 0 <= fps g' <= 90
    /\ (fps g' - 1) * units F64.prec F64.emax (F64.literal 15 1)
       < 90 * 2 ^ 1074
       < (fps g' + 1) * units F64.prec F64.emax (F64.literal 15 1).
Proof.
  apply (checkTime_fps 21 no_stale (F64.literal 15 1)
           (Build_Globals 90 (F64.literal 148 2) (F64.literal 148 2) F64.zero
              0 F64.zero (init blank))).
  - split; reflexivity.
  - split; reflexivity.
  - split; reflexivity.
  - repeat split.
  - apply le_n.
  - cbn [frame]. unfold INT_MAX. lia.
  - vm_compute. reflexivity.
  - vm_compute. reflexivity.
  - vm_compute. reflexivity.
Defined.

(** The first tick of the demo, with zeros and with the debug fill. *)
Lemma update_ignores_stale_normals_witness :
  update (zero, zero) (F64.to_float physicsStep) (init blank) =
  update (debug_fill, debug_fill) (F64.to_float physicsStep) (init blank).
Proof.
  apply (update_ignores_stale_normals (zero, zero) (debug_fill, debug_fill)
           (F64.to_float physicsStep) (init blank)).
  left. vm_compute. reflexivity.
Defined.

(** Frames that come 1 and 2 after the start. *)
Lemma checkTime_clamp_witness :
  option_map (fun r => (fst r, accumulator (snd r), world (snd r)))
    (checkTime 21 no_stale F64.one startup) =
  option_map (fun r => (fst r, accumulator (snd r), world (snd r)))
    (checkTime 21 no_stale (F64.of_Z 2) startup)
  /\ option_map (fun r => (fst r, accumulator (snd r), world (snd r)))
       (checkTime 21 no_stale F64.one startup) =
     physics_loop 21 no_stale (F64.add (accumulator startup) quarter)
       (world startup).
Proof.
  apply (checkTime_clamp 21 no_stale F64.one (F64.of_Z 2) startup);
    reflexivity.
Defined.

(** A unit square that moves by 4 toward another one at a distance of 1. *)
Lemma entry_not_after_exit_witness :
  gt (EntryTime X (box_Z 0 0 1 1) (box_Z 2 0 3 1) (vel_Z 4 0))
     (ExitTime X (box_Z 0 0 1 1) (box_Z 2 0 3 1) (vel_Z 4 0)) = false.
Proof.
  apply (entry_not_after_exit X (box_Z 0 0 1 1) (box_Z 2 0 3 1) (vel_Z 4 0)).
  - repeat split.
  - repeat split.
  - reflexivity.
Defined.
